(** * ObsidianMind: task orchestration, tool invocation, sandbox and reports

    A shallow embedding of the server-side services of the repository:

    - [ToolManager]     (api/services/tools/ToolManager.ts)
    - [POCManager]      (api/services/poc/POCManager.ts)
    - [ReportGenerator] (api/services/ReportGenerator.ts)
    - [TaskManager]     (api/services/TaskManager.ts), with the class
                        SqliteDB (api/db/sqlite.ts) that it writes to
                        and the calls it makes on its queue of Bull
    - [LLMService]      (api/services/ai/LLMService.ts)

    and, of the pages of the client, the checks of the task creation
    form ([TaskCreate], over the regular expressions of [Regex]).

    JavaScript strings are embedded as [string] (the UTF-8 bytes of the
    text); every test the services make on strings is a test on ASCII
    characters or a substring test, and both agree on UTF-8 bytes and on
    UTF-16 code units for well-formed text.  Numbers that the services
    use as integers (progress, exit codes, epoch milliseconds) are [Z].
    What the services obtain from outside (child processes, the clock,
    uuids, the AI collaborators) enters the functions as explicit
    arguments or as the variables of a section. *)

From Stdlib Require Import Strings.Ascii.
From stdpp Require Import base numbers option list strings pretty gmap fin_maps sorting.

Open Scope Z_scope.
Open Scope string_scope.

(** ** JavaScript string and array primitives used by the services *)

Module Js.

(** [s.startsWith(p)] *)
Fixpoint startsWith (s p : string) {struct p} : bool :=
  match p with
  | EmptyString => true
  | String c p' =>
      match s with
      | EmptyString => false
      | String d s' => Ascii.eqb c d && startsWith s' p'
      end
  end.

(** [hay.includes(needle)] *)
Fixpoint includes (hay needle : string) : bool :=
  startsWith hay needle ||
  match hay with
  | EmptyString => false
  | String _ rest => includes rest needle
  end.

(** [s.split(' ')[0]]: the text before the first blank. *)
Fixpoint split_first (s : string) : string :=
  match s with
  | EmptyString => EmptyString
  | String c rest =>
      if Ascii.eqb c " "%char then EmptyString else String c (split_first rest)
  end.

(** [l.join(sep)] *)
Fixpoint join (sep : string) (l : list string) : string :=
  match l with
  | [] => ""
  | [x] => x
  | x :: rest => x +:+ sep +:+ join sep rest
  end.

(** [re.test(s)] for a character class [re = /[...]/]. *)
Fixpoint test_class (class : list ascii) (s : string) : bool :=
  match s with
  | EmptyString => false
  | String c rest =>
      existsb (Ascii.eqb c) class || test_class class rest
  end.

(** [c.toLowerCase()] on the ASCII letters.  The language names the
    services compare with have no letter that a character outside
    ASCII lowers to, so this is [toLowerCase] for those comparisons. *)
Definition lower_ascii (c : ascii) : ascii :=
  let n := nat_of_ascii c in
  if ((65 <=? n)%nat && (n <=? 90)%nat)%bool then ascii_of_nat (n + 32) else c.

Fixpoint toLowerCase (s : string) : string :=
  match s with
  | EmptyString => EmptyString
  | String c rest => String (lower_ascii c) (toLowerCase rest)
  end.

(** [x || d] on strings: the empty string is falsy. *)
Definition or_string (x d : string) : string :=
  if String.eqb x "" then d else x.

(** [x || undefined] on strings. *)
Definition truthy_string (x : string) : option string :=
  if String.eqb x "" then None else Some x.

(** [x || d] on an optional number: [undefined], [null] and [0] are falsy. *)
Definition or_number (x : option Z) (d : Z) : Z :=
  match x with
  | Some n => if (n =? 0)%Z then d else n
  | None => d
  end.

(** [s.split(sep)] for a separator of one character: the first piece
    and the pieces after it. *)
Fixpoint split_pieces (sep : ascii) (s : string) : string * list string :=
  match s with
  | EmptyString => (EmptyString, [])
  | String c rest =>
      let (piece, pieces) := split_pieces sep rest in
      if Ascii.eqb c sep then (EmptyString, piece :: pieces)
      else (String c piece, pieces)
  end.

Definition split (sep : ascii) (s : string) : list string :=
  let (piece, pieces) := split_pieces sep s in piece :: pieces.

(** [s.slice(start)] for a start that is not negative. *)
Fixpoint slice (start : nat) (s : string) : string :=
  match start, s with
  | O, _ => s
  | S _, EmptyString => EmptyString
  | S n, String _ rest => slice n rest
  end.

End Js.

(** ** Node's [path.extname] (POSIX) *)

Module Path.

(** The variables of the loop; [None] stands for the index -1. *)
Record Scan : Type := mkScan
  { startDot : option nat;
    startPart : nat;
    end_ : option nat;
    matchedSlash : bool;
    preDotState : Z }.

(** One round of the loop, for the character [code] at index [i]; the
    flag is false when the round ends the loop. *)
Definition extname_round (i : nat) (code : ascii) (st : Scan) : Scan * bool :=
  if Ascii.eqb code "/"%char then
    if negb (matchedSlash st)
    then (mkScan (startDot st) (i + 1) (end_ st) (matchedSlash st) (preDotState st),
          false)
    else (st, true)
  else
    let st1 :=
      match end_ st with
      | None => mkScan (startDot st) (startPart st) (Some (i + 1)%nat) false
                  (preDotState st)
      | Some _ => st
      end in
    if Ascii.eqb code "."%char then
      match startDot st1 with
      | None =>
          (mkScan (Some i) (startPart st1) (end_ st1) (matchedSlash st1)
             (preDotState st1), true)
      | Some _ =>
          (mkScan (startDot st1) (startPart st1) (end_ st1) (matchedSlash st1) 1, true)
      end
    else
      match startDot st1 with
      | Some _ =>
          (mkScan (startDot st1) (startPart st1) (end_ st1) (matchedSlash st1) (-1),
           true)
      | None => (st1, true)
      end.

(** The loop from the last character down to the first; [visit] holds
    the characters still to visit, the last of the path first. *)
Fixpoint extname_loop (visit : list ascii) (st : Scan) : Scan :=
  match visit with
  | [] => st
  | code :: rest =>
      let (st', go_on) := extname_round (length rest) code st in
      if go_on then extname_loop rest st' else st'
  end.

Definition extname (path : string) : string :=
  let st :=
    extname_loop (rev (String.list_ascii_of_string path)) (mkScan None 0 None true 0) in
  match startDot st, end_ st with
  | Some sd, Some e =>
      if (preDotState st =? 0)%Z
         || ((preDotState st =? 1)%Z && (sd =? e - 1)%nat && (sd =? startPart st + 1)%nat)
      then ""
      else String.substring sd (e - sd) path
  | _, _ => ""
  end.

(** A character that is neither the dot nor the slash, and one that
    is not the slash. *)
Definition plain (c : ascii) : Prop := c <> "."%char /\ c <> "/"%char.
Definition no_slash (c : ascii) : Prop := c <> "/"%char.

End Path.

(** ** Child processes

    [child_process.exec] hands one command line to a shell;
    [child_process.spawn] starts a file with an argument vector and no
    shell.  A launch records which of the two was called and with what. *)

Inductive ProcessLaunch : Type :=
| Exec (command : string) (timeout : Z)
| Spawn (file : string) (argv : list string) (timeout : Z)
        (cwd : string) (env : list (string * string)).

(** What [execAsync] yields: the two output streams, or the rejection
    [error] with its [message], [stdout] and [code] properties. *)
Record ExecError : Type := mkExecError
  { err_message : string;
    err_stdout : option string;
    err_code : option Z }.

Inductive ExecOutcome : Type :=
| ExecResolved (stdout stderr : string)
| ExecRejected (e : ExecError).

(** A [path.join] that puts a slash between directory and file, and a
    file system that accepts every write: the surroundings of the sample
    runs. *)
Definition slash_join (dir file : string) : string := dir +:+ "/" +:+ file.
Definition no_write_error (_ : string) : option string := None.

(** ** ToolManager *)

Module ToolManager.

Inductive OutputFormat := json | xml | text.

Record ToolConfig : Type := mkToolConfig
  { name : string;
    command : string;
    version : string;
    timeout : Z;
    allowedArgs : list string;
    outputFormat : OutputFormat }.

Record ToolExecution : Type := mkToolExecution
  { toolName : string;
    args : list string;
    target : string;
    timeout_override : option Z }.

Record Validation : Type := mkValidation
  { valid : bool;
    v_error : option string }.

(** [initializeDefaultTools] *)
Definition nmap_config : ToolConfig :=
  mkToolConfig "nmap" "nmap" "7.93" 300000
    ["-sS"; "-sT"; "-sU"; "-O"; "-sV"; "-p"; "-Pn"; "-A"; "-T4"] text.
Definition sqlmap_config : ToolConfig :=
  mkToolConfig "sqlmap" "sqlmap" "1.7" 600000
    ["--batch"; "--random-agent"; "--level"; "--risk"; "--threads"] text.
Definition nikto_config : ToolConfig :=
  mkToolConfig "nikto" "nikto" "2.5.0" 300000
    ["-h"; "-p"; "-Tuning"; "-Plugins"] text.
Definition dirb_config : ToolConfig :=
  mkToolConfig "dirb" "dirb" "2.22" 300000
    ["-w"; "-t"; "-r"; "-l"] text.

Definition initializeDefaultTools : gmap string ToolConfig :=
  <["dirb" := dirb_config]>
    (<["nikto" := nikto_config]>
       (<["sqlmap" := sqlmap_config]>
          (<["nmap" := nmap_config]> ∅))).

Definition addTool (cfg : ToolConfig) (tools : gmap string ToolConfig)
  : gmap string ToolConfig :=
  <[name cfg := cfg]> tools.

Definition removeTool (n : string) (tools : gmap string ToolConfig)
  : bool * gmap string ToolConfig :=
  (bool_decide (is_Some (tools !! n)), delete n tools).

(** The character class of [/[;&|`$]/]. *)
Definition dangerous : list ascii :=
  [";"%char; "&"%char; "|"%char; "`"%char; "$"%char].

Definition is_dangerous (arg : string) : bool := Js.test_class dangerous arg.

Definition allowed_flag (allowed : list string) (arg : string) : bool :=
  let baseArg := Js.split_first arg in
  existsb (fun a => Js.startsWith baseArg a) allowed.

(** [validateArgs]: the loop stops at the first argument it refuses. *)
Fixpoint validateArgs (args : list string) (allowed : list string) : Validation :=
  match args with
  | [] => mkValidation true None
  | arg :: rest =>
      if is_dangerous arg then
        mkValidation false (Some ("Argument contains dangerous characters: " +:+ arg))
      else if Js.startsWith arg "-" && negb (allowed_flag allowed arg) then
        mkValidation false (Some ("Argument not allowed: " +:+ arg))
      else validateArgs rest allowed
  end.

(** [buildCommand]: one command line, blanks between the parts. *)
Definition buildCommand (cfg : ToolConfig) (e : ToolExecution) : string :=
  command cfg +:+ " " +:+ Js.join " " (args e) +:+ " " +:+ target e.

Section Execute.

(** The parsers work by regular expressions over the tool's output;
    their result only fills [parsedData]. *)
Context {ParsedData : Type}.
Variable parseOutput : string -> OutputFormat -> string -> ParsedData.
(** The shell and the tool behind [execAsync]. *)
Variable execAsync : string -> Z -> ExecOutcome.

Record ToolResult : Type := mkToolResult
  { success : bool;
    output : string;
    error : option string;
    exitCode : Z;
    executionTime : Z;
    parsedData : option ParsedData }.

(** [executeTool].  [t0] and [t1] are the two readings of [Date.now()];
    the second component lists the processes launched, in order. *)
Definition executeTool (tools : gmap string ToolConfig) (t0 t1 : Z)
    (e : ToolExecution) : ToolResult * list ProcessLaunch :=
  match tools !! toolName e with
  | None =>
      (mkToolResult false "" (Some ("Tool " +:+ toolName e +:+ " not found"))
         (-1) (t1 - t0) None, [])
  | Some toolConfig =>
      let validationResult := validateArgs (args e) (allowedArgs toolConfig) in
      if negb (valid validationResult) then
        (mkToolResult false "" (v_error validationResult) (-1) (t1 - t0) None, [])
      else
        let command := buildCommand toolConfig e in
        let timeout := Js.or_number (timeout_override e) (timeout toolConfig) in
        match execAsync command timeout with
        | ExecResolved stdout stderr =>
            (mkToolResult true stdout (Js.truthy_string stderr) 0 (t1 - t0)
               (Some (parseOutput stdout (outputFormat toolConfig) (toolName e))),
             [Exec command timeout])
        | ExecRejected err =>
            (mkToolResult false (Js.or_string (default "" (err_stdout err)) "")
               (Some (err_message err)) (Js.or_number (err_code err) (-1))
               (t1 - t0) None,
             [Exec command timeout])
        end
  end.

End Execute.

(** *** Notions and sample inputs for the properties *)

(** The shell metacharacters of the policy. *)
Definition metacharacter (c : ascii) : Prop :=
  c = ";"%char \/ c = "&"%char \/ c = "|"%char \/ c = "`"%char \/ c = "$"%char.

Definition occurs_in (c : ascii) (s : string) : Prop :=
  In c (String.list_ascii_of_string s).

(** What the claim asks of a launch: the command as the file, and the
    arguments followed by the target as the argument vector. *)
Definition vector_launch (cfg : ToolConfig) (e : ToolExecution) (l : ProcessLaunch) : Prop :=
  exists t cwd env, l = Spawn (command cfg) (args e ++ [target e]) t cwd env.

Definition echo_parser (out : string) (_ : OutputFormat) (_ : string) : string := out.
Definition quiet_shell (_ : string) (_ : Z) : ExecOutcome := ExecResolved "" "".

Definition nmap_sS : ToolExecution :=
  mkToolExecution "nmap" ["-sS"] "example.com" None.
Definition nmap_rm_rf : ToolExecution :=
  mkToolExecution "nmap" ["; rm -rf /"] "example.com" None.

(** *** The registry and the health probe *)

Definition getToolConfig (n : string) (tools : gmap string ToolConfig)
  : option ToolConfig :=
  tools !! n.

Record ToolStatus : Type := mkToolStatus
  { st_available : bool;
    st_version : option string;
    st_error : option string }.

Record Health : Type := mkHealth
  { h_status : string;
    h_tools : gmap string ToolStatus }.

Section Probe.

Variable execAsync : string -> Z -> ExecOutcome.
(** [s.trim()] *)
Variable trim : string -> string.

(** The command line of the probe and its timeout. *)
Definition probeCommand (cfg : ToolConfig) : string := command cfg +:+ " --version".
Definition probeTimeout : Z := 10000.

(** [validateTool]: the status, and the processes launched. *)
Definition validateTool (tools : gmap string ToolConfig) (n : string)
  : ToolStatus * list ProcessLaunch :=
  match tools !! n with
  | None => (mkToolStatus false None (Some "Tool not configured"), [])
  | Some toolConfig =>
      match execAsync (probeCommand toolConfig) probeTimeout with
      | ExecResolved stdout _ =>
          (mkToolStatus true (Some (trim stdout)) None,
           [Exec (probeCommand toolConfig) probeTimeout])
      | ExecRejected err =>
          (mkToolStatus false None (Some (err_message err)),
           [Exec (probeCommand toolConfig) probeTimeout])
      end
  end.

(** [getHealthStatus]: every configured tool is probed under its name
    in the registry, and the status is healthy when every probe
    collected found its tool.  The statuses are collected in an object
    literal by [toolStatus[toolName] = ...]: for the name [__proto__]
    the assignment sets the prototype of the object and adds no
    property, so that the status of a tool of that name is neither
    among [Object.values(toolStatus)] nor among the tools reported. *)
Definition getHealthStatus (tools : gmap string ToolConfig) : Health :=
  let toolStatus :=
    map_imap (fun n _ => Some (fst (validateTool tools n))) (delete "__proto__" tools) in
  let allAvailable :=
    bool_decide (map_Forall (fun _ st => st_available st = true) toolStatus) in
  mkHealth (if allAvailable then "healthy" else "degraded") toolStatus.

End Probe.

(** An argument that [validateArgs] lets through, given the allow-list
    of the tool: none of the five characters occurs in it, and when it
    starts with a dash, the text before its first blank starts with an
    entry of the allow-list. *)
Definition acceptable (allowed : list string) (arg : string) : Prop :=
  (forall c, metacharacter c -> ~ occurs_in c arg) /\
  ((exists rest, arg = "-" +:+ rest) ->
   exists a post, In a allowed /\ Js.split_first arg = a +:+ post).

(** A shell that knows the commands [known] and no other: the probe
    of a command resolves with a version line exactly for those. *)
Definition shell_with (known : list string) (line : string) (_ : Z) : ExecOutcome :=
  if existsb (fun c => String.eqb line (c +:+ " --version")) known
  then ExecResolved "1.0" ""
  else ExecRejected (mkExecError ("Command failed: " +:+ line) None (Some 127)).

Definition masscan_config : ToolConfig :=
  mkToolConfig "masscan" "masscan" "1.3" 300000 ["-p"; "--rate"] text.

End ToolManager.

(** ** POCManager: the verification sandbox *)

(** What a spawned child does to the promise of [execute*POC]: the
    [close] event with the exit code ([null] when a signal ended it) and
    the two streams as collected, or the [error] event with what stdout
    had delivered until then. *)
Inductive ChildOutcome : Type :=
| Closed (code : option Z) (stdout stderr : string)
| Errored (message : string) (stdout : string).

Module POCManager.

Record POCExecution : Type := mkPOCExecution
  { id : string;
    vulnerabilityId : string;
    code : string;
    language : string;
    description : string;
    target : string;
    parameters : list (string * string);
    timeout : Z;
    sandboxed : bool }.

Record POCResult : Type := mkPOCResult
  { success : bool;
    vulnerabilityConfirmed : bool;
    output : string;
    error : option string;
    executionTime : Z;
    reliabilityScore : Z }.

Definition with_executionTime (t : Z) (r : POCResult) : POCResult :=
  mkPOCResult (success r) (vulnerabilityConfirmed r) (output r) (error r) t
    (reliabilityScore r).

(** [getFileExtension]: [extensions[language.toLowerCase()] || 'txt'] on
    an object literal.  The lookup also finds what every object
    inherits; of the names of those properties two are in lower case:
    [constructor], the function [Object], and [__proto__], the
    prototype object.  The caller puts the result into a text, which
    turns the two into the texts below. *)
Definition getFileExtension (language : string) : string :=
  let l := Js.toLowerCase language in
  if String.eqb l "python" then "py"
  else if String.eqb l "javascript" then "js"
  else if String.eqb l "bash" then "sh"
  else if String.eqb l "shell" then "sh"
  else if String.eqb l "constructor" then "function Object() { [native code] }"
  else if String.eqb l "__proto__" then "[object Object]"
  else "txt".

Definition python_indicators : list string :=
  ["漏洞可能存在"; "vulnerable"; "VULNERABILITY"; "检测到"; "发现"; "[+]"].
Definition javascript_indicators : list string :=
  ["vulnerability"; "VULNERABILITY"; "漏洞"; "检测到"; "发现"; "[!]"].
Definition shell_indicators : list string :=
  ["VULNERABLE"; "vulnerable"; "漏洞"; "成功"; "detected"].

(** [indicators.some(indicator => stdout.includes(indicator))] *)
Definition some_included (indicators : list string) (stdout : string) : bool :=
  existsb (fun indicator => Js.includes stdout indicator) indicators.

Definition analyzePythonOutput (stdout stderr : string) : bool :=
  some_included python_indicators stdout.
Definition analyzeJavaScriptOutput (stdout stderr : string) : bool :=
  some_included javascript_indicators stdout.
Definition analyzeShellOutput (stdout stderr : string) : bool :=
  some_included shell_indicators stdout.

(** The message of the ReferenceError for a constant read inside its
    own initialiser. *)
Definition process_before_initialization : string :=
  "Cannot access 'process' before initialization".

(** The handlers of [close] and [error], the same in the three runners
    up to the analysis function. *)
Definition settle (analyze : string -> string -> bool) (o : ChildOutcome) : POCResult :=
  match o with
  | Closed code stdout stderr =>
      let vulnerabilityConfirmed := analyze stdout stderr in
      mkPOCResult (bool_decide (code = Some 0)) vulnerabilityConfirmed stdout
        (Js.truthy_string stderr) 0
        (if vulnerabilityConfirmed then 80 else 20)
  | Errored message stdout =>
      mkPOCResult false false stdout (Some message) 0 0
  end.

Section Execute.

(** [path.join] and the two directories derived from the working
    directory of the server. *)
Variable path_join : string -> string -> string.
Variable pocStoragePath sandboxPath : string.
(** The operating system behind [spawn]. *)
Variable spawn : ProcessLaunch -> ChildOutcome.
(** [fs.writeFile]: [Some message] when the write is rejected. *)
Variable writeFile_error : string -> option string.

Definition codeFilePath (e : POCExecution) : string :=
  path_join pocStoragePath
    ("poc_" +:+ id e +:+ "." +:+ getFileExtension (language e)).

Definition effective_timeout (e : POCExecution) : Z :=
  Js.or_number (Some (timeout e)) 60000.

Definition javascriptLaunch (codeFile : string) (e : POCExecution) : ProcessLaunch :=
  Spawn "node"
    ([codeFile] ++ (if String.eqb (target e) "" then [] else [target e]))
    (effective_timeout e) sandboxPath [].

(** The three runners: the result their promise resolves to, or the
    message of the error it rejects with.

    [executePythonPOC] and [executeShellPOC] declare
    [const process = spawn(..., { ..., env: { ...process.env, ... } })]:
    the options of the call read [process.env] inside the initialiser of
    the constant [process] itself, which hides the global of that name
    and is not initialised yet.  The read throws before [spawn] is
    called, inside the executor of the promise, and the promise rejects:
    no child is started and no handler is set up.
    [executeJavaScriptPOC] passes no [env] and does start its child. *)
Definition executePythonPOC (codeFile : string) (e : POCExecution) : POCResult + string :=
  inr process_before_initialization.
Definition executeJavaScriptPOC (codeFile : string) (e : POCExecution) : POCResult + string :=
  inl (settle analyzeJavaScriptOutput (spawn (javascriptLaunch codeFile e))).
Definition executeShellPOC (codeFile : string) (e : POCExecution) : POCResult + string :=
  inr process_before_initialization.

Definition rejected (message : string) (elapsed : Z) : POCResult :=
  mkPOCResult false false "" (Some message) elapsed 0.

(** [result.executionTime = Date.now() - startTime] on what the runner
    resolved to; the [catch] for what it rejected with. *)
Definition finish (elapsed : Z) (r : POCResult + string) : POCResult :=
  match r with
  | inl result => with_executionTime elapsed result
  | inr message => rejected message elapsed
  end.

(** [executePOC].  The file system maps a path to the text stored
    there; [t0] and [t1] are the readings of [Date.now()] on entry
    and at the end.  The result comes with the file system after
    [savePOCCode] and the processes launched. *)
Definition executePOC (fs : gmap string string) (t0 t1 : Z) (e : POCExecution)
  : POCResult * gmap string string * list ProcessLaunch :=
  let codeFile := codeFilePath e in
  match writeFile_error codeFile with
  | Some message => (rejected message (t1 - t0), fs, [])
  | None =>
      let fs' := <[codeFile := code e]> fs in
      let l := Js.toLowerCase (language e) in
      if String.eqb l "python" then
        (finish (t1 - t0) (executePythonPOC codeFile e), fs', [])
      else if String.eqb l "javascript" then
        (finish (t1 - t0) (executeJavaScriptPOC codeFile e), fs',
         [javascriptLaunch codeFile e])
      else if String.eqb l "bash" || String.eqb l "shell" then
        (finish (t1 - t0) (executeShellPOC codeFile e), fs', [])
      else
        (rejected ("Unsupported language: " +:+ language e) (t1 - t0), fs', [])
  end.

End Execute.

(** *** Notions and sample inputs for the properties *)

(** The vocabulary of positive indicators that belongs to a declared
    language; [None] for a language the executor does not run. *)
Definition vocabulary (language : string) : option (list string) :=
  let l := Js.toLowerCase language in
  if String.eqb l "python" then Some python_indicators
  else if String.eqb l "javascript" then Some javascript_indicators
  else if String.eqb l "bash" || String.eqb l "shell" then Some shell_indicators
  else None.

(** [token] occurs in [stdout]. *)
Definition contains (stdout token : string) : Prop :=
  exists pre post, stdout = pre +:+ token +:+ post.

(** A stub program that prints a line with the token [+]. *)
Definition stub_job : POCExecution :=
  mkPOCExecution "p1" "v1" "print('[+] found')" "Python" "stub" "example.com" []
    30000 true.
Definition stub_child (_ : ProcessLaunch) : ChildOutcome :=
  Closed (Some 0) "[+] found" "".

(** *** Generation of the verification code *)

Record VulnerabilityInfo : Type := mkVulnerabilityInfo
  { vi_id : string;
    vi_type : string;
    vi_title : string;
    vi_description : string;
    vi_severity : string;
    vi_component : string }.

Record GeneratedPOC : Type := mkGeneratedPOC
  { g_code : string;
    g_language : string;
    g_description : string;
    g_executionSteps : list string;
    g_safetyNotes : list string }.

(** The message of the TypeError for the call of a method that the
    class does not define. *)
Definition not_a_function (method : string) : string :=
  "this." +:+ method +:+ " is not a function".

Section Generate.

(** The program texts of the four generators that the class defines:
    template literals without interpolation, the same for every
    finding. *)
Variable sqlInjectionCode xssCode commandInjectionCode genericCode : string.

Definition generateSQLInjectionPOC (v : VulnerabilityInfo) : GeneratedPOC :=
  mkGeneratedPOC sqlInjectionCode "python"
    ("SQL注入漏洞验证脚本 - " +:+ vi_description v)
    ["安装依赖: pip install requests";
     "运行脚本: python sql_injection_poc.py <target_url> <parameter>";
     "分析输出结果"]
    ["此脚本仅用于安全测试目的";
     "请在获得授权的情况下使用";
     "脚本包含延迟机制避免对目标造成压力";
     "建议使用测试环境进行验证"].

Definition generateXSSPOC (v : VulnerabilityInfo) : GeneratedPOC :=
  mkGeneratedPOC xssCode "javascript"
    ("XSS漏洞验证脚本 - " +:+ vi_description v)
    ["安装依赖: npm install puppeteer";
     "运行脚本: node xss_poc.js <target_url> <parameter>";
     "分析输出结果"]
    ["使用无头浏览器进行安全测试";
     "自动拦截危险资源加载";
     "包含多种XSS payload测试";
     "建议在隔离环境中运行"].

Definition generateCommandInjectionPOC (v : VulnerabilityInfo) : GeneratedPOC :=
  mkGeneratedPOC commandInjectionCode "python"
    ("命令注入漏洞验证脚本 - " +:+ vi_description v)
    ["安装依赖: pip install requests";
     "运行脚本: python command_injection_poc.py <target_url> <parameter>";
     "分析输出结果"]
    ["包含Unix和Windows平台的测试payloads";
     "使用时间盲注检测技术";
     "支持安全模式测试";
     "自动检测命令执行结果"].

Definition generateGenericPOC (v : VulnerabilityInfo) : GeneratedPOC :=
  mkGeneratedPOC genericCode "python"
    ("通用漏洞验证脚本 - " +:+ vi_description v)
    ["安装依赖: pip install requests";
     "运行脚本: python generic_poc.py <target_url> <vulnerability_type>";
     "支持的漏洞类型: file_inclusion, xxe, ssrf, idor, brute_force"]
    ["支持多种常见漏洞类型的检测";
     "包含安全测试payloads";
     "自动检测漏洞特征";
     "建议在授权环境下使用"].

(** [generatePOCCode]: the generated code, or the message of the error
    thrown.  The class defines the generators of the first three cases
    and of the default case; the methods that the other five cases
    call are defined nowhere, so the call is a TypeError, which the
    [catch] logs and throws again.  (No character outside ASCII lowers
    to a text that spells one of the eight type names.) *)
Definition generatePOCCode (v : VulnerabilityInfo) : GeneratedPOC + string :=
  let t := Js.toLowerCase (vi_type v) in
  if String.eqb t "sql_injection" then inl (generateSQLInjectionPOC v)
  else if String.eqb t "xss" then inl (generateXSSPOC v)
  else if String.eqb t "command_injection" then inl (generateCommandInjectionPOC v)
  else if String.eqb t "file_inclusion" then inr (not_a_function "generateFileInclusionPOC")
  else if String.eqb t "xxe" then inr (not_a_function "generateXXEPOC")
  else if String.eqb t "ssrf" then inr (not_a_function "generateSSRFPOC")
  else if String.eqb t "idor" then inr (not_a_function "generateIDORPOC")
  else if String.eqb t "brute_force" then inr (not_a_function "generateBruteForcePOC")
  else inl (generateGenericPOC v).

End Generate.

(** The job that the orchestrator builds from the generated code
    ([executePentestChain] of TaskManager): the target of the task, no
    parameters, a timeout of 30 seconds. *)
Definition verification_job (pocId : string) (v : VulnerabilityInfo) (g : GeneratedPOC)
    (taskTarget : string) : POCExecution :=
  mkPOCExecution pocId (vi_id v) (g_code g) (g_language g) (g_description g)
    taskTarget [] 30000 true.

(** The types whose generator is called but not defined. *)
Definition undefined_generators : list string :=
  ["file_inclusion"; "xxe"; "ssrf"; "idor"; "brute_force"].

(** *** Removal of the stored code *)

Section Cleanup.

Variable path_join : string -> string -> string.
Variable pocStoragePath : string.

(** The loop over [fs.unlink]: the call rejects for a file that is
    not there, which ends the loop in the [catch]. *)
Fixpoint unlink_each (files : list string) (fs : gmap string string)
  : gmap string string :=
  match files with
  | [] => fs
  | file :: rest =>
      let p := path_join pocStoragePath file in
      match fs !! p with
      | Some _ => unlink_each rest (delete p fs)
      | None => fs
      end
  end.

(** [cleanupPOC].  [listing] is what [fs.readdir] yields for the
    storage directory, [None] when it rejects. *)
Definition cleanupPOC (listing : option (list string)) (pocId : string)
    (fs : gmap string string) : gmap string string :=
  match listing with
  | None => fs
  | Some files =>
      let pocFiles := List.filter (fun file => Js.includes file pocId) files in
      unlink_each pocFiles fs
  end.

End Cleanup.

(** The name under which [savePOCCode] stores the code of a job. *)
Definition codeFileName (e : POCExecution) : string :=
  "poc_" +:+ id e +:+ "." +:+ getFileExtension (language e).

(** Sample inputs: two findings, a child that prints the negative
    verdict of the generated XSS script, and a job for it. *)
Definition xss_finding : VulnerabilityInfo :=
  mkVulnerabilityInfo "v1" "XSS" "reflected xss" "echoed parameter" "high" "search".
Definition sql_finding : VulnerabilityInfo :=
  mkVulnerabilityInfo "v2" "sql_injection" "sql injection" "login form" "high" "login".
Definition negative_verdict : string := "[*] 漏洞验证结果: 未检测到XSS漏洞".
Definition negative_child (_ : ProcessLaunch) : ChildOutcome :=
  Closed (Some 0) negative_verdict "".
Definition javascript_job : POCExecution :=
  mkPOCExecution "p2" "v2" "console.log('...')" "javascript" "xss" "example.com" []
    30000 true.

End POCManager.

(** ** ReportGenerator *)

Module ReportGenerator.

Record ReportConfig : Type := mkReportConfig
  { taskId : string;
    taskName : string;
    target : string;
    format : string }.

Record ReportResult : Type := mkReportResult
  { success : bool;
    reportId : string;
    filePath : string;
    fileSize : Z;
    error : option string }.

Section Generate.

Context {ReportData : Type}.
(** The placeholder substitution of [generateHTMLReport] on the text
    of the template, and the [JSON.stringify] of [generateJSONReport]. *)
Variable fill_template : string -> ReportData -> string.
Variable stringify : ReportData -> string.
Variable path_join : string -> string -> string.
Variable reportStoragePath templatePath : string.
(** [fs.writeFile]: [Some message] when the write is rejected. *)
Variable writeFile_error : string -> option string.

(** [generateHTMLReport]: reading the template can fail. *)
Definition generateHTMLReport (fs : gmap string string) (d : ReportData)
  : string + string :=
  match fs !! path_join templatePath "default.html" with
  | Some template => inl (fill_template template d)
  | None => inr "ENOENT: no such file or directory"
  end.

Definition generateJSONReport (d : ReportData) : string + string :=
  inl (stringify d).

(** The [switch] of [generateReport]: the content and the file
    extension, or the message of the error thrown. *)
Definition render (fs : gmap string string) (cfg : ReportConfig) (d : ReportData)
  : (string * string) + string :=
  if String.eqb (format cfg) "html" then
    match generateHTMLReport fs d with
    | inl reportContent => inl (reportContent, "html")
    | inr message => inr message
    end
  else if String.eqb (format cfg) "json" then
    match generateJSONReport d with
    | inl reportContent => inl (reportContent, "json")
    | inr message => inr message
    end
  else if String.eqb (format cfg) "pdf" then
    match generateHTMLReport fs d with
    | inl htmlContent => inl (htmlContent, "pdf")
    | inr message => inr message
    end
  else inr ("Unsupported report format: " +:+ format cfg).

Definition failure (reportId message : string) : ReportResult :=
  mkReportResult false reportId "" 0 (Some message).

(** [generateReport].  [reportId] is the uuid drawn on entry and [now]
    the reading of [Date.now()] that names the file. *)
Definition generateReport (fs : gmap string string) (reportId : string) (now : Z)
    (cfg : ReportConfig) (d : ReportData) : ReportResult * gmap string string :=
  match render fs cfg d with
  | inr message => (failure reportId message, fs)
  | inl (reportContent, fileExtension) =>
      let fileName :=
        "report_" +:+ reportId +:+ "_" +:+ pretty now +:+ "." +:+ fileExtension in
      let filePath := path_join reportStoragePath fileName in
      match writeFile_error filePath with
      | Some message => (failure reportId message, fs)
      | None =>
          (mkReportResult true reportId filePath
             (Z.of_nat (String.length reportContent)) None,
           <[filePath := reportContent]> fs)
      end
  end.

End Generate.

(** *** Sample inputs for the properties *)

(** A stand-in for the substitution: the template followed by the data. *)
Definition append_data (template d : string) : string := template +:+ d.
Definition stored_template : gmap string string :=
  {[ "templates/default.html" := "<html>{{taskName}}</html>" ]}.
Definition pdf_request : ReportConfig := mkReportConfig "task_1" "t1" "example.com" "pdf".
Definition html_request : ReportConfig := mkReportConfig "task_1" "t1" "example.com" "html".

(** *** The stored reports *)

(** The name that [generateReport] gives the file of a report. *)
Definition reportFileName (reportId : string) (now : Z) (fileExtension : string)
  : string :=
  "report_" +:+ reportId +:+ "_" +:+ pretty now +:+ "." +:+ fileExtension.

(** What [fs.stat] tells of a file. *)
Record Stats : Type := mkStats
  { size : Z;
    birthtime : Z }.

Record ReportInfo : Type := mkReportInfo
  { i_reportId : string;
    i_filePath : string;
    i_fileSize : Z;
    i_createdAt : Z }.

(** An entry of the list of reports; the [reportId] is [undefined]
    for a file name without underscore. *)
Record ReportEntry : Type := mkReportEntry
  { e_reportId : option string;
    e_fileName : string;
    e_fileSize : Z;
    e_createdAt : Z;
    e_format : string }.

(** [reports.sort((a, b) => b.createdAt.getTime() - a.createdAt.getTime())]:
    the later report first, reports of the same time in the order they
    had. *)
Fixpoint insert_newest_first (x : ReportEntry) (l : list ReportEntry)
  : list ReportEntry :=
  match l with
  | [] => [x]
  | y :: rest =>
      if (e_createdAt y <=? e_createdAt x)%Z then x :: l
      else y :: insert_newest_first x rest
  end.

Definition sort_newest_first (l : list ReportEntry) : list ReportEntry :=
  foldr insert_newest_first [] l.

Section Stored.

Variable path_join : string -> string -> string.
Variable reportStoragePath : string.
(** [fs.stat]: [None] when it rejects. *)
Variable stat : string -> option Stats.

(** [files.find(file => file.includes(reportId))], as the test
    [if (reportFile)] reads it. *)
Definition findReportFile (files : list string) (reportId : string) : option string :=
  match List.find (fun file => Js.includes file reportId) files with
  | Some reportFile => Js.truthy_string reportFile
  | None => None
  end.

(** [getReport].  [listing] is what [fs.readdir] yields for the
    storage directory, [None] when it rejects. *)
Definition getReport (listing : option (list string)) (reportId : string)
  : option ReportInfo :=
  match listing with
  | None => None
  | Some files =>
      match findReportFile files reportId with
      | None => None
      | Some reportFile =>
          let filePath := path_join reportStoragePath reportFile in
          match stat filePath with
          | None => None
          | Some stats => Some (mkReportInfo reportId filePath (size stats) (birthtime stats))
          end
      end
  end.

(** [deleteReport]: [fs.unlink] rejects for a file that is not there. *)
Definition deleteReport (listing : option (list string)) (reportId : string)
    (fs : gmap string string) : bool * gmap string string :=
  match listing with
  | None => (false, fs)
  | Some files =>
      match findReportFile files reportId with
      | None => (false, fs)
      | Some reportFile =>
          let filePath := path_join reportStoragePath reportFile in
          match fs !! filePath with
          | Some _ => (true, delete filePath fs)
          | None => (false, fs)
          end
      end
  end.

(** The body of the loop of [getReportsList]: [None] when [fs.stat]
    rejects. *)
Definition reportEntry (file : string) : option ReportEntry :=
  match stat (path_join reportStoragePath file) with
  | None => None
  | Some stats =>
      let reportId := Js.split "_"%char file !! 1%nat in
      let format := Js.slice 1 (Path.extname file) in
      Some (mkReportEntry reportId file (size stats) (birthtime stats) format)
  end.

Fixpoint reportEntries (files : list string) : option (list ReportEntry) :=
  match files with
  | [] => Some []
  | file :: rest =>
      match reportEntry file with
      | None => None
      | Some entry =>
          match reportEntries rest with
          | None => None
          | Some entries => Some (entry :: entries)
          end
      end
  end.

(** [getReportsList]: any rejection gives the empty list. *)
Definition getReportsList (listing : option (list string)) : list ReportEntry :=
  match listing with
  | None => []
  | Some files =>
      match reportEntries files with
      | None => []
      | Some reports => sort_newest_first reports
      end
  end.

End Stored.

(** A character occurs in a text. *)
Definition has_char (c : ascii) (s : string) : Prop :=
  In c (String.list_ascii_of_string s).

(** The entries are in the order later report first. *)
Definition newest_first (l : list ReportEntry) : Prop :=
  StronglySorted (fun a b => (e_createdAt b <= e_createdAt a)%Z) l.

(** Sample inputs: a directory with two reports. *)
Definition two_reports : list string :=
  ["report_r1_1000.pdf"; "report_r2_2000.json"].
Definition sample_stat (p : string) : option Stats :=
  if String.eqb p "reports/report_r1_1000.pdf" then Some (mkStats 27 1000)
  else if String.eqb p "reports/report_r2_2000.json" then Some (mkStats 2 2000)
  else None.
Definition json_request : ReportConfig := mkReportConfig "task_1" "t1" "example.com" "json".

End ReportGenerator.

(** ** TaskManager: the task execution orchestrator *)

Module TaskManager.

Inductive Status := pending | running | paused | completed | failed | cancelled.
Inductive Provider := openai | anthropic | gemini.
Inductive StrategyType := comprehensive | fast | deep | custom.

(** A value of TypeScript type [any], as far as the orchestrator
    carries one around. *)
#[local] Set Warnings "-register-all".
Inductive JsValue : Type :=
| JNull
| JBool (b : bool)
| JNum (n : Z)
| JStr (s : string)
| JArr (items : list JsValue)
| JObj (fields : list (string * JsValue)).
#[local] Set Warnings "register-all".

(** [aiModelConfig]; the optional [temperature], a fraction that the
    orchestrator only hands on, is left out. *)
Record AiModelConfig : Type := mkAiModelConfig
  { apiKey : string;
    model : string;
    maxTokens : option Z }.

Record Strategy : Type := mkStrategy
  { type : StrategyType;
    depth : Z;
    scope : list string }.

Record TaskConfig : Type := mkTaskConfig
  { id : string;
    name : string;
    target : string;
    aiModel : Provider;
    aiModelConfig : AiModelConfig;
    tools : list string;
    strategy : Strategy;
    userId : string;
    priority : Z;
    scheduledAt : option Z }.

(** A finding of the chain, with the two properties the verification
    pass writes into it. *)
Record Vulnerability : Type := mkVulnerability
  { v_id : string;
    v_type : string;
    v_title : string;
    v_severity : string;
    pocVerified : bool;
    pocResult : option POCManager.POCResult }.

Record TaskExecution : Type := mkTaskExecution
  { jobId : string;
    taskId : string;
    status : Status;
    progress : Z;
    currentStage : string;
    results : list JsValue;
    vulnerabilities : list Vulnerability;
    logs : list string;
    startedAt : option Z;
    completedAt : option Z;
    error : option string }.

(** Assignments to the properties of an execution object. *)
Definition set_status (x : Status) (e : TaskExecution) : TaskExecution :=
  mkTaskExecution (jobId e) (taskId e) x (progress e) (currentStage e) (results e)
    (vulnerabilities e) (logs e) (startedAt e) (completedAt e) (error e).
Definition set_progress (x : Z) (e : TaskExecution) : TaskExecution :=
  mkTaskExecution (jobId e) (taskId e) (status e) x (currentStage e) (results e)
    (vulnerabilities e) (logs e) (startedAt e) (completedAt e) (error e).
Definition set_currentStage (x : string) (e : TaskExecution) : TaskExecution :=
  mkTaskExecution (jobId e) (taskId e) (status e) (progress e) x (results e)
    (vulnerabilities e) (logs e) (startedAt e) (completedAt e) (error e).
Definition set_results (x : list JsValue) (e : TaskExecution) : TaskExecution :=
  mkTaskExecution (jobId e) (taskId e) (status e) (progress e) (currentStage e) x
    (vulnerabilities e) (logs e) (startedAt e) (completedAt e) (error e).
Definition set_vulnerabilities (x : list Vulnerability) (e : TaskExecution) : TaskExecution :=
  mkTaskExecution (jobId e) (taskId e) (status e) (progress e) (currentStage e) (results e)
    x (logs e) (startedAt e) (completedAt e) (error e).
Definition push_log (line : string) (e : TaskExecution) : TaskExecution :=
  mkTaskExecution (jobId e) (taskId e) (status e) (progress e) (currentStage e) (results e)
    (vulnerabilities e) (logs e ++ [line]) (startedAt e) (completedAt e) (error e).
Definition set_startedAt (x : option Z) (e : TaskExecution) : TaskExecution :=
  mkTaskExecution (jobId e) (taskId e) (status e) (progress e) (currentStage e) (results e)
    (vulnerabilities e) (logs e) x (completedAt e) (error e).
Definition set_completedAt (x : option Z) (e : TaskExecution) : TaskExecution :=
  mkTaskExecution (jobId e) (taskId e) (status e) (progress e) (currentStage e) (results e)
    (vulnerabilities e) (logs e) (startedAt e) x (error e).
Definition set_error (x : option string) (e : TaskExecution) : TaskExecution :=
  mkTaskExecution (jobId e) (taskId e) (status e) (progress e) (currentStage e) (results e)
    (vulnerabilities e) (logs e) (startedAt e) (completedAt e) x.

(** *** The database *)

Record TaskRow : Type := mkTaskRow
  { t_id : string;
    t_name : string;
    t_target : string;
    t_aiModel : Provider;
    t_priority : Z;
    t_scheduledAt : option Z;
    t_createdAt : Z }.

Record ExecRow : Type := mkExecRow
  { r_jobId : string;
    r_taskId : string;
    r_status : Status;
    r_progress : Z;
    r_currentStage : string;
    r_startedAt : option Z;
    r_completedAt : option Z;
    r_error : option string }.

Record LogRow : Type := mkLogRow
  { l_id : string;
    l_jobId : string;
    l_message : string;
    l_ts : Z }.

(** The class SqliteDB (db/sqlite) keeps one sql.js database behind
    a promise, [dbPromise], and saves it to a file after every write.
    The tables that the orchestrator uses: tasks with the primary key
    [id], executions with the primary key [jobId], and logs with the
    primary key [id], whose rows are kept in the order of their
    insertion. *)
Record Tables : Type := mkTables
  { tasks : gmap string TaskRow;
    executions : gmap string ExecRow;
    log_rows : list LogRow }.

(** The statements of the three writing methods, with the row that
    the caller has passed. *)
Inductive Statement : Type :=
| InsertOrReplaceTask (row : TaskRow)
| InsertOrReplaceExecution (row : ExecRow)
| InsertLog (row : LogRow).

(** [x || null], for a number and for a text. *)
Definition or_null (x : option Z) : option Z :=
  match x with
  | Some n => if (n =? 0)%Z then None else Some n
  | None => None
  end.
Definition or_null_text (x : option string) : option string :=
  match x with
  | Some t => if String.eqb t "" then None else Some t
  | None => None
  end.

(** The values that the methods bind to their statements. *)
Definition bound_task (row : TaskRow) : TaskRow :=
  mkTaskRow (t_id row) (t_name row) (t_target row) (t_aiModel row) (t_priority row)
    (or_null (t_scheduledAt row)) (t_createdAt row).
Definition bound_execution (row : ExecRow) : ExecRow :=
  mkExecRow (r_jobId row) (r_taskId row) (r_status row) (r_progress row)
    (r_currentStage row) (or_null (r_startedAt row)) (or_null (r_completedAt row))
    (or_null_text (r_error row)).

(** [stmt.run]: INSERT OR REPLACE puts the row in the place of the one
    with its key; INSERT fails on a row whose [id] the table has, and
    the table stays as it is (the orchestrator awaits no call of
    [appendLog], so the rejection reaches no caller).  The columns
    declared NOT NULL are those for which the rows of this model always
    carry a value. *)
Definition run_statement (tb : Tables) (st : Statement) : Tables :=
  match st with
  | InsertOrReplaceTask row =>
      mkTables (<[t_id row := bound_task row]> (tasks tb)) (executions tb) (log_rows tb)
  | InsertOrReplaceExecution row =>
      mkTables (tasks tb) (<[r_jobId row := bound_execution row]> (executions tb))
        (log_rows tb)
  | InsertLog row =>
      if bool_decide (l_id row ∈ map l_id (log_rows tb)) then tb
      else mkTables (tasks tb) (executions tb) (log_rows tb ++ [row])
  end.

(** Every method of the class is [async] and starts with
    [await this.dbPromise]; after that it runs its statement at once
    (sql.js works synchronously) and, for a write, saves the file.  A
    call therefore leaves the database as it is while its caller runs
    on: the statement waits, behind the statements of the calls made
    before it, for its turn after the promise.  [waiting] lists the
    statements that wait, in the order of the calls; they have run when
    a caller resumes from the [await] of a call, and a reading method,
    which waits for the same promise, answers after them.

    The two reading methods that take a job id put it between quotes
    into the text of a SELECT statement.  For an id that holds a quote
    (or the character NUL, where sql.js ends the text) the statement is
    another one; [broken_execution] and [broken_logs] are what the
    database then answers or throws, given the text and the tables, as
    far as the answer has the columns of the table. *)
Record Db : Type := mkDb
  { tables : Tables;
    waiting : list Statement;
    broken_execution : string -> Tables -> option ExecRow + string;
    broken_logs : string -> Tables -> list LogRow + string }.

(** A call of a writing method. *)
Definition db_call (st : Statement) (d : Db) : Db :=
  mkDb (tables d) (waiting d ++ [st]) (broken_execution d) (broken_logs d).

Definition db_upsertTask (row : TaskRow) (d : Db) : Db :=
  db_call (InsertOrReplaceTask row) d.
Definition db_upsertExecution (row : ExecRow) (d : Db) : Db :=
  db_call (InsertOrReplaceExecution row) d.
Definition db_appendLog (row : LogRow) (d : Db) : Db :=
  db_call (InsertLog row) d.

(** The tables once the statements that wait have run, and the
    database then. *)
Definition settled (d : Db) : Tables := foldl run_statement (tables d) (waiting d).
Definition run_waiting (d : Db) : Db :=
  mkDb (settled d) [] (broken_execution d) (broken_logs d).

(** The texts of the two SELECT statements. *)
Definition select_execution (jobId : string) : string :=
  "SELECT * FROM executions WHERE jobId='" +:+ jobId +:+ "' LIMIT 1".
Definition select_logs (jobId : string) : string :=
  "SELECT * FROM logs WHERE jobId='" +:+ jobId +:+ "' ORDER BY ts ASC".

(** A text that stays a text between the quotes of a statement. *)
Definition literal (text : string) : bool :=
  forallb (fun c => negb (Ascii.eqb c "'" || Ascii.eqb c "000"))
    (String.list_ascii_of_string text).

(** ORDER BY ts ASC: rows of the same [ts] stay in the order of their
    insertion. *)
Fixpoint insert_by_ts (row : LogRow) (sorted : list LogRow) : list LogRow :=
  match sorted with
  | [] => [row]
  | x :: rest =>
      if (l_ts row <? l_ts x)%Z then row :: x :: rest
      else x :: insert_by_ts row rest
  end.
Definition sort_by_ts (rows : list LogRow) : list LogRow :=
  foldl (fun sorted row => insert_by_ts row sorted) [] rows.

(** What the tables hold of a job: its row, and its log rows in the
    order of [ts]. *)
Definition stored_execution (jobId : string) (d : Db) : option ExecRow :=
  executions (settled d) !! jobId.
Definition stored_logs (jobId : string) (d : Db) : list LogRow :=
  sort_by_ts (filter (fun l => l_jobId l = jobId) (log_rows (settled d))).

(** [getExecution] and [getLogs]: the answer, or the message of what
    the method throws. *)
Definition db_getExecution (jobId : string) (d : Db) : option ExecRow + string :=
  if literal jobId then inl (stored_execution jobId d)
  else broken_execution d (select_execution jobId) (settled d).
Definition db_getLogs (jobId : string) (d : Db) : list LogRow + string :=
  if literal jobId then inl (stored_logs jobId d)
  else broken_logs d (select_logs jobId) (settled d).

(** *** The queue backend

    The queue is a queue of Bull, the library that the orchestrator
    imports; it is modelled by what the orchestrator calls: [add] and
    [getJob] on the queue, [remove] on a job.  Bull files a job that is
    added without a [jobId] option, as [createTask] adds every job,
    under the next value of the counter of the queue: 1, 2, 3, ...  A
    job of Bull has no method [pause] and no method [resume] (those are
    methods of the queue).  Every call rejects while the backend is
    unreachable. *)
Record JobData : Type := mkJobData
  { d_jobId : string;
    d_taskConfig : TaskConfig }.

Record QueueJob : Type := mkQueueJob
  { q_data : JobData;
    q_priority : Z;
    q_delay : Z }.

Record Queue : Type := mkQueue
  { available : bool;
    issued : nat;
    jobs : gmap string QueueJob }.

(** *** The orchestrator's world *)
Record Store : Type := mkStore
  { activeExecutions : gmap string TaskExecution;
    db : Db;
    taskQueue : Queue;
    immediates : list JobData;   (* callbacks given to setImmediate *)
    clock : Z;                   (* Date.now() *)
    drawn : nat }.               (* uuids drawn so far *)

Definition set_activeExecutions (x : gmap string TaskExecution) (s : Store) : Store :=
  mkStore x (db s) (taskQueue s) (immediates s) (clock s) (drawn s).
Definition set_db (x : Db) (s : Store) : Store :=
  mkStore (activeExecutions s) x (taskQueue s) (immediates s) (clock s) (drawn s).
Definition set_taskQueue (x : Queue) (s : Store) : Store :=
  mkStore (activeExecutions s) (db s) x (immediates s) (clock s) (drawn s).
Definition set_immediates (x : list JobData) (s : Store) : Store :=
  mkStore (activeExecutions s) (db s) (taskQueue s) x (clock s) (drawn s).
Definition set_drawn (x : nat) (s : Store) : Store :=
  mkStore (activeExecutions s) (db s) (taskQueue s) (immediates s) (clock s) x.

(** *** Asynchronous computations

    A computation transforms the store, returns or throws, and lists
    the stores it passed through at its suspension points ([await]):
    the states that a query arriving meanwhile can observe. *)
Inductive Outcome (A : Type) : Type :=
| Return (a : A)
| Throw (message : string).
Arguments Return {A} a.
Arguments Throw {A} message.

Record Run (A : Type) : Type := mkRun
  { outcome : Outcome A;
    final : Store;
    seen : list Store }.
Arguments mkRun {A} _ _ _.
Arguments outcome {A} _.
Arguments final {A} _.
Arguments seen {A} _.

Definition M (A : Type) : Type := Store -> Run A.

Definition ret {A} (a : A) : M A := fun s => mkRun (Return a) s [].
Definition throw {A} (message : string) : M A := fun s => mkRun (Throw message) s [].
Definition bind {A B} (m : M A) (k : A -> M B) : M B := fun s =>
  let r := m s in
  match outcome r with
  | Return a =>
      let r' := k a (final r) in
      mkRun (outcome r') (final r') (seen r ++ seen r')
  | Throw message => mkRun (Throw message) (final r) (seen r)
  end.
Definition try_catch {A} (m : M A) (handler : string -> M A) : M A := fun s =>
  let r := m s in
  match outcome r with
  | Return a => r
  | Throw message =>
      let r' := handler message (final r) in
      mkRun (outcome r') (final r') (seen r ++ seen r')
  end.
Definition await : M unit := fun s => mkRun (Return tt) s [s].
Definition gets {A} (f : Store -> A) : M A := fun s => mkRun (Return (f s)) s [].
Definition modify (f : Store -> Store) : M unit := fun s => mkRun (Return tt) (f s) [].

Declare Scope async_scope.
Delimit Scope async_scope with async.
Notation "'let!' x ':=' m 'in' k" := (bind m (fun x => k))
  (at level 10, x name, m at level 100, k at level 200) : async_scope.
Notation "'do!' m 'in' k" := (bind m (fun _ => k))
  (at level 10, m at level 100, k at level 200) : async_scope.
Open Scope async_scope.

Definition now : M Z := gets clock.

(** [execution.<property> = ...] through the reference the map holds. *)
Definition mutate (j : string) (f : TaskExecution -> TaskExecution) : M unit :=
  modify (fun s => set_activeExecutions (alter f j (activeExecutions s)) s).

(** Reading a property through the reference [execution] taken at the
    start of [executeTask]: the object is the map's entry for the job
    id, and no operation removes an entry. *)
Definition read {A} (j : string) (f : TaskExecution -> A) : M A := fun s =>
  match activeExecutions s !! j with
  | Some e => mkRun (Return (f e)) s []
  | None => mkRun (Throw "Task execution not found") s []
  end.

(** The calls [this.db.upsertTask(row)], [this.db.upsertExecution(row)]
    and [this.db.appendLog(row)]. *)
Definition upsertTask (row : TaskRow) : M unit :=
  modify (fun s => set_db (db_upsertTask row (db s)) s).
Definition upsertExecution (row : ExecRow) : M unit :=
  modify (fun s => set_db (db_upsertExecution row (db s)) s).
Definition appendLog (row : LogRow) : M unit :=
  modify (fun s => set_db (db_appendLog row (db s)) s).

(** The [await] of a call of a method of the database: the caller
    suspends, and when it resumes the statements that waited have
    run. *)
Definition awaited : M unit :=
  do! await in modify (fun s => set_db (run_waiting (db s)) s).

(** [await this.db.getExecution(jobId)] and [await this.db.getLogs(jobId)]. *)
Definition db_read {A} (method : Db -> A + string) : M A :=
  do! awaited in
  fun s =>
    match method (db s) with
    | inl answer => mkRun (Return answer) s []
    | inr message => mkRun (Throw message) s []
    end.

Definition queue_unreachable : string := "connect ECONNREFUSED".

Definition queue_getJob (j : string) : M (option QueueJob) := fun s =>
  if available (taskQueue s)
  then mkRun (Return (jobs (taskQueue s) !! j)) s []
  else mkRun (Throw queue_unreachable) s [s].

Definition queue_alter (f : gmap string QueueJob -> gmap string QueueJob) : M unit :=
  fun s =>
    if available (taskQueue s)
    then mkRun (Return tt)
           (set_taskQueue (mkQueue true (issued (taskQueue s)) (f (jobs (taskQueue s)))) s)
           []
    else mkRun (Throw queue_unreachable) s [s].

(** The message of the TypeError for the call of a method that a job
    of the queue does not have, and the two calls. *)
Definition not_a_job_method (method : string) : string :=
  "job." +:+ method +:+ " is not a function".
Definition job_pause : M unit := throw (not_a_job_method "pause").
Definition job_resume : M unit := throw (not_a_job_method "resume").

(** Text of the TypeError for [undefined.getTime()]. *)
Definition TypeError_getTime : string :=
  "Cannot read properties of undefined (reading 'getTime')".

Record Summary : Type := mkSummary
  { totalVulnerabilities : Z;
    critical : Z;
    high : Z;
    medium : Z;
    low : Z }.

Record Report : Type := mkReport
  { rp_taskId : string;
    rp_taskName : string;
    rp_target : string;
    rp_executionTime : Z;
    rp_vulnerabilities : list Vulnerability;
    rp_results : list JsValue;
    rp_summary : Summary;
    rp_generatedAt : Z }.

Record TaskOutcome : Type := mkTaskOutcome
  { o_success : bool;
    o_taskId : string;
    o_jobId : string;
    o_results : list JsValue;
    o_vulnerabilities : list Vulnerability;
    o_report : Report;
    o_executionTime : Z }.

Inductive ChainOutcome : Type :=
| ChainThrew (message : string)
| ChainReturned (success : bool) (results : list JsValue)
                (vulnerabilities : list Vulnerability).

Inductive PocOutcome : Type :=
| PocThrew (message : string)
| PocReturned (r : POCManager.POCResult).

Definition count_severity (sev : string) (l : list Vulnerability) : Z :=
  Z.of_nat (length (filter (fun v => v_severity v = sev) l)).

(** [x ? new Date(x) : undefined] on a stored epoch: [0] is falsy. *)
Definition date_of (x : option Z) : option Z :=
  match x with
  | Some t => if (t =? 0)%Z then None else Some t
  | None => None
  end.

Definition getTaskStatus (j : string) : M (option TaskExecution) :=
  let! inMem := gets (fun s => activeExecutions s !! j) in
  match inMem with
  | Some e => ret (Some e)
  | None =>
      let! found := db_read (db_getExecution j) in
      match found with
      | None => ret None
      | Some row =>
          let! logsRows := db_read (db_getLogs j) in
          ret (Some (mkTaskExecution (r_jobId row) (r_taskId row) (r_status row)
                       (r_progress row) (r_currentStage row) [] []
                       (map l_message logsRows)
                       (date_of (r_startedAt row)) (date_of (r_completedAt row))
                       (r_error row)))
      end
  end.

(** The execution that [getTaskStatus] shows in store [s], when it
    shows one. *)
Definition lookup_status (j : string) (s : Store) : option TaskExecution :=
  match outcome (getTaskStatus j s) with
  | Return shown => shown
  | Throw _ => None
  end.

Section Orchestrator.

(** [uuidv4()], by the number of the draw. *)
Variable uuid : nat -> string.
(** [llmService.initialize]: [Some message] when it throws. *)
Variable llm_initialize : TaskConfig -> option string.
(** [pentestEngine.executeChain] *)
Variable executeChain : TaskConfig -> ChainOutcome.
(** [pocManager.generatePOCCode] followed by [pocManager.executePOC]:
    the first throws, or it returns and the second, which catches what
    its steps throw, resolves to a result. *)
Variable runPOC : TaskConfig -> Vulnerability -> PocOutcome.

Definition uuidv4 : M string := fun s =>
  mkRun (Return (uuid (drawn s))) (set_drawn (S (drawn s)) s) [].

(** [this.db.appendLog({ id: uuidv4(), jobId, message, ts: Date.now() })] *)
Definition log_to_db (j message : string) : M unit :=
  let! i := uuidv4 in
  let! t := now in
  appendLog (mkLogRow i j message t).

Definition updateExecutionProgress (j : string) (p : Z) (stage : string) : M unit :=
  let! found := gets (fun s => activeExecutions s !! j) in
  match found with
  | Some _ =>
      do! mutate j (fun e => set_currentStage stage (set_progress p e)) in
      let line := "INFO: " +:+ stage +:+ " - " +:+ pretty p +:+ "%" in
      do! mutate j (push_log line) in
      do! log_to_db j line in
      let! e := read j (fun e => e) in
      upsertExecution
        (mkExecRow j (taskId e) (status e) p stage (startedAt e) (completedAt e)
           (error e))
  | None => ret tt
  end.

Definition updateExecutionStatus (j : string) (st : Status) (p : Z) (stage : string)
  : M unit :=
  mutate j (fun e => set_currentStage stage (set_progress p (set_status st e))).

Definition initializeAIService (cfg : TaskConfig) : M unit :=
  match llm_initialize cfg with
  | Some message => throw message
  | None => ret tt
  end.

(** The body of the loop over the findings.  The id of the job for the
    sandbox is drawn between the two calls of the sandbox. *)
Definition verify_one (cfg : TaskConfig) (j : string) (v : Vulnerability)
  : M Vulnerability :=
  match runPOC cfg v with
  | PocReturned r =>
      do! await in
      let! pocId := uuidv4 in
      do! await in
      if POCManager.vulnerabilityConfirmed r then
        let line := "INFO: 漏洞 " +:+ v_title v +:+ " POC验证成功" in
        do! mutate j (push_log line) in
        do! log_to_db j line in
        ret (mkVulnerability (v_id v) (v_type v) (v_title v) (v_severity v)
               true (Some r))
      else ret v
  | PocThrew _ => do! await in ret v
  end.

Fixpoint verify_all (cfg : TaskConfig) (j : string) (l : list Vulnerability)
  : M (list Vulnerability) :=
  match l with
  | [] => ret []
  | v :: rest =>
      let! v' := verify_one cfg j v in
      let! rest' := verify_all cfg j rest in
      ret (v' :: rest')
  end.

Definition executePentestChain (cfg : TaskConfig) (j : string)
  : M (list JsValue * list Vulnerability) :=
  do! mutate j (set_currentStage "执行渗透测试链") in
  do! mutate j (push_log "INFO: 开始执行渗透测试链") in
  do! log_to_db j "INFO: 开始执行渗透测试链" in
  match executeChain cfg with
  | ChainThrew message => do! await in throw message
  | ChainReturned success results vulns =>
      do! await in
      if negb success then throw "Pentest chain execution failed"
      else
        do! mutate j (push_log ("渗透测试链执行完成，发现 "
                                 +:+ pretty (Z.of_nat (length vulns))
                                 +:+ " 个漏洞")) in
        match vulns with
        | [] => ret (results, vulns)
        | _ :: _ =>
            do! mutate j (set_currentStage "POC漏洞验证") in
            do! updateExecutionProgress j 60 "POC漏洞验证" in
            do! await in
            let! vulns' := verify_all cfg j vulns in
            ret (results, vulns')
        end
  end.

Definition generateReport (cfg : TaskConfig) (j : string) : M Report :=
  do! mutate j (push_log "INFO: 生成渗透测试报告") in
  do! log_to_db j "INFO: 生成渗透测试报告" in
  let! e := read j (fun e => e) in
  match completedAt e, startedAt e with
  | None, _ => throw TypeError_getTime
  | Some _, None => throw TypeError_getTime
  | Some c, Some st =>
      let! t := now in
      ret (mkReport (id cfg) (name cfg) (target cfg) (c - st)
             (vulnerabilities e) (results e)
             (mkSummary (Z.of_nat (length (vulnerabilities e)))
                (count_severity "critical" (vulnerabilities e))
                (count_severity "high" (vulnerabilities e))
                (count_severity "medium" (vulnerabilities e))
                (count_severity "low" (vulnerabilities e)))
             t)
  end.

(** [executeTask], the processor of the queue and the body of the
    inline fallback. *)
Definition executeTask (data : JobData) : M TaskOutcome :=
  let j := d_jobId data in
  let taskConfig := d_taskConfig data in
  let! execution := gets (fun s => activeExecutions s !! j) in
  match execution with
  | None => throw "Task execution not found"
  | Some _ =>
      try_catch
        (let! t := now in
         do! mutate j (fun e =>
               set_currentStage "初始化AI服务"
                 (set_startedAt (Some t) (set_status running e))) in
         let! e := read j (fun e => e) in
         do! upsertExecution
               (mkExecRow j (id taskConfig) running (progress e) (currentStage e)
                  (startedAt e) None None) in
         do! awaited in
         let! t' := now in
         let! e := read j (fun e => e) in
         do! upsertExecution
               (mkExecRow j (id taskConfig) running (progress e) (currentStage e)
                  (Some t') None None) in
         do! awaited in
         (* 1. the AI service *)
         do! initializeAIService taskConfig in
         do! await in
         do! mutate j (fun e => set_currentStage "目标分析" (set_progress 10 e)) in
         do! updateExecutionProgress j 10 "目标分析" in
         do! await in
         (* 2. the chain *)
         let! chainResult := executePentestChain taskConfig j in
         do! mutate j (fun e =>
               set_currentStage "生成报告"
                 (set_progress 80
                    (set_vulnerabilities (snd chainResult)
                       (set_results (fst chainResult) e)))) in
         do! updateExecutionProgress j 80 "生成报告" in
         do! await in
         (* 3. the report *)
         let! report := generateReport taskConfig j in
         do! await in
         let! t3 := now in
         do! mutate j (fun e =>
               set_completedAt (Some t3)
                 (set_status completed
                    (set_currentStage "任务完成" (set_progress 100 e)))) in
         do! updateExecutionProgress j 100 "任务完成" in
         do! await in
         let! e := read j (fun e => e) in
         let done :=
           mkExecRow j (id taskConfig) completed 100 "任务完成"
             (startedAt e) (completedAt e) None in
         do! upsertExecution done in
         do! awaited in
         do! upsertExecution done in
         do! awaited in
         let! t4 := now in
         ret (mkTaskOutcome true (id taskConfig) j (fst chainResult)
                (snd chainResult) report (t4 - default 0 (startedAt e))))
        (fun message =>
           let! t := now in
           do! mutate j (fun e =>
                 push_log ("任务失败: " +:+ message)
                   (set_completedAt (Some t)
                      (set_error (Some message) (set_status failed e)))) in
           let! e := read j (fun e => e) in
           do! upsertExecution
                 (mkExecRow j (id taskConfig) failed (progress e) (currentStage e)
                    (startedAt e) (completedAt e) (Some message)) in
           do! awaited in
           throw message)
  end.

(** [taskQueue.add] without a [jobId] option: the job is filed under
    the next number; the call rejects while the backend is
    unreachable. *)
Definition queue_add (data : JobData) (prio delay : Z) : M unit := fun s =>
  let q := taskQueue s in
  if available q
  then mkRun (Return tt)
         (set_taskQueue
            (mkQueue true (S (issued q))
               (<[pretty (S (issued q)) := mkQueueJob data prio delay]> (jobs q)))
            s)
         [s]
  else mkRun (Throw queue_unreachable) s [s].

Definition setImmediate (data : JobData) : M unit :=
  modify (fun s => set_immediates (immediates s ++ [data]) s).

Definition createTask (taskConfig : TaskConfig) : M (string * string) :=
  let! j := uuidv4 in
  let execution :=
    mkTaskExecution j (id taskConfig) pending 0 "初始化中" [] [] [] None None None in
  do! log_to_db j ("INFO: 任务创建: " +:+ name taskConfig) in
  do! modify (fun s => set_activeExecutions (<[j := execution]> (activeExecutions s)) s) in
  let! t := now in
  do! upsertTask
        (mkTaskRow (id taskConfig) (name taskConfig) (target taskConfig)
           (aiModel taskConfig) (priority taskConfig) (scheduledAt taskConfig) t) in
  do! awaited in
  do! upsertExecution
        (mkExecRow j (id taskConfig) pending 0 "初始化中" None None None) in
  do! awaited in
  do! try_catch
        (let! t' := now in
         queue_add (mkJobData j taskConfig) (priority taskConfig)
           (match scheduledAt taskConfig with
            | Some at_ => at_ - t'
            | None => 0
            end))
        (fun _ => setImmediate (mkJobData j taskConfig)) in
  ret (id taskConfig, j).

(** The callback that the fallback of [createTask] gives to
    [setImmediate]. *)
Definition run_immediate (data : JobData) : M unit :=
  try_catch (do! executeTask data in ret tt) (fun _ => ret tt).

(** The worker of the task queue: the processor is [executeTask] on
    the job's data, and a job whose processor throws is run again
    until the attempts of [defaultJobOptions] are used up. *)
Definition attempts : nat := 3.

Fixpoint process_job (n : nat) (data : JobData) : M (option TaskOutcome) :=
  match n with
  | O => ret None
  | S n' =>
      try_catch
        (let! r := executeTask data in ret (Some r))
        (fun _ => process_job n' data)
  end.

(** [pauseTask] and [resumeTask].  The call [job.pause()], like
    [job.resume()], is the call of a method that a job does not have:
    it throws, the assignment of the status is not reached, and the
    [catch] returns false. *)
Definition pauseTask (j : string) : M bool :=
  try_catch
    (let! job := queue_getJob j in
     match job with
     | Some _ =>
         do! job_pause in
         do! await in
         do! mutate j (set_status paused) in
         ret true
     | None => ret false
     end)
    (fun _ => ret false).

Definition resumeTask (j : string) : M bool :=
  try_catch
    (let! job := queue_getJob j in
     match job with
     | Some _ =>
         do! job_resume in
         do! await in
         do! mutate j (set_status running) in
         ret true
     | None => ret false
     end)
    (fun _ => ret false).

Definition cancelTask (j : string) : M bool :=
  try_catch
    (let! job := queue_getJob j in
     match job with
     | Some _ =>
         do! queue_alter (delete j) in
         do! await in
         let! t := now in
         do! mutate j (fun e => set_completedAt (Some t) (set_status cancelled e)) in
         ret true
     | None => ret false
     end)
    (fun _ => ret false).

End Orchestrator.

(** *** Notions for the properties *)

(** The record that [createTask] writes for job [j] of task [t]. *)
Definition initial_execution (j t : string) : TaskExecution :=
  mkTaskExecution j t pending 0 "初始化中" [] [] [] None None None.

Section Tracked.

(** The job whose record is followed. *)
Variable j : string.





(** [triple P m Q]: started in a store where the job is tracked by a
    record that satisfies [P], the computation [m] ends with the job
    still tracked, and its outcome and the record then satisfy [Q]. *)
Definition triple {A} (P : TaskExecution -> Prop) (m : M A)
    (Q : Outcome A -> TaskExecution -> Prop) : Prop :=
  forall s e, activeExecutions s !! j = Some e -> P e ->
    exists e', activeExecutions (final (m s)) !! j = Some e' /\
               Q (outcome (m s)) e'.

(** [m] returns, and takes a record with [P] to one with [P']. *)
Definition returns {A} (P P' : TaskExecution -> Prop) (m : M A) : Prop :=
  triple P m (fun o e => (exists a, o = Return a) /\ P' e).

(** [m] throws [message], and takes a record with [P] to one with [P']. *)
Definition throws {A} (message : string) (P P' : TaskExecution -> Prop) (m : M A)
  : Prop :=
  triple P m (fun o e => o = Throw message /\ P' e).

End Tracked.

(** The progress of job [j] as [getTaskStatus] shows it in each of the
    stores [l], in order. *)
Fixpoint visible_progress (j : string) (l : list Store) : list Z :=
  match l with
  | [] => []
  | s :: rest =>
      match lookup_status j s with
      | Some e => progress e :: visible_progress j rest
      | None => visible_progress j rest
      end
  end.


(** A record is unfinished while it has no completion time: so it is
    from [createTask] until a run of [executeTask] ends. *)
Definition unfinished (e : TaskExecution) : Prop := completedAt e = None.
Definition unfinished_at (p : Z) (e : TaskExecution) : Prop :=
  completedAt e = None /\ progress e = p.

(** *** The list of all tasks *)

(** The execution that [getAllTasks] makes of a stored row. *)
Definition execution_of_row (r : ExecRow) : TaskExecution :=
  mkTaskExecution (r_jobId r) (r_taskId r) (r_status r) (r_progress r)
    (r_currentStage r) [] [] [] (date_of (r_startedAt r)) (date_of (r_completedAt r))
    (r_error r).

(** The body of the loop over the executions in memory:
    [list.findIndex(x => x.jobId === e.jobId)], then the assignment at
    the index found or else the [push]. *)
Definition put_execution (l : list TaskExecution) (e : TaskExecution)
  : list TaskExecution :=
  match list_find (fun x => jobId x = jobId e) l with
  | Some (idx, _) => <[idx := e]> l
  | None => l ++ [e]
  end.

(** [getAllTasks].  [rows] is what [db.getExecutions()] resolves to
    and [actives] the values of the map of executions, in its order. *)
Definition getAllTasks (rows : list ExecRow) (actives : list TaskExecution)
  : list TaskExecution :=
  foldl put_execution (map execution_of_row rows) actives.

(** *** Further notions for the properties *)

(** The server process started anew on the file of the database, as
    the statements called so far have left it, and on the queue
    backend: nothing is in memory. *)
Definition after_restart (s : Store) : Store :=
  mkStore ∅ (run_waiting (db s)) (taskQueue s) [] (clock s) (drawn s).

(** What the store holds of job [k]: the record in memory, the stored
    row and the stored log lines. *)
Definition kept (k : string) (s : Store)
  : option TaskExecution * option ExecRow * list LogRow :=
  (activeExecutions s !! k, stored_execution k (db s), stored_logs k (db s)).

(** The same, with the queue and the callbacks handed to
    [setImmediate]. *)
Definition surroundings (k : string) (s : Store)
  : option TaskExecution * option ExecRow * list LogRow * Queue * list JobData :=
  (kept k s, taskQueue s, immediates s).

(** [untouched view m]: the computation [m] leaves the [view] of the
    store as it is, at each suspension point and at the end. *)
Definition untouched {A X} (view : Store -> X) (m : M A) : Prop :=
  forall s, Forall (fun s' => view s' = view s) (seen (m s)) /\
            view (final (m s)) = view s.

(** [hoare I P m Q E]: started in a store with [P], the computation
    [m] passes only suspension points with [I], and ends with [Q] on
    what it returns or with [E] on the message it throws. *)
Definition hoare {A} (I P : Store -> Prop) (m : M A) (Q : A -> Store -> Prop)
    (E : string -> Store -> Prop) : Prop :=
  forall s, P s ->
    Forall I (seen (m s)) /\
    match outcome (m s) with
    | Return a => Q a (final (m s))
    | Throw message => E message (final (m s))
    end.

(** A property of the record in memory and the stored row of job [j]. *)
Definition at_job (j : string)
    (R : option TaskExecution -> option ExecRow -> Prop) (s : Store) : Prop :=
  R (activeExecutions s !! j) (stored_execution j (db s)).

(** The job has a record in memory, and the record satisfies [holds]. *)
Definition in_memory (holds : TaskExecution -> Prop)
    (oe : option TaskExecution) (_ : option ExecRow) : Prop :=
  exists e, oe = Some e /\ holds e.

(** Moreover the stored row has the status and the progress of the
    record. *)
Definition in_step (holds : TaskExecution -> Prop)
    (oe : option TaskExecution) (orow : option ExecRow) : Prop :=
  exists e row,
    oe = Some e /\ orow = Some row /\ holds e /\
    r_status row = status e /\ r_progress row = progress e.

Definition any_record (_ : TaskExecution) : Prop := True.

(** A text that is a number in decimal digits, and a queue whose jobs
    are all filed under such texts, as [add] files them. *)
Definition is_digit (c : ascii) : bool :=
  (48 <=? N_of_ascii c)%N && (N_of_ascii c <=? 57)%N.
Definition is_number (k : string) : bool :=
  negb (String.eqb k "") && forallb is_digit (String.list_ascii_of_string k).
Definition numbered (q : Queue) : Prop :=
  map_Forall (fun k (_ : QueueJob) => is_number k = true) (jobs q).

(** A record left by an earlier run: it has a completion time. *)
Definition finished (e : TaskExecution) : Prop := is_Some (completedAt e).
Definition finished_and_started (e : TaskExecution) : Prop :=
  is_Some (completedAt e) /\ is_Some (startedAt e).

End TaskManager.

(** ** A submission followed through the orchestrator *)

Module Scenario.

Import TaskManager.

Definition uuid (n : nat) : string := "uuid-" +:+ pretty n.

Definition t1 : TaskConfig :=
  mkTaskConfig "task_1" "t1" "example.com" openai
    (mkAiModelConfig "" "gpt-4" (Some 2048)) ["nmap"]
    (mkStrategy fast 1 ["example.com"]) "anonymous" 3 None.

(** Collaborators that succeed: the AI service initialises, the chain
    returns one finding, and its verification confirms it. *)
Definition initialised (_ : TaskConfig) : option string := None.
Definition finding : Vulnerability :=
  mkVulnerability "v1" "xss" "reflected xss" "high" false None.
Definition chain_ok (_ : TaskConfig) : ChainOutcome :=
  ChainReturned true [JStr "scan"] [finding].
Definition poc_confirms (_ : TaskConfig) (_ : Vulnerability) : PocOutcome :=
  PocReturned (POCManager.mkPOCResult true true "[!] XSS" None 5 80).

(** A database that refuses every statement whose text a job id has
    broken, without tables yet. *)
Definition syntax_error {A} (_ : string) (_ : Tables) : A + string :=
  inr "unrecognized token".
Definition empty_db : Db := mkDb (mkTables ∅ ∅ []) [] syntax_error syntax_error.

(** A server just started, with the queue reachable. *)
Definition started : Store := mkStore ∅ empty_db (mkQueue true 0 ∅) [] 1000 0.

Definition job : JobData := mkJobData "uuid-0" t1.

(** The submission, the first run of the job, and the run the queue
    starts after the first has thrown. *)
Definition created : Run (string * string) := createTask uuid t1 started.
Definition first : Run TaskOutcome :=
  executeTask uuid initialised chain_ok poc_confirms job (final created).
Definition retry : Run TaskOutcome :=
  executeTask uuid initialised chain_ok poc_confirms job (final first).

(** The same, as the worker of the queue does it. *)
Definition worked : Run (option TaskOutcome) :=
  process_job uuid initialised chain_ok poc_confirms attempts job (final created).

(** The store at the fourth suspension point of the first run. *)
Definition midway : Store := nth 3 (seen first) started.
Definition midway_execution : TaskExecution :=
  default (initial_execution "" "") (lookup_status "uuid-0" midway).

(** A new server process on the persistent store left by the first run. *)
Definition restarted : Store :=
  mkStore ∅ (db (final first)) (mkQueue true 0 ∅) [] 2000 0.

(** The job id [x' OR '1'='1], and a database that answers the two
    SELECT statements made of it as the engine does: the condition
    holds of every row, so the first row of the table of executions,
    and every row of the table of logs, is the answer.  (The table of
    executions holds one row where this is used.) *)
Definition any_job : string := "x' OR '1'='1".
Definition first_execution (text : string) (tb : Tables) : option ExecRow + string :=
  if String.eqb text "SELECT * FROM executions WHERE jobId='x' OR '1'='1' LIMIT 1"
  then inl (snd <$> head (map_to_list (executions tb)))
  else inr "unrecognized token".
Definition all_logs (text : string) (tb : Tables) : list LogRow + string :=
  if String.eqb text "SELECT * FROM logs WHERE jobId='x' OR '1'='1' ORDER BY ts ASC"
  then inl (sort_by_ts (log_rows tb))
  else inr "unrecognized token".

(** A new server process on the tables left by the first run, with
    that database. *)
Definition restarted_open : Store :=
  mkStore ∅ (mkDb (settled (db (final first))) [] first_execution all_logs)
    (mkQueue true 0 ∅) [] 2000 0.

(** A second submission of the same task, and the first run of the
    first job on the store that holds both jobs. *)
Definition created_twice : Run (string * string) :=
  createTask uuid t1 (final created).
Definition first_beside : Run TaskOutcome :=
  executeTask uuid initialised chain_ok poc_confirms job (final created_twice).

(** Rows of the table of executions and records in memory, for the
    list of all tasks. *)
Definition sample_rows : list ExecRow :=
  [mkExecRow "uuid-0" "task_1" failed 80 "生成报告" (Some 1000) (Some 1000)
     (Some TypeError_getTime);
   mkExecRow "uuid-7" "task_0" completed 100 "任务完成" (Some 500) (Some 900) None].
Definition sample_actives : list TaskExecution :=
  [initial_execution "uuid-0" "task_1"; initial_execution "uuid-2" "task_1"].

End Scenario.

(** ** Regular expressions, as far as the task form uses them *)

Module Regex.

(** A character class is the list of its ranges, each given by the codes
    of its two ends. *)
Definition Class := list (N * N).

Definition range (lo hi : ascii) : N * N := (N_of_ascii lo, N_of_ascii hi).

Definition in_class (cls : Class) (c : ascii) : bool :=
  existsb (fun r => (fst r <=? N_of_ascii c)%N && (N_of_ascii c <=? snd r)%N) cls.

Inductive re : Type :=
| Void
| Eps
| Set_ (cls : Class)
| Seq (r1 r2 : re)
| Alt (r1 r2 : re)
| Star (r : re).

(** The forms of the source syntax: a character, [r?], [r+], [r{n}],
    [r{0,n}], [r{lo,hi}] and [r{lo,}]. *)
Definition Lit (c : ascii) : re := Set_ [range c c].
Definition Opt (r : re) : re := Alt r Eps.
Definition Plus (r : re) : re := Seq r (Star r).

Fixpoint Str (s : string) : re :=
  match s with
  | "" => Eps
  | String c rest => Seq (Lit c) (Str rest)
  end.

Fixpoint Times (n : nat) (r : re) : re :=
  match n with
  | O => Eps
  | S n => Seq r (Times n r)
  end.

Fixpoint Upto (n : nat) (r : re) : re :=
  match n with
  | O => Eps
  | S n => Opt (Seq r (Upto n r))
  end.

Definition Between (lo hi : nat) (r : re) : re := Seq (Times lo r) (Upto (hi - lo) r).
Definition AtLeast (lo : nat) (r : re) : re := Seq (Times lo r) (Star r).

(** [\d], and the dot: one character other than the four line
    terminators (LF, CR, U+2028, U+2029), read on its UTF-8 bytes.  A
    character outside the basic plane is two code units that each match
    the dot; it is taken whole here, which is the same under [+], the
    only place where the form uses the dot. *)
Definition digit : re := Set_ [range "0" "9"].

Definition cont : re := Set_ [(0x80, 0xBF)%N].

Definition Dot : re :=
  Alt (Set_ [(0x00, 0x09); (0x0B, 0x0C); (0x0E, 0x7F)]%N)
 (Alt (Seq (Set_ [(0xC2, 0xDF)%N]) cont)
 (Alt (Seq (Set_ [(0xE0, 0xE1); (0xE3, 0xEF)]%N) (Seq cont cont))
 (Alt (Seq (Set_ [(0xE2, 0xE2)%N])
           (Alt (Seq (Set_ [(0x81, 0xBF)%N]) cont)
                (Seq (Set_ [(0x80, 0x80)%N]) (Set_ [(0x80, 0xA7); (0xAA, 0xBF)]%N))))
      (Seq (Set_ [(0xF0, 0xF4)%N]) (Seq cont (Seq cont cont)))))).

(** Matching by derivatives. *)
Fixpoint nullable (r : re) : bool :=
  match r with
  | Void => false
  | Eps => true
  | Set_ _ => false
  | Seq r1 r2 => nullable r1 && nullable r2
  | Alt r1 r2 => nullable r1 || nullable r2
  | Star _ => true
  end.

Fixpoint deriv (c : ascii) (r : re) : re :=
  match r with
  | Void => Void
  | Eps => Void
  | Set_ cls => if in_class cls c then Eps else Void
  | Seq r1 r2 =>
      if nullable r1 then Alt (Seq (deriv c r1) r2) (deriv c r2)
      else Seq (deriv c r1) r2
  | Alt r1 r2 => Alt (deriv c r1) (deriv c r2)
  | Star r => Seq (deriv c r) (Star r)
  end.

(** [/^r$/.test(s)] *)
Fixpoint test_whole (r : re) (s : string) : bool :=
  match s with
  | "" => nullable r
  | String c rest => test_whole (deriv c r) rest
  end.

(** [/^r/.test(s)] *)
Fixpoint test_start (r : re) (s : string) : bool :=
  nullable r ||
  match s with
  | "" => false
  | String c rest => test_start (deriv c r) rest
  end.

(** The texts of a regular expression. *)
Inductive lang : re -> string -> Prop :=
| lang_eps : lang Eps ""
| lang_set cls c : in_class cls c = true -> lang (Set_ cls) (String c "")
| lang_seq r1 r2 s1 s2 : lang r1 s1 -> lang r2 s2 -> lang (Seq r1 r2) (s1 +:+ s2)
| lang_alt_l r1 r2 s : lang r1 s -> lang (Alt r1 r2) s
| lang_alt_r r1 r2 s : lang r2 s -> lang (Alt r1 r2) s
| lang_star_nil r : lang (Star r) ""
| lang_star_cons r s1 s2 : lang r s1 -> lang (Star r) s2 -> lang (Star r) (s1 +:+ s2).

(** Every character of a text is in a class. *)
Definition all_in (cls : Class) (s : string) : Prop :=
  Forall (fun c => in_class cls c = true) (String.list_ascii_of_string s).

End Regex.

(** ** The task creation page: the checks of the form

    [validateTarget] is what [handleSubmit] asks before it posts the
    form; [toggleTool] is the update that a click on a tool applies to
    the [tools] field. *)

Module TaskCreate.
Import Regex.

Definition alnum : Class := [range "a" "z"; range "A" "Z"; range "0" "9"].
Definition alnum_dash : Class := [range "a" "z"; range "A" "Z"; range "0" "9"; range "-" "-"].
Definition alpha : Class := [range "a" "z"; range "A" "Z"].

(** [\d+\.\d+\.\d+\.\d+] *)
Definition dotted_quad : re :=
  Seq (Plus digit) (Seq (Lit ".") (Seq (Plus digit) (Seq (Lit ".")
 (Seq (Plus digit) (Seq (Lit ".") (Plus digit)))))).

(** [/^\d+\.\d+\.\d+\.\d+(\/\d+)?$/] *)
Definition ip_re : re := Seq dotted_quad (Opt (Seq (Lit "/") (Plus digit))).

(** [/^[a-zA-Z0-9][a-zA-Z0-9-]{1,61}[a-zA-Z0-9]?\.[a-zA-Z]{2,}$/] *)
Definition domain_re : re :=
  Seq (Set_ alnum) (Seq (Between 1 61 (Set_ alnum_dash)) (Seq (Opt (Set_ alnum))
 (Seq (Lit ".") (AtLeast 2 (Set_ alpha))))).

(** [/^https?:\/\/.+/] *)
Definition url_re : re :=
  Seq (Str "http") (Seq (Opt (Lit "s")) (Seq (Str "://") (Plus Dot))).

(** [/^\d+\.\d+\.\d+\.\d+\/\d+$/] *)
Definition network_re : re := Seq dotted_quad (Seq (Lit "/") (Plus digit)).

Definition validateTarget (target type : string) : bool :=
  if String.eqb type "ip" then test_whole ip_re target
  else if String.eqb type "domain" then test_whole domain_re target
  else if String.eqb type "url" then test_start url_re target
  else if String.eqb type "network" then test_whole network_re target
  else false.

(** A run of decimal digits, and four of them joined by dots. *)
Definition number (s : string) : Prop := s <> "" /\ all_in [range "0" "9"] s.

Definition quad (a b c d : string) : string :=
  a +:+ "." +:+ b +:+ "." +:+ c +:+ "." +:+ d.

(** A character of the ASCII range other than LF and CR. *)
Definition on_one_line (c : ascii) : Prop :=
  (N_of_ascii c < 128)%N /\ c <> "010"%char /\ c <> "013"%char.

(** [toggleTool], on the [tools] field of the form data. *)
Definition toggleTool (toolId : string) (tools : list string) : list string :=
  if bool_decide (toolId ∈ tools)
  then filter (fun id => id <> toolId) tools
  else (tools ++ [toolId])%list.

End TaskCreate.

(** ** api/services/ai/LLMService.ts

    The three provider SDKs, [JSON.parse] and [JSON.stringify] are the
    variables of the section; each returns its value or the message of
    what it throws.  Numbers that are not integers are rationals.  The
    calls of the logger are left out. *)

Module LLMService.

Abbreviation Qc := Qcanon.Qc.

(** The number [n / d]. *)
Definition ratio (n : Z) (d : positive) : Qc := Qcanon.Q2Qc (QArith_base.Qmake n d).

#[local] Unset Elimination Schemes.
Inductive Json : Type :=
| JNull
| JBool (b : bool)
| JNumber (n : Qc)
| JString (s : string)
| JArray (items : list Json)
| JObject (fields : list (string * Json)).
#[local] Set Elimination Schemes.

(** [x || d] on a parsed value, [undefined] being [None]. *)
Definition truthy (v : Json) : bool :=
  match v with
  | JNull => false
  | JBool b => b
  | JNumber n => negb (bool_decide (n = ratio 0 1))
  | JString s => negb (String.eqb s "")
  | JArray _ | JObject _ => true
  end.

Definition or_else (v : option Json) (d : Json) : Json :=
  match v with
  | Some x => if truthy x then x else d
  | None => d
  end.

Fixpoint lookup_field (key : string) (fields : list (string * Json)) : option Json :=
  match fields with
  | [] => None
  | (k, v) :: rest => if String.eqb k key then Some v else lookup_field key rest
  end.

(** [v.key] for a value other than [null]; an object holds a key once. *)
Definition field (v : Json) (key : string) : option Json :=
  match v with
  | JObject fields => lookup_field key fields
  | _ => None
  end.

Definition or_Z (v : option Z) (d : Z) : Z :=
  match v with
  | Some n => if (n =? 0)%Z then d else n
  | None => d
  end.

Definition or_Qc (v : option Qc) (d : Qc) : Qc :=
  match v with
  | Some q => if bool_decide (q = ratio 0 1) then d else q
  | None => d
  end.

Definition or_text (v : option string) (d : string) : string :=
  match v with
  | Some s => if String.eqb s "" then d else s
  | None => d
  end.

Definition cannot_read (key : string) : string :=
  "Cannot read properties of undefined (reading '" +:+ key +:+ "')".

Record LLMConfig : Type := {
  provider : string;
  model : string;
  apiKey : string;
  maxTokens : option Z;
  temperature : option Qc;
  timeout : option Z
}.

Record Message : Type := { role : string; content : string }.

Record LLMRequest : Type := {
  messages : list Message;
  functions : option (list Json);
  r_maxTokens : option Z;
  r_temperature : option Qc
}.

Record Usage : Type := { promptTokens : Z; completionTokens : Z; totalTokens : Z }.

Record FunctionCall : Type := { fc_name : string; fc_arguments : Json }.

Record LLMResponse : Type := {
  r_id : string;
  r_content : string;
  r_functionCall : option FunctionCall;
  r_usage : Usage;
  r_model : string;
  r_timestamp : Z
}.

(** What goes to and comes from [chat.completions.create]. *)
Record ChatParams : Type := {
  cp_model : string;
  cp_messages : list Message;
  cp_max_tokens : Z;
  cp_temperature : Qc;
  cp_functions : option (list Json);
  cp_function_call : option string
}.

Record ChatMessage : Type := {
  cm_content : option string;
  cm_function_call : option (string * option string)
}.

Record Completion : Type := {
  c_id : string;
  c_choices : list ChatMessage;
  c_usage : option Usage;
  c_model : string
}.

(** What goes to and comes from [messages.create]. *)
Record MessageParams : Type := {
  mp_model : string;
  mp_max_tokens : Z;
  mp_temperature : Qc;
  mp_system : string;
  mp_messages : list Message
}.

Record ContentBlock : Type := { b_type : string; b_text : string }.

Record AnthropicMessage : Type := {
  a_id : string;
  a_content : list ContentBlock;
  a_input_tokens : Z;
  a_output_tokens : Z;
  a_model : string
}.

Record Analysis : Type := { analysis : Json; recommendations : Json; riskLevel : Json }.

Record PocCode : Type := { code : Json; language : Json; description : Json }.

(** The fields of a finding, as the template interpolates them. *)
Record Vulnerability : Type := {
  v_type : string;
  v_description : string;
  v_component : string;
  v_severity : string
}.

Section Sdk.

Variables OpenAI Anthropic GoogleGenerativeAI Any : Type.

(** [new OpenAI({ apiKey, timeout })], [new Anthropic({ apiKey, timeout })]
    and [new GoogleGenerativeAI(apiKey)]. *)
Variable new_OpenAI : string -> Z -> OpenAI + string.
Variable new_Anthropic : string -> Z -> Anthropic + string.
Variable new_GoogleGenerativeAI : string -> GoogleGenerativeAI + string.

Variable chat_completions_create : OpenAI -> ChatParams -> Completion + string.
Variable messages_create : Anthropic -> MessageParams -> AnthropicMessage + string.

(** [getGenerativeModel({ model }).generateContent(prompt)], up to the
    text of its response. *)
Variable generateContent : GoogleGenerativeAI -> string -> string -> string + string.

Variable JSON_parse : string -> Json + string.

(** The text that a template shows for [JSON.stringify(x, null, 2)]. *)
Variable JSON_stringify : Any -> string + string.

Variable OPENAI_API_KEY : option string.

Record Service : Type := {
  openai : option OpenAI;
  anthropic : option Anthropic;
  gemini : option GoogleGenerativeAI
}.

Definition fresh : Service := {| openai := None; anthropic := None; gemini := None |}.

(** The service after the call, and what the call throws. *)
Definition initialize (config : LLMConfig) (svc : Service) : Service * option string :=
  if String.eqb (provider config) "openai" then
    match new_OpenAI (apiKey config) (or_Z (timeout config) 30000) with
    | inl client =>
        ({| openai := Some client; anthropic := anthropic svc; gemini := gemini svc |}, None)
    | inr error => (svc, Some error)
    end
  else if String.eqb (provider config) "anthropic" then
    match new_Anthropic (apiKey config) (or_Z (timeout config) 30000) with
    | inl client =>
        ({| openai := openai svc; anthropic := Some client; gemini := gemini svc |}, None)
    | inr error => (svc, Some error)
    end
  else if String.eqb (provider config) "gemini" then
    match new_GoogleGenerativeAI (apiKey config) with
    | inl client =>
        ({| openai := openai svc; anthropic := anthropic svc; gemini := Some client |}, None)
    | inr error => (svc, Some error)
    end
  else (svc, Some ("Unsupported LLM provider: " +:+ provider config)).

Definition functionCall_of (message : ChatMessage) : option FunctionCall + string :=
  match cm_function_call message with
  | None => inl None
  | Some (name, arguments) =>
      match JSON_parse (or_text arguments "{}") with
      | inl parsed => inl (Some {| fc_name := name; fc_arguments := parsed |})
      | inr error => inr error
      end
  end.

Definition callOpenAI (svc : Service) (request : LLMRequest) (config : LLMConfig) (now : Z)
  : LLMResponse + string :=
  match openai svc with
  | None => inr "OpenAI client not initialized"
  | Some client =>
      match chat_completions_create client
              {| cp_model := model config;
                 cp_messages := messages request;
                 cp_max_tokens := or_Z (r_maxTokens request) (or_Z (maxTokens config) 2048);
                 cp_temperature :=
                   or_Qc (r_temperature request) (or_Qc (temperature config) (ratio 3 10));
                 cp_functions := functions request;
                 cp_function_call :=
                   match functions request with Some _ => Some "auto" | None => None end |}
      with
      | inr error => inr error
      | inl completion =>
          match c_choices completion with
          | [] => inr (cannot_read "message")
          | message :: _ =>
              match functionCall_of message with
              | inr error => inr error
              | inl call =>
                  inl {| r_id := c_id completion;
                         r_content := default "" (cm_content message);
                         r_functionCall := call;
                         r_usage := default {| promptTokens := 0; completionTokens := 0;
                                               totalTokens := 0 |} (c_usage completion);
                         r_model := c_model completion;
                         r_timestamp := now |}
              end
          end
      end
  end.

Definition is_system (m : Message) : bool := String.eqb (role m) "system".

Definition callAnthropic (svc : Service) (request : LLMRequest) (config : LLMConfig) (now : Z)
  : LLMResponse + string :=
  match anthropic svc with
  | None => inr "Anthropic client not initialized"
  | Some client =>
      match messages_create client
              {| mp_model := model config;
                 mp_max_tokens := or_Z (r_maxTokens request) (or_Z (maxTokens config) 2048);
                 mp_temperature :=
                   or_Qc (r_temperature request) (or_Qc (temperature config) (ratio 3 10));
                 mp_system := default "" (content <$> List.find is_system (messages request));
                 mp_messages := List.filter (fun m => negb (is_system m)) (messages request) |}
      with
      | inr error => inr error
      | inl response =>
          match a_content response with
          | [] => inr (cannot_read "type")
          | block :: _ =>
              inl {| r_id := a_id response;
                     r_content := if String.eqb (b_type block) "text" then b_text block else "";
                     r_functionCall := None;
                     r_usage := {| promptTokens := a_input_tokens response;
                                   completionTokens := a_output_tokens response;
                                   totalTokens := a_input_tokens response + a_output_tokens response |};
                     r_model := a_model response;
                     r_timestamp := now |}
          end
      end
  end.

Definition newline : string := String "010"%char "".

Definition callGemini (svc : Service) (request : LLMRequest) (config : LLMConfig)
    (uuid : string) (now : Z) : LLMResponse + string :=
  match gemini svc with
  | None => inr "Gemini client not initialized"
  | Some client =>
      match generateContent client (model config)
              (Js.join newline (map (fun m => role m +:+ ": " +:+ content m) (messages request)))
      with
      | inr error => inr error
      | inl text =>
          inl {| r_id := uuid;
                 r_content := text;
                 r_functionCall := None;
                 r_usage := {| promptTokens := 0; completionTokens := 0; totalTokens := 0 |};
                 r_model := model config;
                 r_timestamp := now |}
      end
  end.

Definition generateResponse (svc : Service) (request : LLMRequest) (config : LLMConfig)
    (uuid : string) (now : Z) : LLMResponse + string :=
  if String.eqb (provider config) "openai" then callOpenAI svc request config now
  else if String.eqb (provider config) "anthropic" then callAnthropic svc request config now
  else if String.eqb (provider config) "gemini" then callGemini svc request config uuid now
  else inr ("Unsupported LLM provider: " +:+ provider config).

(** Both helpers address the same provider and model. *)
Definition helper_config : LLMConfig :=
  {| provider := "openai"; model := "gpt-4"; apiKey := or_text OPENAI_API_KEY "";
     maxTokens := None; temperature := None; timeout := None |}.

Definition helper_request (system prompt : string) : LLMRequest :=
  {| messages := [ {| role := "system"; content := system |};
                   {| role := "user"; content := prompt |} ];
     functions := None;
     r_maxTokens := None;
     r_temperature := Some (ratio 3 10) |}.

Definition analysis_prompt (scanResults context : string) : string :=
  "
      作为一位专业的渗透测试专家，请分析以下扫描结果并提供专业的安全评估：
      
      扫描结果：" +:+ scanResults +:+ "
      
      目标上下文：" +:+ context +:+
  "
      
      请提供：
      1. 详细的安全分析
      2. 具体的修复建议
      3. 风险等级评估（low/medium/high/critical）
      
      请以JSON格式返回结果，包含analysis、recommendations和riskLevel字段。
    ".

Definition analyzePentestResults (svc : Service) (scanResults context : Any)
    (uuid : string) (now : Z) : Analysis + string :=
  match JSON_stringify scanResults with
  | inr error => inr error
  | inl scanText =>
      match JSON_stringify context with
      | inr error => inr error
      | inl contextText =>
          match generateResponse svc
                  (helper_request "你是一个专业的网络安全专家，具有丰富的渗透测试经验。"
                     (analysis_prompt scanText contextText))
                  helper_config uuid now
          with
          | inr error => inr error
          | inl response =>
              let fallback :=
                {| analysis := JString (r_content response);
                   recommendations := JArray [];
                   riskLevel := JString "medium" |} in
              match JSON_parse (r_content response) with
              | inr _ => inl fallback
              | inl JNull => inl fallback
              | inl result =>
                  inl {| analysis := or_else (field result "analysis") (JString "分析失败");
                         recommendations := or_else (field result "recommendations") (JArray []);
                         riskLevel := or_else (field result "riskLevel") (JString "medium") |}
              end
          end
      end
  end.

Definition poc_prompt (v : Vulnerability) : string :=
  "
      请为以下漏洞生成验证代码（POC）：
      
      漏洞类型：" +:+ v_type v +:+ "
      漏洞描述：" +:+ v_description v +:+ "
      影响组件：" +:+ v_component v +:+ "
      严重程度：" +:+ v_severity v +:+ "
      
      要求：
      1. 代码应该能够验证漏洞的存在
      2. 代码应该是安全的，不会造成破坏
      3. 包含必要的错误处理
      4. 提供详细的使用说明
      
      请以JSON格式返回结果，包含code、language和description字段。
    ".

Definition generatePocCode (svc : Service) (vulnerability : Vulnerability)
    (uuid : string) (now : Z) : PocCode + string :=
  match generateResponse svc
          (helper_request "你是一个专业的安全研究员，擅长编写漏洞验证代码。" (poc_prompt vulnerability))
          helper_config uuid now
  with
  | inr error => inr error
  | inl response =>
      let fallback :=
        {| code := JString (r_content response);
           language := JString "python";
           description := JString "POC代码生成失败" |} in
      match JSON_parse (r_content response) with
      | inr _ => inl fallback
      | inl JNull => inl fallback
      | inl result =>
          inl {| code := or_else (field result "code") (JString "");
                 language := or_else (field result "language") (JString "python");
                 description := or_else (field result "description") (JString "") |}
      end
  end.

Definition getHealthStatus (svc : Service) : string * (bool * bool * bool) :=
  ("healthy", (bool_decide (is_Some (openai svc)), bool_decide (is_Some (anthropic svc)),
               bool_decide (is_Some (gemini svc)))).

(** The service after a run of initialisations, failed ones included. *)
Definition initialized (configs : list LLMConfig) : Service :=
  foldl (fun svc config => fst (initialize config svc)) fresh configs.

End Sdk.

Arguments openai {_ _ _} _.
Arguments anthropic {_ _ _} _.
Arguments gemini {_ _ _} _.
Arguments fresh {_ _ _}.
Arguments initialize {_ _ _} _ _ _ _ _.
Arguments callOpenAI {_ _ _} _ _ _ _ _ _.
Arguments callAnthropic {_ _ _} _ _ _ _ _.
Arguments callGemini {_ _ _} _ _ _ _ _ _.
Arguments generateResponse {_ _ _} _ _ _ _ _ _ _ _ _.
Arguments analyzePentestResults {_ _ _ _} _ _ _ _ _ _ _ _ _ _ _.
Arguments generatePocCode {_ _ _} _ _ _ _ _ _ _ _ _.
Arguments getHealthStatus {_ _ _} _.
Arguments initialized {_ _ _} _ _ _ _.

(** Configurations as the task manager passes them for a Claude and for a
    Gemini model, and a finding. *)
Definition other_providers : list LLMConfig :=
  [ {| provider := "anthropic"; model := "claude-3-sonnet"; apiKey := "";
       maxTokens := Some 2048; temperature := Some (ratio 3 10); timeout := None |};
    {| provider := "gemini"; model := "gemini-pro"; apiKey := "";
       maxTokens := Some 2048; temperature := Some (ratio 3 10); timeout := None |} ].

Definition sample_vulnerability : Vulnerability :=
  {| v_type := "sql_injection"; v_description := "login form"; v_component := "/login";
     v_severity := "high" |}.

End LLMService.

(** * Properties *)

(** ** Strings *)

Module JsFacts.

Lemma startsWith_spec (s p : string) :
  Js.startsWith s p = true <-> exists post, s = p +:+ post.
Proof.
  revert s. induction p as [|c p IH]; intros s; simpl.
  - split; [intros _; by exists s | done].
  - destruct s as [|d s]; simpl.
    + split; [done | by intros [post Hpost]].
    + destruct (Ascii.eqb_spec c d) as [->|Hne]; simpl.
      * rewrite IH. split; intros [post Hpost]; exists post.
        -- by rewrite Hpost.
        -- by injection Hpost.
      * split; [done | intros [post Hpost]; by injection Hpost].
Qed.

(** [includes] is the substring test. *)
Lemma includes_spec (hay needle : string) :
  Js.includes hay needle = true <->
  exists pre post, hay = pre +:+ needle +:+ post.
Proof.
  induction hay as [|c hay IH]; simpl.
  - rewrite orb_false_r, startsWith_spec. split.
    + intros [post Hpost]. by exists "", post.
    + intros [pre [post Hpost]]. destruct pre; [by exists post | done].
  - rewrite orb_true_iff, startsWith_spec, IH. split.
    + intros [[post Hpost] | [pre [post Hpost]]].
      * by exists "", post.
      * exists (String c pre), post. simpl. by rewrite Hpost.
    + intros [pre [post Hpost]]. destruct pre as [|d pre]; simpl in Hpost.
      * left. by exists post.
      * right. exists pre, post. by injection Hpost.
Qed.

(** [test_class] holds when a character of the class occurs. *)
Lemma test_class_occurs (class : list ascii) (c : ascii) (s : string) :
  In c class -> In c (String.list_ascii_of_string s) -> Js.test_class class s = true.
Proof.
  intros Hclass. induction s as [|d s IH]; simpl; [done |].
  intros [-> | Hin].
  - apply orb_true_iff. left. apply existsb_exists. exists c.
    split; [done | apply Ascii.eqb_refl].
  - apply orb_true_iff. right. by apply IH.
Qed.

End JsFacts.

(** ** The tool invocation safety layer *)

Module ToolManagerFacts.

Import ToolManager.

Lemma metacharacter_dangerous (c : ascii) (arg : string) :
  metacharacter c -> occurs_in c arg -> is_dangerous arg = true.
Proof.
  intros Hc Hin. apply (JsFacts.test_class_occurs _ c); [| done].
  unfold dangerous. simpl. destruct Hc as [-> | [-> | [-> | [-> | ->]]]]; tauto.
Qed.

(** An argument list with an argument that has a metacharacter is
    refused: by that argument, or by an earlier one. *)
Lemma validateArgs_refuses (args allowed : list string) (arg : string) :
  In arg args -> is_dangerous arg = true ->
  valid (validateArgs args allowed) = false /\
  is_Some (v_error (validateArgs args allowed)).
Proof.
  induction args as [|a rest IH]; [done |].
  cbn [validateArgs In]. intros [-> | Hin] Hd.
  - rewrite Hd. simpl. eauto.
  - destruct (is_dangerous a); [simpl; eauto |].
    destruct (Js.startsWith a "-" && negb (allowed_flag allowed a)); [simpl; eauto |].
    by apply IH.
Qed.

Section Execute.

Context {ParsedData : Type}.
Variable parseOutput : string -> OutputFormat -> string -> ParsedData.
Variable execAsync : string -> Z -> ExecOutcome.

(** An invocation with an argument that the character test flags is
    refused before anything is launched. *)
Lemma executeTool_refuses (tools : gmap string ToolConfig) (t0 t1 : Z)
    (e : ToolExecution) (arg : string) :
  In arg (args e) -> is_dangerous arg = true ->
  let run := executeTool parseOutput execAsync tools t0 t1 e in
  success (fst run) = false /\ is_Some (error (fst run)) /\ snd run = [].
Proof.
  intros Hin Hd. unfold executeTool.
  destruct (tools !! toolName e) as [cfg|]; simpl; [| eauto].
  destruct (validateArgs_refuses (args e) (allowedArgs cfg) arg Hin Hd) as [Hv He].
  rewrite Hv. simpl. eauto.
Qed.

(** C1.  Whatever the tool name and the other arguments, when some
    argument contains one of the shell metacharacters ; & | ` $ the
    result of [executeTool] is unsuccessful, carries an error, and
    no process has been launched. *)
Theorem executeTool_rejects_metacharacters
    (tools : gmap string ToolConfig) (t0 t1 : Z) (e : ToolExecution)
    (arg : string) (c : ascii) :
  In arg (args e) -> metacharacter c -> occurs_in c arg ->
  let run := executeTool parseOutput execAsync tools t0 t1 e in
  success (fst run) = false /\ is_Some (error (fst run)) /\ snd run = [].
Proof.
  intros Hin Hc Hocc.
  apply (executeTool_refuses tools t0 t1 e arg Hin).
  by apply (metacharacter_dangerous c).
Qed.

(** An invocation that passes validation launches exactly one
    process, and launches it with [exec] on one command line. *)
Lemma executeTool_launch (tools : gmap string ToolConfig) (t0 t1 : Z)
    (e : ToolExecution) (cfg : ToolConfig) :
  tools !! toolName e = Some cfg ->
  valid (validateArgs (args e) (allowedArgs cfg)) = true ->
  snd (executeTool parseOutput execAsync tools t0 t1 e)
  = [Exec (buildCommand cfg e) (Js.or_number (timeout_override e) (timeout cfg))].
Proof.
  intros Htool Hvalid. unfold executeTool. rewrite Htool, Hvalid. simpl.
  by destruct (execAsync _ _).
Qed.

(** C2, as the code has it.  For an invocation that passes
    validation the one process launched is a shell ([exec]) given a
    single command line: the command name, the arguments joined by
    blanks, and the target, with a blank between the three. *)
Theorem executeTool_runs_one_command_line
    (tools : gmap string ToolConfig) (t0 t1 : Z) (e : ToolExecution)
    (cfg : ToolConfig) :
  tools !! toolName e = Some cfg ->
  valid (validateArgs (args e) (allowedArgs cfg)) = true ->
  exists line t,
    snd (executeTool parseOutput execAsync tools t0 t1 e) = [Exec line t] /\
    line = command cfg +:+ " " +:+ Js.join " " (args e) +:+ " " +:+ target e /\
    forall file argv t' cwd env,
      ~ In (Spawn file argv t' cwd env)
          (snd (executeTool parseOutput execAsync tools t0 t1 e)).
Proof.
  intros Htool Hvalid.
  exists (buildCommand cfg e), (Js.or_number (timeout_override e) (timeout cfg)).
  rewrite (executeTool_launch tools t0 t1 e cfg Htool Hvalid).
  split; [done |]. split; [done |].
  intros file argv t' cwd env [Heq | []]. discriminate Heq.
Qed.

End Execute.

(** C1 at nmap with the single argument "; rm -rf /". *)
Lemma executeTool_rejects_metacharacters_witness :
  let run := executeTool echo_parser quiet_shell initializeDefaultTools 0 1 nmap_rm_rf in
  success (fst run) = false /\ is_Some (error (fst run)) /\ snd run = [].
Proof.
  apply (executeTool_rejects_metacharacters echo_parser quiet_shell
           initializeDefaultTools 0 1 nmap_rm_rf "; rm -rf /" ";"%char).
  - simpl. tauto.
  - unfold metacharacter. tauto.
  - unfold occurs_in. simpl. tauto.
Defined.

(** The argument "; rm -rf /" is refused for each of the four tools
    configured at start-up, before or after any other arguments. *)
Lemma rm_rf_refused_for_default_tools (tool : string) (before after : list string)
    (tgt : string) (t : option Z) (t0 t1 : Z) :
  In tool ["nmap"; "sqlmap"; "nikto"; "dirb"] ->
  let run := executeTool echo_parser quiet_shell initializeDefaultTools t0 t1
               (mkToolExecution tool (before ++ "; rm -rf /" :: after) tgt t) in
  success (fst run) = false /\ is_Some (error (fst run)) /\ snd run = [].
Proof.
  intros _.
  apply (executeTool_refuses echo_parser quiet_shell _ _ _ _ "; rm -rf /").
  - simpl. apply in_or_app. right. by left.
  - reflexivity.
Qed.

(** C2, as claimed, fails: nmap with the allow-listed -sS passes
    validation and is started through the shell on the text
    "nmap -sS example.com", not as a file with an argument vector. *)
Lemma executeTool_not_vector_launch :
  valid (validateArgs (args nmap_sS) (allowedArgs nmap_config)) = true /\
  snd (executeTool echo_parser quiet_shell initializeDefaultTools 0 1 nmap_sS)
  = [Exec "nmap -sS example.com" 300000] /\
  ~ Forall (vector_launch nmap_config nmap_sS)
      (snd (executeTool echo_parser quiet_shell initializeDefaultTools 0 1 nmap_sS)).
Proof.
  split; [reflexivity |]. split; [reflexivity |].
  intros H. apply Forall_inv in H. destruct H as (t & cwd & env & H). discriminate H.
Qed.

(** C2 at nmap with the argument -sS and the target example.com. *)
Lemma executeTool_runs_one_command_line_witness :
  exists line t,
    snd (executeTool echo_parser quiet_shell initializeDefaultTools 0 1 nmap_sS)
    = [Exec line t] /\
    line = command nmap_config +:+ " " +:+ Js.join " " (args nmap_sS) +:+ " "
           +:+ target nmap_sS /\
    forall file argv t' cwd env,
      ~ In (Spawn file argv t' cwd env)
          (snd (executeTool echo_parser quiet_shell initializeDefaultTools 0 1 nmap_sS)).
Proof.
  apply (executeTool_runs_one_command_line echo_parser quiet_shell
           initializeDefaultTools 0 1 nmap_sS nmap_config); reflexivity.
Defined.

(** The target is not among the validated arguments: a target with
    metacharacters reaches the shell inside the command line. *)
Example target_reaches_the_shell :
  snd (executeTool echo_parser quiet_shell initializeDefaultTools 0 1
         (mkToolExecution "nmap" ["-sS"] "example.com; id" None))
  = [Exec "nmap -sS example.com; id" 300000].
Proof. reflexivity. Qed.

End ToolManagerFacts.

(** ** The verification sandbox *)

Module POCManagerFacts.

Import POCManager.

Lemma some_included_spec (vocab : list string) (stdout : string) :
  some_included vocab stdout = true <->
  exists token, In token vocab /\ contains stdout token.
Proof.
  unfold some_included. rewrite existsb_exists.
  split; intros [token [Hin Htok]]; exists token; split; try done;
    by apply JsFacts.includes_spec.
Qed.

Lemma vocabulary_silent (language : string) (vocab : list string) :
  vocabulary language = Some vocab -> some_included vocab "" = false.
Proof.
  unfold vocabulary.
  repeat match goal with
         | |- context [if ?b then _ else _] => destruct b
         end; intros H; by simplify_eq.
Qed.

Lemma settle_closed (analyze : string -> string -> bool) (code : option Z)
    (stdout stderr : string) (elapsed : Z) :
  let r := with_executionTime elapsed (settle analyze (Closed code stdout stderr)) in
  output r = stdout /\
  vulnerabilityConfirmed r = analyze stdout stderr /\
  reliabilityScore r = (if analyze stdout stderr then 80 else 20).
Proof. done. Qed.

Section Execute.

Variable path_join : string -> string -> string.
Variable pocStoragePath sandboxPath : string.
Variable spawn : ProcessLaunch -> ChildOutcome.
Variable writeFile_error : string -> option string.

Abbreviation run_executePOC :=
  (executePOC path_join pocStoragePath sandboxPath spawn writeFile_error).

(** The sibling path: for the language javascript, once the code file
    is written, the executor starts one child, node, and confirms
    exactly when the standard output of the child holds a token of the
    vocabulary; a confirmed result has reliability 80, another 20. *)
Lemma executePOC_javascript_confirms_by_stdout (fs : gmap string string) (t0 t1 : Z)
    (e : POCExecution) (code : option Z) (stdout stderr : string) :
  Js.toLowerCase (language e) = "javascript" ->
  writeFile_error (codeFilePath path_join pocStoragePath e) = None ->
  spawn (javascriptLaunch sandboxPath (codeFilePath path_join pocStoragePath e) e)
  = Closed code stdout stderr ->
  let r := fst (fst (run_executePOC fs t0 t1 e)) in
  snd (run_executePOC fs t0 t1 e)
  = [javascriptLaunch sandboxPath (codeFilePath path_join pocStoragePath e) e] /\
  output r = stdout /\
  (vulnerabilityConfirmed r = true <->
   exists token, In token javascript_indicators /\ contains stdout token) /\
  reliabilityScore r = (if vulnerabilityConfirmed r then 80 else 20).
Proof.
  intros Hlang Hwrite Hclosed. unfold executePOC. cbv zeta.
  rewrite Hwrite, Hlang. cbn [String.eqb Ascii.eqb Bool.eqb andb fst snd].
  unfold executeJavaScriptPOC, finish. rewrite Hclosed.
  destruct (settle_closed analyzeJavaScriptOutput code stdout stderr (t1 - t0))
    as (Hout & Hconf & Hscore).
  rewrite Hout, Hconf, Hscore. unfold analyzeJavaScriptOutput.
  rewrite <- some_included_spec. done.
Qed.

(** C9, as the code has it.  For a job whose language is python, bash
    or shell (in any letter case), once the code file is written, the
    runner throws while it builds the options of [spawn]: no child is
    started, and the result is the one of the [catch] of [executePOC],
    unsuccessful and not confirmed, with reliability 0, empty output
    and the message of the error, whatever the program of the job
    would print. *)
Theorem executePOC_python_and_shell_start_no_child (fs : gmap string string)
    (t0 t1 : Z) (e : POCExecution) :
  In (Js.toLowerCase (language e)) ["python"; "bash"; "shell"] ->
  writeFile_error (codeFilePath path_join pocStoragePath e) = None ->
  run_executePOC fs t0 t1 e
  = (mkPOCResult false false "" (Some process_before_initialization) (t1 - t0) 0,
     <[codeFilePath path_join pocStoragePath e := code e]> fs,
     []).
Proof.
  intros Hlang Hwrite. unfold executePOC. cbv zeta. rewrite Hwrite.
  destruct Hlang as [<- | [<- | [<- | []]]]; reflexivity.
Qed.

End Execute.

(** C9 at a Python stub whose program prints a line with the token
    [+]: the program is stored and never run. *)
Lemma executePOC_python_and_shell_start_no_child_witness :
  executePOC slash_join "poc-codes" "sandbox" stub_child no_write_error ∅ 0 5 stub_job
  = (mkPOCResult false false "" (Some process_before_initialization) 5 0,
     {[ "poc-codes/poc_p1.py" := "print('[+] found')" ]},
     []).
Proof.
  apply (executePOC_python_and_shell_start_no_child slash_join "poc-codes" "sandbox"
           stub_child no_write_error ∅ 0 5 stub_job).
  - vm_compute. left. reflexivity.
  - reflexivity.
Defined.

End POCManagerFacts.

(** ** Reports *)

Module ReportGeneratorFacts.

Import ReportGenerator.

Section Generate.

Context {ReportData : Type}.
Variable fill_template : string -> ReportData -> string.
Variable stringify : ReportData -> string.
Variable path_join : string -> string -> string.
Variable reportStoragePath templatePath : string.
Variable writeFile_error : string -> option string.

Abbreviation run_generateReport :=
  (generateReport fill_template stringify path_join reportStoragePath templatePath
     writeFile_error).

(** C8, as the code has it.  A request for format pdf is served: with
    the template readable and the write accepted, the result is a
    success without error, and the artifact, stored under a name
    ending in .pdf, is the text of the HTML report unchanged. *)
Theorem generateReport_pdf_stores_html (fs : gmap string string) (reportId : string)
    (now : Z) (cfg : ReportConfig) (d : ReportData) (template : string) :
  format cfg = "pdf" ->
  fs !! path_join templatePath "default.html" = Some template ->
  let path :=
    path_join reportStoragePath
      ("report_" +:+ reportId +:+ "_" +:+ pretty now +:+ ".pdf") in
  writeFile_error path = None ->
  let run := run_generateReport fs reportId now cfg d in
  success (fst run) = true /\ error (fst run) = None /\
  filePath (fst run) = path /\
  generateHTMLReport fill_template path_join templatePath fs d
  = inl (fill_template template d) /\
  snd run !! path = Some (fill_template template d).
Proof.
  intros Hfmt Htemplate path Hwrite. subst path.
  unfold generateReport, render, generateHTMLReport.
  rewrite Hfmt, Htemplate.
  change (String.eqb "pdf" "html") with false.
  change (String.eqb "pdf" "json") with false.
  change (String.eqb "pdf" "pdf") with true.
  cbv beta iota.
  change ("." +:+ "pdf") with ".pdf".
  rewrite Hwrite.
  cbn [fst snd success error filePath].
  by rewrite lookup_insert_eq.
Qed.

(** The message about an unsupported format is for the formats other
    than html, json and pdf. *)
Lemma generateReport_unsupported (fs : gmap string string) (reportId : string)
    (now : Z) (cfg : ReportConfig) (d : ReportData) :
  format cfg <> "html" -> format cfg <> "json" -> format cfg <> "pdf" ->
  run_generateReport fs reportId now cfg d
  = (failure reportId ("Unsupported report format: " +:+ format cfg), fs).
Proof.
  intros Hh Hj Hp. unfold generateReport, render.
  by rewrite (proj2 (String.eqb_neq _ _) Hh), (proj2 (String.eqb_neq _ _) Hj),
       (proj2 (String.eqb_neq _ _) Hp).
Qed.

End Generate.

(** C8, as claimed, fails: the request for a pdf is answered with a
    success and no error, and the file report_r1_1000.pdf holds the
    very text that the request for html stores in report_r1_1000.html. *)
Lemma generateReport_pdf_degrades_to_html :
  let pdf := generateReport append_data id slash_join "reports" "templates"
               no_write_error stored_template "r1" 1000 pdf_request "t1" in
  let html := generateReport append_data id slash_join "reports" "templates"
                no_write_error stored_template "r1" 1000 html_request "t1" in
  success (fst pdf) = true /\ error (fst pdf) = None /\
  filePath (fst pdf) = "reports/report_r1_1000.pdf" /\
  snd pdf !! "reports/report_r1_1000.pdf" = Some "<html>{{taskName}}</html>t1" /\
  snd html !! "reports/report_r1_1000.html" = snd pdf !! "reports/report_r1_1000.pdf".
Proof. vm_compute. done. Qed.

(** C8 at a pdf request with the template stored. *)
Lemma generateReport_pdf_stores_html_witness :
  let run := generateReport append_data id slash_join "reports" "templates"
               no_write_error stored_template "r1" 1000 pdf_request "t1" in
  success (fst run) = true /\ error (fst run) = None /\
  filePath (fst run) = "reports/report_r1_1000.pdf" /\
  generateHTMLReport append_data slash_join "templates" stored_template "t1"
  = inl "<html>{{taskName}}</html>t1" /\
  snd run !! "reports/report_r1_1000.pdf" = Some "<html>{{taskName}}</html>t1".
Proof.
  apply (generateReport_pdf_stores_html append_data id slash_join "reports" "templates"
           no_write_error stored_template "r1" 1000 pdf_request "t1"
           "<html>{{taskName}}</html>").
  - reflexivity.
  - reflexivity.
  - reflexivity.
Defined.

End ReportGeneratorFacts.

(** ** The task execution orchestrator *)

Module TaskManagerFacts.

Import TaskManager.

(** The run of a computation that starts by reading the store. *)
Lemma bind_gets {A B} (f : Store -> A) (k : A -> M B) (s : Store) :
  bind (gets f) k s = k (f s) s.
Proof. unfold bind, gets. simpl. by destruct (k (f s) s). Qed.

Lemma getTaskStatus_tracked (j : string) (s : Store) (e : TaskExecution) :
  activeExecutions s !! j = Some e -> getTaskStatus j s = mkRun (Return (Some e)) s [].
Proof. intros He. unfold getTaskStatus. rewrite bind_gets, He. reflexivity. Qed.

Lemma lookup_status_tracked (j : string) (s : Store) (e : TaskExecution) :
  activeExecutions s !! j = Some e -> lookup_status j s = Some e.
Proof. intros He. unfold lookup_status. by rewrite (getTaskStatus_tracked j s e He). Qed.

(** *** The database *)

Lemma settled_call (st : Statement) (d : Db) :
  settled (db_call st d) = run_statement (settled d) st.
Proof. unfold settled, db_call. cbn [tables waiting]. by rewrite foldl_app. Qed.

Lemma settled_run_waiting (d : Db) : settled (run_waiting d) = settled d.
Proof. reflexivity. Qed.

Lemma run_waiting_twice (d : Db) : run_waiting (run_waiting d) = run_waiting d.
Proof. reflexivity. Qed.

Lemma stored_execution_run_waiting (j : string) (d : Db) :
  stored_execution j (run_waiting d) = stored_execution j d.
Proof. reflexivity. Qed.

Lemma stored_logs_run_waiting (j : string) (d : Db) :
  stored_logs j (run_waiting d) = stored_logs j d.
Proof. reflexivity. Qed.

Lemma bound_execution_plain (j t : string) (st : Status) (p : Z) (stage : string) :
  bound_execution (mkExecRow j t st p stage None None None)
  = mkExecRow j t st p stage None None None.
Proof. reflexivity. Qed.

(** After the call of [upsertExecution] the row of the job is the one
    bound to the statement, and the rows of the other jobs are as
    before. *)
Lemma stored_execution_upsert (row : ExecRow) (d : Db) :
  stored_execution (r_jobId row) (db_upsertExecution row d) = Some (bound_execution row).
Proof.
  unfold stored_execution, db_upsertExecution. rewrite settled_call.
  cbn [run_statement executions]. by rewrite lookup_insert_eq.
Qed.

Lemma stored_execution_upsert_other (k : string) (row : ExecRow) (d : Db) :
  k <> r_jobId row ->
  stored_execution k (db_upsertExecution row d) = stored_execution k d.
Proof.
  intros Hne. unfold stored_execution, db_upsertExecution. rewrite settled_call.
  cbn [run_statement executions]. by rewrite lookup_insert_ne.
Qed.

Lemma db_getExecution_literal (j : string) (d : Db) :
  literal j = true -> db_getExecution j d = inl (stored_execution j d).
Proof. unfold db_getExecution. by intros ->. Qed.

Lemma db_getLogs_literal (j : string) (d : Db) :
  literal j = true -> db_getLogs j d = inl (stored_logs j d).
Proof. unfold db_getLogs. by intros ->. Qed.

(** A statement for one job leaves the row and the log rows of another
    job as they are. *)
Lemma stored_execution_appendLog (k : string) (row : LogRow) (d : Db) :
  stored_execution k (db_appendLog row d) = stored_execution k d.
Proof.
  unfold stored_execution, db_appendLog. rewrite settled_call.
  cbn [run_statement]. by case_bool_decide.
Qed.

Lemma stored_execution_upsertTask (k : string) (row : TaskRow) (d : Db) :
  stored_execution k (db_upsertTask row d) = stored_execution k d.
Proof. unfold stored_execution, db_upsertTask. by rewrite settled_call. Qed.

Lemma stored_logs_upsertExecution (k : string) (row : ExecRow) (d : Db) :
  stored_logs k (db_upsertExecution row d) = stored_logs k d.
Proof. unfold stored_logs, db_upsertExecution. by rewrite settled_call. Qed.

Lemma stored_logs_upsertTask (k : string) (row : TaskRow) (d : Db) :
  stored_logs k (db_upsertTask row d) = stored_logs k d.
Proof. unfold stored_logs, db_upsertTask. by rewrite settled_call. Qed.

Lemma stored_logs_appendLog_other (k : string) (row : LogRow) (d : Db) :
  l_jobId row <> k -> stored_logs k (db_appendLog row d) = stored_logs k d.
Proof.
  intros Hne. unfold stored_logs, db_appendLog. rewrite settled_call.
  cbn [run_statement]. case_bool_decide; [done |]. cbn [log_rows].
  rewrite filter_app, filter_cons_False, filter_nil by done. by rewrite app_nil_r.
Qed.

(** For an id that stays a text, what [getTaskStatus] shows is made of
    the record in memory, or else of the row and the log rows of the
    job. *)
Lemma lookup_status_literal (k : string) (s : Store) :
  literal k = true ->
  lookup_status k s
  = match activeExecutions s !! k with
    | Some e => Some e
    | None =>
        (fun row =>
           mkTaskExecution (r_jobId row) (r_taskId row) (r_status row) (r_progress row)
             (r_currentStage row) [] [] (map l_message (stored_logs k (db s)))
             (date_of (r_startedAt row)) (date_of (r_completedAt row)) (r_error row))
          <$> stored_execution k (db s)
    end.
Proof.
  intros Hliteral. unfold lookup_status, getTaskStatus. rewrite bind_gets.
  destruct (activeExecutions s !! k) as [e|]; [done |].
  unfold db_read, awaited, bind, await, modify.
  cbn [outcome final seen db set_db].
  rewrite (db_getExecution_literal k _ Hliteral), stored_execution_run_waiting.
  destruct (stored_execution k (db s)) as [row|]; [| done].
  cbn [outcome final seen db set_db].
  by rewrite (db_getLogs_literal k _ Hliteral).
Qed.

(** What [getTaskStatus] shows depends on the records in memory and on
    the database only. *)
Lemma lookup_status_same (k : string) (s s' : Store) :
  activeExecutions s' = activeExecutions s -> db s' = db s ->
  lookup_status k s' = lookup_status k s.
Proof.
  destruct s as [act d q imm clk n], s' as [act' d' q' imm' clk' n'].
  cbn [activeExecutions db]. intros -> ->.
  unfold lookup_status, getTaskStatus. rewrite !bind_gets.
  cbn [activeExecutions]. destruct (act !! k) as [e|]; [done |].
  unfold db_read, awaited, bind, await, modify.
  cbn [outcome final seen db set_db].
  destruct (db_getExecution k (run_waiting d)) as [[row|] | message];
    cbn [outcome final seen]; [| done | done].
  unfold set_db, ret. cbn [outcome final seen db].
  change (run_waiting (run_waiting d)) with (run_waiting d).
  destruct (db_getLogs k (run_waiting d)); reflexivity.
Qed.

(** A job that only the database holds, under an id that stays a text:
    [getTaskStatus] passes the suspension points of its two reads and
    answers with the record made of the row and the log rows. *)
Lemma getTaskStatus_stored (j : string) (s : Store) (row : ExecRow) :
  activeExecutions s !! j = None ->
  literal j = true ->
  stored_execution j (db s) = Some row ->
  exists e,
    outcome (getTaskStatus j s) = Return (Some e) /\
    status e = r_status row /\ progress e = r_progress row /\
    currentStage e = r_currentStage row /\
    logs e = map l_message (stored_logs j (db s)).
Proof.
  intros Hnone Hliteral Hrow. unfold getTaskStatus. rewrite bind_gets, Hnone.
  unfold db_read, awaited, bind, await, modify.
  cbn [outcome final seen db set_db].
  rewrite (db_getExecution_literal j _ Hliteral), stored_execution_run_waiting, Hrow.
  cbn [outcome final seen db set_db].
  rewrite (db_getLogs_literal j _ Hliteral).
  cbn [outcome final seen]. eexists. split; [reflexivity |]. done.
Qed.

(** *** Progress along a computation *)
Section Progress.

Variable j : string.



















End Progress.

(** *** The tracked record along a computation *)
Section Triples.

Variable j : string.

Lemma triple_after {A B} (P P' : TaskExecution -> Prop) (m : M A) (k : A -> M B)
    (Q : Outcome B -> TaskExecution -> Prop) :
  returns j P P' m -> (forall a, triple j P' (k a) Q) -> triple j P (bind m k) Q.
Proof.
  intros Hm Hk s e He HP. unfold bind.
  destruct (Hm s e He HP) as (e1 & He1 & [a Ha] & HP').
  rewrite Ha. simpl. by apply (Hk a (final (m s)) e1).
Qed.

Lemma returns_seq {A B} (P : TaskExecution -> Prop) (m : M A) (k : A -> M B) :
  returns j P P m -> (forall a, returns j P P (k a)) -> returns j P P (bind m k).
Proof. intros Hm Hk. by apply (triple_after P P). Qed.

Lemma throws_bind {A B} (message : string) (P P' : TaskExecution -> Prop)
    (m : M A) (k : A -> M B) :
  throws j message P P' m -> throws j message P P' (bind m k).
Proof.
  intros Hm s e He HP. unfold bind.
  destruct (Hm s e He HP) as (e1 & He1 & Ho & HP').
  rewrite Ho. simpl. eauto.
Qed.

Lemma triple_caught {A} (message : string) (P P' : TaskExecution -> Prop)
    (m : M A) (handler : string -> M A) (Q : Outcome A -> TaskExecution -> Prop) :
  throws j message P P' m -> triple j P' (handler message) Q ->
  triple j P (try_catch m handler) Q.
Proof.
  intros Hm Hh s e He HP. unfold try_catch.
  destruct (Hm s e He HP) as (e1 & He1 & Ho & HP').
  rewrite Ho. simpl. by apply (Hh (final (m s)) e1).
Qed.

Lemma returns_ret {A} (P : TaskExecution -> Prop) (a : A) : returns j P P (ret a).
Proof. intros s e He HP. exists e. simpl. eauto. Qed.

Lemma throws_throw {A} (message : string) (P : TaskExecution -> Prop) :
  throws j message P P (@throw A message).
Proof. intros s e He HP. exists e. simpl. eauto. Qed.

Lemma returns_gets {A} (P : TaskExecution -> Prop) (f : Store -> A) :
  returns j P P (gets f).
Proof. intros s e He HP. exists e. simpl. eauto. Qed.

Lemma returns_await (P : TaskExecution -> Prop) : returns j P P await.
Proof. intros s e He HP. exists e. simpl. eauto. Qed.

Lemma returns_modify (P : TaskExecution -> Prop) (f : Store -> Store) :
  (forall s, activeExecutions (f s) = activeExecutions s) -> returns j P P (modify f).
Proof. intros Hf s e He HP. exists e. simpl. rewrite Hf. eauto. Qed.

Lemma returns_mutate (P P' : TaskExecution -> Prop) (f : TaskExecution -> TaskExecution) :
  (forall e, P e -> P' (f e)) -> returns j P P' (mutate j f).
Proof.
  intros Hf s e He HP. exists (f e). simpl.
  rewrite lookup_alter_eq, He. simpl. eauto.
Qed.

Lemma returns_read {A} (P : TaskExecution -> Prop) (f : TaskExecution -> A) :
  returns j P P (read j f).
Proof. intros s e He HP. exists e. unfold read. rewrite He. simpl. eauto. Qed.

(** After reading the record, the rest runs on a record that is the
    one read. *)
Lemma triple_read {B} (P : TaskExecution -> Prop) (k : TaskExecution -> M B)
    (Q : Outcome B -> TaskExecution -> Prop) :
  (forall e, P e -> triple j (fun e' => e' = e) (k e) Q) ->
  triple j P (bind (read j (fun e => e)) k) Q.
Proof.
  intros Hk s e He HP. unfold bind, read. rewrite He. simpl.
  destruct (Hk e HP s e He eq_refl) as (e' & He' & HQ). eauto.
Qed.

Lemma triple_pre {A} (P P' : TaskExecution -> Prop) (m : M A)
    (Q : Outcome A -> TaskExecution -> Prop) :
  (forall e, P' e -> P e) -> triple j P m Q -> triple j P' m Q.
Proof. intros Himp Hm s e He HP. apply (Hm s e He). by apply Himp. Qed.

(** After the lookup of the job in the map, the rest runs with the
    record found. *)
Lemma triple_lookup {B} (P : TaskExecution -> Prop)
    (k : option TaskExecution -> M B) (Q : Outcome B -> TaskExecution -> Prop) :
  (forall e, P e -> triple j P (k (Some e)) Q) ->
  triple j P (bind (gets (fun s => activeExecutions s !! j)) k) Q.
Proof.
  intros Hk s e He HP. unfold bind, gets. simpl. rewrite He.
  destruct (Hk e HP s e He HP) as (e' & He' & HQ). eauto.
Qed.

End Triples.




(** Unfolding of the orchestrator's operations on a store given by its
    fields, up to the operations on the maps. *)
Ltac exec :=
  cbv beta iota zeta delta
    [createTask cancelTask pauseTask resumeTask getTaskStatus
     try_catch bind ret throw gets modify mutate read await awaited now
     uuidv4 log_to_db upsertTask upsertExecution appendLog job_pause job_resume
     queue_getJob queue_alter queue_add setImmediate
     set_activeExecutions set_db set_taskQueue set_immediates set_drawn
     db_upsertTask db_upsertExecution db_appendLog db_call run_waiting
     outcome final seen
     activeExecutions db taskQueue immediates clock drawn
     available issued jobs tables waiting broken_execution broken_logs];
  cbn [app].



Ltac returns_step :=
  match goal with
  | |- returns _ _ _ (bind _ _) => apply returns_seq; [| intros ?]
  | |- returns _ _ _ (ret _) => apply returns_ret
  | |- returns _ _ _ (gets _) => apply returns_gets
  | |- returns _ _ _ await => apply returns_await
  | |- returns _ _ _ (modify _) => apply returns_modify; intros; reflexivity
  | |- returns _ _ _ (mutate _ _) =>
      apply returns_mutate; let e := fresh in let H := fresh in intros e H; exact H
  | |- returns _ _ _ (read _ _) => apply returns_read
  | |- returns _ _ _ (let _ := _ in _) => cbv zeta
  end.

Ltac returns_auto :=
  unfold now, upsertTask, upsertExecution, appendLog, awaited; repeat returns_step.

Section Orchestrator.

Variable uuid : nat -> string.
Variable llm_initialize : TaskConfig -> option string.
Variable executeChain : TaskConfig -> ChainOutcome.
Variable runPOC : TaskConfig -> Vulnerability -> PocOutcome.

Abbreviation run_executeTask :=
  (executeTask uuid llm_initialize executeChain runPOC).
Abbreviation run_createTask := (createTask uuid).










(** *** A first attempt stops at the report *)

Lemma returns_uuidv4 (j : string) (P : TaskExecution -> Prop) :
  returns j P P (uuidv4 uuid).
Proof. intros s e He HP. exists e. simpl. eauto. Qed.

Lemma returns_log_to_db (j j' message : string) (P : TaskExecution -> Prop) :
  returns j P P (log_to_db uuid j' message).
Proof.
  unfold log_to_db. apply returns_seq; [apply returns_uuidv4 | intros i].
  returns_auto.
Qed.

Lemma returns_updateExecutionProgress (j : string) (p : Z) (stage : string) :
  returns j unfinished (unfinished_at p) (updateExecutionProgress uuid j p stage).
Proof.
  unfold updateExecutionProgress.
  apply triple_lookup. intros e0 _.
  apply (triple_after j unfinished (unfinished_at p)).
  { apply returns_mutate. intros e He. by split. }
  intros _.
  apply returns_seq; [returns_auto | intros _].
  apply returns_seq; [apply returns_log_to_db | intros _].
  returns_auto.
Qed.

Lemma returns_verify_all (cfg : TaskConfig) (j : string) (p : Z)
    (l : list Vulnerability) :
  returns j (unfinished_at p) (unfinished_at p) (verify_all uuid runPOC cfg j l).
Proof.
  induction l as [|v rest IH]; simpl; [apply returns_ret |].
  apply returns_seq; [| intros v'; apply returns_seq;
                             [apply IH | intros rest'; apply returns_ret]].
  unfold verify_one. destruct (runPOC cfg v) as [message | r]; [returns_auto |].
  apply returns_seq; [apply returns_await | intros _].
  apply returns_seq; [apply returns_uuidv4 | intros pocId].
  apply returns_seq; [apply returns_await | intros _].
  destruct (POCManager.vulnerabilityConfirmed r); [| apply returns_ret].
  apply returns_seq; [returns_auto | intros _].
  apply returns_seq; [apply returns_log_to_db | intros _]. apply returns_ret.
Qed.

Lemma returns_executePentestChain (cfg : TaskConfig) (j : string)
    (results : list JsValue) (vulns : list Vulnerability) :
  executeChain cfg = ChainReturned true results vulns ->
  returns j unfinished unfinished (executePentestChain uuid executeChain runPOC cfg j).
Proof.
  intros Hchain. unfold executePentestChain. rewrite Hchain. simpl.
  do 2 (apply returns_seq; [returns_auto | intros _]).
  apply returns_seq; [apply returns_log_to_db | intros _].
  do 2 (apply returns_seq; [returns_auto | intros _]).
  destruct vulns as [|v rest]; [apply returns_ret |].
  apply returns_seq; [returns_auto | intros _].
  apply (triple_after j unfinished (unfinished_at 60));
    [apply returns_updateExecutionProgress | intros _].
  apply (triple_pre j unfinished); [by intros e [He _] |].
  apply (triple_after j unfinished unfinished); [returns_auto | intros _].
  apply (triple_after j unfinished unfinished); [| intros vulns'; apply returns_ret].
  intros s e He HP.
  destruct (returns_verify_all cfg j (progress e) (v :: rest) s e He (conj HP eq_refl))
    as (e' & He' & Ho & HP' & _).
  eauto.
Qed.

Lemma throws_generateReport (cfg : TaskConfig) (j : string) (p : Z) :
  throws j TypeError_getTime (unfinished_at p) (unfinished_at p)
    (generateReport uuid cfg j).
Proof.
  unfold generateReport.
  apply (triple_after j (unfinished_at p) (unfinished_at p)); [returns_auto | intros _].
  apply (triple_after j (unfinished_at p) (unfinished_at p));
    [apply returns_log_to_db | intros _].
  apply triple_read. intros e [He Hp]. rewrite He.
  apply (triple_pre j (unfinished_at p)); [by intros e' -> |].
  apply throws_throw.
Qed.

(** A run of [executeTask] on an unfinished record, with the AI
    service initialised and the chain successful, throws the
    TypeError of the report stage and leaves the record failed at
    progress 80. *)
Lemma executeTask_unfinished_fails (data : JobData)
    (results : list JsValue) (vulns : list Vulnerability) :
  llm_initialize (d_taskConfig data) = None ->
  executeChain (d_taskConfig data) = ChainReturned true results vulns ->
  triple (d_jobId data) unfinished (run_executeTask data)
    (fun o e => o = Throw TypeError_getTime /\ status e = failed /\
                progress e = 80 /\ error e = Some TypeError_getTime).
Proof.
  intros Hinit Hchain.
  unfold executeTask. set (j := d_jobId data). set (cfg := d_taskConfig data).
  apply triple_lookup. intros e0 _.
  apply (triple_caught j TypeError_getTime unfinished (unfinished_at 80)).
  - do 9 (apply (triple_after j unfinished unfinished); [returns_auto | intros ?]).
    apply (triple_after j unfinished unfinished).
    { unfold initializeAIService. fold cfg in Hinit. rewrite Hinit.
      apply returns_ret. }
    intros _.
    apply (triple_after j unfinished unfinished); [returns_auto | intros _].
    apply (triple_after j unfinished unfinished); [returns_auto | intros _].
    apply (triple_after j unfinished (unfinished_at 10));
      [apply returns_updateExecutionProgress | intros _].
    apply (triple_pre j unfinished); [by intros e [He _] |].
    apply (triple_after j unfinished unfinished); [returns_auto | intros _].
    apply (triple_after j unfinished unfinished);
      [by apply (returns_executePentestChain cfg j results vulns) | intros chainResult].
    apply (triple_after j unfinished unfinished); [returns_auto | intros _].
    apply (triple_after j unfinished (unfinished_at 80));
      [apply returns_updateExecutionProgress | intros _].
    apply (triple_after j (unfinished_at 80) (unfinished_at 80));
      [returns_auto | intros _].
    apply throws_bind. apply throws_generateReport.
  - apply (triple_after j (unfinished_at 80) (unfinished_at 80));
      [returns_auto | intros t].
    apply (triple_after j (unfinished_at 80)
             (fun e => status e = failed /\ progress e = 80 /\
                       error e = Some TypeError_getTime)).
    { apply returns_mutate. by intros e [_ Hp]. }
    intros _.
    apply (triple_after j _ (fun e => status e = failed /\ progress e = 80 /\
                                      error e = Some TypeError_getTime));
      [returns_auto | intros e].
    apply (triple_after j _ (fun e => status e = failed /\ progress e = 80 /\
                                      error e = Some TypeError_getTime));
      [returns_auto | intros _].
    apply (triple_after j _ (fun e => status e = failed /\ progress e = 80 /\
                                      error e = Some TypeError_getTime));
      [returns_auto | intros _].
    apply throws_throw.
Qed.

(** C5, at the report stage.  For a job whose record has no
    completion time, as every record has before its first run ends,
    with the AI service initialised and the chain successful, the run
    of [executeTask] throws at the report stage: the record ends
    failed at progress 80, and neither the progress 100 nor the
    status completed is recorded. *)
Theorem executeTask_first_attempt_stops_at_80 (data : JobData) (s : Store)
    (e : TaskExecution) (results : list JsValue) (vulns : list Vulnerability) :
  activeExecutions s !! d_jobId data = Some e ->
  completedAt e = None ->
  llm_initialize (d_taskConfig data) = None ->
  executeChain (d_taskConfig data) = ChainReturned true results vulns ->
  let r := run_executeTask data s in
  outcome r = Throw TypeError_getTime /\
  exists e',
    lookup_status (d_jobId data) (final r) = Some e' /\
    status e' = failed /\ progress e' = 80 /\
    error e' = Some TypeError_getTime.
Proof.
  intros He Hunfinished Hinit Hchain.
  destruct (executeTask_unfinished_fails data results vulns Hinit Hchain s e He
              Hunfinished) as (e' & He' & Ho & Hrest).
  split; [done |]. exists e'. split; [by apply lookup_status_tracked | done].
Qed.

(** C10.  When the job id has no entry in [activeExecutions],
    [executeTask] throws 'Task execution not found' and the store is
    as before, with no suspension point passed; and a record that
    only the database holds is still answered by [getTaskStatus],
    rebuilt from its row and its log rows.  (The job id is one that
    stays a text in the SELECT statements, as every id drawn by
    [uuidv4] does.) *)
Theorem executeTask_requires_memory_entry (data : JobData) (s : Store) :
  activeExecutions s !! d_jobId data = None ->
  literal (d_jobId data) = true ->
  run_executeTask data s = mkRun (Throw "Task execution not found") s [] /\
  forall row,
    stored_execution (d_jobId data) (db s) = Some row ->
    exists e,
      outcome (getTaskStatus (d_jobId data) s) = Return (Some e) /\
      lookup_status (d_jobId data) s = Some e /\
      status e = r_status row /\ progress e = r_progress row /\
      currentStage e = r_currentStage row /\
      logs e = map l_message (stored_logs (d_jobId data) (db s)).
Proof.
  intros Hnone Hliteral. split.
  - unfold executeTask. cbv zeta. rewrite bind_gets, Hnone. reflexivity.
  - intros row Hrow.
    destruct (getTaskStatus_stored (d_jobId data) s row Hnone Hliteral Hrow)
      as (e & Hshown & Hfields).
    exists e. split; [done |]. split; [| done].
    unfold lookup_status. by rewrite Hshown.
Qed.

(** C4.  [createTask] returns the task id and the job id drawn; in
    the store it leaves, the job's record is the initial one (status
    pending, progress 0, no start time, no log line) in memory and in
    the table of executions, where [getExecution] finds it under a job
    id that stays a text in its SELECT statement; [getTaskStatus]
    answers with the record, and the work has only been handed over:
    filed in the queue under the next number, or, with the queue
    unreachable, given to [setImmediate]. *)
Theorem createTask_returns_pending (taskConfig : TaskConfig) (s : Store) :
  let r := run_createTask taskConfig s in
  let j := uuid (drawn s) in
  outcome r = Return (id taskConfig, j) /\
  getTaskStatus j (final r)
  = mkRun (Return (Some (initial_execution j (id taskConfig)))) (final r) [] /\
  stored_execution j (db (final r))
  = Some (mkExecRow j (id taskConfig) pending 0 "初始化中" None None None) /\
  (literal j = true ->
   db_getExecution j (db (final r))
   = inl (Some (mkExecRow j (id taskConfig) pending 0 "初始化中" None None None))) /\
  (if available (taskQueue s)
   then immediates (final r) = immediates s /\
        exists job,
          jobs (taskQueue (final r)) !! pretty (S (issued (taskQueue s))) = Some job /\
          q_data job = mkJobData j taskConfig
   else immediates (final r) = (immediates s ++ [mkJobData j taskConfig])%list /\
        taskQueue (final r) = taskQueue s).
Proof.
  destruct s as [act d q imm clk n]. destruct q as [av iss js].
  intros r j.
  assert (outcome r = Return (id taskConfig, j) /\
          activeExecutions (final r)
          = <[j := initial_execution j (id taskConfig)]> act /\
          (exists d', db (final r)
                      = run_waiting
                          (db_upsertExecution
                             (mkExecRow j (id taskConfig) pending 0 "初始化中" None None
                                None) d')) /\
          immediates (final r)
          = (if av then imm else imm ++ [mkJobData j taskConfig])%list /\
          taskQueue (final r)
          = (if av
             then mkQueue true (S iss)
                    (<[pretty (S iss)
                       := mkQueueJob (mkJobData j taskConfig) (priority taskConfig)
                            (match scheduledAt taskConfig with
                             | Some at_ => at_ - clk
                             | None => 0
                             end)]> js)
             else mkQueue false iss js))
    as (Ho & Hact & [d' Hdb] & Himm & Hq).
  { subst r j.
    destruct av; (split; [exec; done |]); (split; [exec; done |]);
      (split;
       [exists (run_waiting
                  (db_upsertTask
                     (mkTaskRow (id taskConfig) (name taskConfig) (target taskConfig)
                        (aiModel taskConfig) (priority taskConfig)
                        (scheduledAt taskConfig) clk)
                     (db_appendLog
                        (mkLogRow (uuid (S n)) (uuid n)
                           ("INFO: 任务创建: " +:+ name taskConfig) clk) d)));
        exec; reflexivity |]);
      (split; exec; done). }
  split; [done |].
  split.
  { apply getTaskStatus_tracked. by rewrite Hact, lookup_insert_eq. }
  assert (stored_execution j (db (final r))
          = Some (mkExecRow j (id taskConfig) pending 0 "初始化中" None None None))
    as Hrow.
  { rewrite Hdb.
    exact (stored_execution_upsert
             (mkExecRow j (id taskConfig) pending 0 "初始化中" None None None) d'). }
  split; [exact Hrow |].
  split.
  { intros Hliteral. by rewrite db_getExecution_literal, Hrow. }
  cbn [taskQueue available immediates issued]. rewrite Himm, Hq.
  destruct av; [| done].
  split; [done |]. cbn [jobs]. rewrite lookup_insert_eq. eauto.
Qed.

End Orchestrator.

(** [cancelTask] never reads the status.  It returns false and leaves
    the store as it was when the queue is unreachable or has no job
    filed under the id.  When the queue has one, it removes that job
    and returns true, and the execution tracked under the id, if there
    is one, gets the status cancelled and the current time as
    completion time. *)
Lemma cancelTask_asks_only_the_queue (j : string) (s : Store) :
  (available (taskQueue s) = false \/ jobs (taskQueue s) !! j = None ->
   cancelTask j s = mkRun (Return false) s
                      (if available (taskQueue s) then [] else [s])) /\
  (forall job,
     available (taskQueue s) = true -> jobs (taskQueue s) !! j = Some job ->
     let r := cancelTask j s in
     outcome r = Return true /\
     jobs (taskQueue (final r)) !! j = None /\
     activeExecutions (final r) !! j
     = (fun e => set_completedAt (Some (clock s)) (set_status cancelled e))
         <$> activeExecutions s !! j).
Proof.
  destruct s as [act d q imm clk n]. destruct q as [av iss js].
  cbn [taskQueue available jobs clock activeExecutions]. split.
  - intros Hcase. destruct av.
    + destruct Hcase as [Hav | Hnone]; [done |].
      exec. rewrite Hnone. reflexivity.
    + reflexivity.
  - intros job -> Hjob.
    exec. rewrite Hjob. exec.
    by rewrite lookup_delete_eq, lookup_alter_eq.
Qed.

(** A queue whose jobs are filed under numbers has no job under an id
    that is no number. *)
Lemma numbered_no_job (q : Queue) (j : string) :
  numbered q -> is_number j = false -> jobs q !! j = None.
Proof.
  intros Hq Hj. destruct (jobs q !! j) as [job|] eqn:Hjob; [| done].
  specialize (Hq j job Hjob). cbv beta in Hq. congruence.
Qed.

(** The numbers that [add] gives are numbers, so a submission keeps
    the queue numbered. *)
Lemma pretty_N_char_digit (x : N) : is_digit (pretty_N_char x) = true.
Proof. unfold pretty_N_char. by repeat case_match. Qed.

Lemma pretty_N_go_number (x : N) (s : string) :
  is_number s = true -> is_number (pretty_N_go x s) = true.
Proof.
  revert s. induction (N.lt_wf_0 x) as [x _ IH]. intros s Hs.
  destruct (decide (x = 0%N)) as [-> | Hx].
  - by rewrite pretty_N_go_0.
  - rewrite pretty_N_go_step by lia. apply IH.
    + apply N.div_lt; lia.
    + unfold is_number in *. apply andb_prop in Hs as [_ Hs].
      cbn [String.list_ascii_of_string forallb String.eqb negb andb].
      by rewrite pretty_N_char_digit, Hs.
Qed.

Lemma pretty_nat_number (n : nat) : is_number (pretty (S n)) = true.
Proof.
  unfold pretty, pretty_nat, pretty, pretty_N. case_decide; [lia |].
  rewrite pretty_N_go_step by lia. apply pretty_N_go_number.
  unfold is_number. cbn [String.list_ascii_of_string forallb String.eqb negb andb].
  by rewrite pretty_N_char_digit.
Qed.

Lemma createTask_keeps_numbered (uuid : nat -> string) (taskConfig : TaskConfig)
    (s : Store) :
  numbered (taskQueue s) ->
  numbered (taskQueue (final (createTask uuid taskConfig s))).
Proof.
  destruct s as [act d q imm clk n]. destruct q as [av iss js].
  unfold numbered. cbn [taskQueue jobs]. intros Hq.
  destruct av; exec; [| done].
  apply map_Forall_insert_2; [apply pretty_nat_number | done].
Qed.

(** C6.  The queue holds the jobs under the numbers that [add] gave
    them, and the job id of an execution, drawn by [uuidv4], is no
    number: [getJob] finds no job for it.  So for a job whose status
    is completed or failed [cancelTask] returns false, and the store,
    with the record of the job in it, is as before. *)
Theorem cancelTask_refuses_finished_jobs (j : string) (s : Store) (e : TaskExecution) :
  numbered (taskQueue s) -> is_number j = false ->
  activeExecutions s !! j = Some e ->
  status e = completed \/ status e = failed ->
  outcome (cancelTask j s) = Return false /\
  final (cancelTask j s) = s /\
  lookup_status j (final (cancelTask j s)) = Some e.
Proof.
  intros Hq Hj He _.
  destruct (cancelTask_asks_only_the_queue j s) as [Hnone _].
  rewrite Hnone by (right; by apply numbered_no_job).
  cbn [outcome final]. split; [done |]. split; [done |].
  by apply lookup_status_tracked.
Qed.

(** [pauseTask] and [resumeTask] return false and leave the store as it
    was, whether the queue is unreachable, has no job under the id, or
    has one. *)
Lemma pauseTask_changes_nothing (j : string) (s : Store) :
  outcome (pauseTask j s) = Return false /\ final (pauseTask j s) = s.
Proof.
  destruct s as [act d q imm clk n]. destruct q as [av iss js].
  destruct av; [| done]. exec. by destruct (js !! j).
Qed.

Lemma resumeTask_changes_nothing (j : string) (s : Store) :
  outcome (resumeTask j s) = Return false /\ final (resumeTask j s) = s.
Proof.
  destruct s as [act d q imm clk n]. destruct q as [av iss js].
  destruct av; [| done]. exec. by destruct (js !! j).
Qed.

(** C7.  For a job tracked in memory with status running, [pauseTask]
    followed at once by [resumeTask] leaves the job with status
    running, and its findings, results and log lines, in memory and in
    the persistent store, are those from before the pause. *)
Theorem pause_then_resume_keeps_the_job (j : string) (s : Store) (e : TaskExecution) :
  activeExecutions s !! j = Some e -> status e = running ->
  let s' := final (resumeTask j (final (pauseTask j s))) in
  exists e',
    lookup_status j s' = Some e' /\
    status e' = running /\
    vulnerabilities e' = vulnerabilities e /\
    results e' = results e /\
    logs e' = logs e /\
    db s' = db s.
Proof.
  intros He Hrunning. cbv zeta.
  rewrite (proj2 (pauseTask_changes_nothing j s)),
          (proj2 (resumeTask_changes_nothing j s)).
  exists e. split; [by apply lookup_status_tracked | done].
Qed.

End TaskManagerFacts.

(** ** A submission followed through the orchestrator *)

Module ScenarioFacts.

Import TaskManager TaskManagerFacts Scenario.

Example submission :
  outcome created = Return ("task_1", "uuid-0") /\
  lookup_status "uuid-0" (final created) = Some (initial_execution "uuid-0" "task_1").
Proof. vm_compute. done. Qed.

(** What a client polling the job sees during the first run. *)
Example first_run_progress :
  visible_progress "uuid-0" (seen first ++ [final first])
  = [0; 0; 0; 10; 10; 60; 60; 60; 80; 80; 80].
Proof. vm_compute. reflexivity. Qed.

Example first_run_persisted :
  db_getExecution "uuid-0" (db (final first))
  = inl (Some (mkExecRow "uuid-0" "task_1" failed 80 "生成报告" (Some 1000) (Some 1000)
            (Some TypeError_getTime))).
Proof. vm_compute. reflexivity. Qed.

(** C5 at the first run of the submitted job. *)
Lemma executeTask_first_attempt_stops_at_80_witness :
  outcome first = Throw TypeError_getTime /\
  exists e',
    lookup_status "uuid-0" (final first) = Some e' /\
    status e' = failed /\ progress e' = 80 /\
    error e' = Some TypeError_getTime.
Proof.
  apply (executeTask_first_attempt_stops_at_80 uuid initialised chain_ok poc_confirms
           job (final created) (initial_execution "uuid-0" "task_1")
           [JStr "scan"] [finding]).
  - vm_compute. reflexivity.
  - reflexivity.
  - reflexivity.
  - reflexivity.
Defined.



(** The worker's three attempts end with the job completed, on the
    second. *)
Example worker_completes_on_retry :
  status <$> lookup_status "uuid-0" (final worked) = Some completed /\
  visible_progress "uuid-0" (seen worked ++ [final worked])
  = [0; 0; 0; 10; 10; 60; 60; 60; 80; 80; 80;
     80; 80; 10; 10; 60; 60; 60; 80; 80; 100; 100; 100; 100].
Proof. vm_compute. done. Qed.

(** C6 at the job failed by its first run, and at the job completed
    by the worker: the queue holds the job under the number 1. *)
Lemma cancelTask_refuses_finished_jobs_witness :
  (outcome (cancelTask "uuid-0" (final first)) = Return false /\
   final (cancelTask "uuid-0" (final first)) = final first /\
   lookup_status "uuid-0" (final (cancelTask "uuid-0" (final first)))
   = Some (default (initial_execution "" "") (lookup_status "uuid-0" (final first)))) /\
  status (default (initial_execution "" "") (lookup_status "uuid-0" (final first)))
  = failed.
Proof.
  split; [| vm_compute; reflexivity].
  apply (cancelTask_refuses_finished_jobs "uuid-0" (final first)
           (default (initial_execution "" "")
              (lookup_status "uuid-0" (final first)))).
  - unfold numbered.
    replace (jobs (taskQueue (final first)))
      with (<["1" := mkQueueJob job 3 0]> (∅ : gmap string QueueJob))
      by (vm_compute; reflexivity).
    apply map_Forall_insert_2; [reflexivity | apply map_Forall_empty].
  - vm_compute. reflexivity.
  - vm_compute. reflexivity.
  - right. vm_compute. reflexivity.
Defined.

Example cancelTask_refuses_the_completed_job :
  status <$> lookup_status "uuid-0" (final worked) = Some completed /\
  cancelTask "uuid-0" (final worked) = mkRun (Return false) (final worked) [].
Proof. vm_compute. done. Qed.

(** Under the number that the queue gave it the job is found, and
    removed, whatever its status; the record of the job is filed under
    the job id and stays as it is. *)
Example cancelTask_by_number :
  outcome (cancelTask "1" (final worked)) = Return true /\
  jobs (taskQueue (final (cancelTask "1" (final worked)))) = ∅ /\
  lookup_status "uuid-0" (final (cancelTask "1" (final worked)))
  = lookup_status "uuid-0" (final worked).
Proof.
  destruct (proj2 (cancelTask_asks_only_the_queue "1" (final worked))
              (mkQueueJob job 3 0)) as (Ho & _ & _);
    [vm_compute; reflexivity | vm_compute; reflexivity |].
  split; [exact Ho |]. split; vm_compute; reflexivity.
Qed.

(** C7 at the running job in the store [midway]. *)
Lemma pause_then_resume_keeps_the_job_witness :
  exists e',
    lookup_status "uuid-0" (final (resumeTask "uuid-0" (final (pauseTask "uuid-0" midway))))
    = Some e' /\
    status e' = running /\
    vulnerabilities e' = vulnerabilities midway_execution /\
    results e' = results midway_execution /\
    logs e' = logs midway_execution /\
    db (final (resumeTask "uuid-0" (final (pauseTask "uuid-0" midway)))) = db midway.
Proof.
  apply (pause_then_resume_keeps_the_job "uuid-0" midway midway_execution).
  - vm_compute. reflexivity.
  - vm_compute. reflexivity.
Defined.

(** The pause is refused, under the job id and under the number of the
    job alike. *)
Example pause_is_refused :
  pauseTask "uuid-0" midway = mkRun (Return false) midway [] /\
  pauseTask "1" midway = mkRun (Return false) midway [] /\
  resumeTask "1" midway = mkRun (Return false) midway [].
Proof. vm_compute. done. Qed.

(** C10 at a new server process: the job is in the persistent store
    only. *)
Lemma executeTask_requires_memory_entry_witness :
  executeTask uuid initialised chain_ok poc_confirms job restarted
  = mkRun (Throw "Task execution not found") restarted [] /\
  exists e,
    outcome (getTaskStatus "uuid-0" restarted) = Return (Some e) /\
    lookup_status "uuid-0" restarted = Some e /\
    status e = failed /\ progress e = 80 /\ currentStage e = "生成报告" /\
    logs e = map l_message (stored_logs "uuid-0" (db restarted)).
Proof.
  destruct (executeTask_requires_memory_entry uuid initialised chain_ok poc_confirms
              job restarted) as [Hthrows Hquery].
  - vm_compute. reflexivity.
  - vm_compute. reflexivity.
  - split; [exact Hthrows |].
    apply (Hquery (mkExecRow "uuid-0" "task_1" failed 80 "生成报告" (Some 1000)
                     (Some 1000) (Some TypeError_getTime))).
    vm_compute. reflexivity.
Defined.

Example restarted_status :
  (fun e => (status e, progress e)) <$> lookup_status "uuid-0" restarted
  = Some (failed, 80).
Proof. vm_compute. reflexivity. Qed.

(** The processor of the status queue writes the progress its job
    carries, here 5 over the 80 left by the first run. *)
Example update_status_sets_any_progress :
  progress <$> lookup_status "uuid-0"
                 (final (updateExecutionStatus "uuid-0" running 5 "目标分析" (final first)))
  = Some 5.
Proof. vm_compute. reflexivity. Qed.

(** With the queue unreachable the submission falls back to
    [setImmediate]; the callback runs the job once, and the job stays
    failed at progress 80. *)
Example inline_fallback :
  let down := mkStore ∅ empty_db (mkQueue false 0 ∅) [] 1000 0 in
  let submitted := createTask uuid t1 down in
  let ran := run_immediate uuid initialised chain_ok poc_confirms job (final submitted) in
  immediates (final submitted) = [job] /\
  lookup_status "uuid-0" (final submitted) = Some (initial_execution "uuid-0" "task_1") /\
  outcome ran = Return tt /\
  (fun e => (status e, progress e)) <$> lookup_status "uuid-0" (final ran)
  = Some (failed, 80).
Proof. vm_compute. done. Qed.

(** No job is found under a job id: the three control operations
    return false. *)
Example job_id_finds_nothing :
  jobs (taskQueue (final worked)) !! "uuid-0" = None /\
  outcome (pauseTask "uuid-0" (final worked)) = Return false /\
  outcome (resumeTask "uuid-0" (final worked)) = Return false /\
  outcome (cancelTask "uuid-0" (final worked)) = Return false.
Proof. vm_compute. done. Qed.

End ScenarioFacts.

(** ** Texts: pieces, extensions, decimal numbers *)

Module TextFacts.

Lemma append_assoc (a b c : string) : (a +:+ b) +:+ c = a +:+ (b +:+ c).
Proof.
  induction a as [|x a IH]; [done |].
  change (String x ((a +:+ b) +:+ c) = String x (a +:+ (b +:+ c))). by f_equal.
Qed.

Abbreviation chars := String.list_ascii_of_string.

Lemma chars_app (a b : string) : chars (a +:+ b) = (chars a ++ chars b)%list.
Proof.
  induction a as [|x a IH]; [done |].
  change (x :: chars (a +:+ b) = x :: (chars a ++ chars b)%list). by f_equal.
Qed.

Lemma chars_length (s : string) : length (chars s) = String.length s.
Proof. induction s as [|x s IH]; simpl; [done | by f_equal]. Qed.

Lemma length_append (a b : string) :
  String.length (a +:+ b) = (String.length a + String.length b)%nat.
Proof.
  induction a as [|x a IH]; [done |].
  change (S (String.length (a +:+ b)) = S (String.length a + String.length b)).
  by f_equal.
Qed.

Lemma substring_whole (b : string) : String.substring 0 (String.length b) b = b.
Proof. induction b as [|x b IH]; simpl; [done | by f_equal]. Qed.

Lemma substring_suffix (a b : string) :
  String.substring (String.length a) (String.length b) (a +:+ b) = b.
Proof.
  induction a as [|x a IH]; [apply substring_whole |].
  change (String.substring (String.length a) (String.length b) (a +:+ b) = b).
  exact IH.
Qed.

(** *** Pieces of a text *)

Lemma split_pieces_plain (sep : ascii) (a : string) :
  ~ In sep (chars a) -> Js.split_pieces sep a = (a, []).
Proof.
  induction a as [|x a IH]; simpl; [done |].
  intros Hno. rewrite IH by tauto.
  destruct (Ascii.eqb_spec x sep) as [-> | _]; [tauto | done].
Qed.

Lemma split_pieces_first (sep : ascii) (a b : string) :
  ~ In sep (chars a) ->
  Js.split_pieces sep (a +:+ String sep b) = (a, Js.split sep b).
Proof.
  unfold Js.split. induction a as [|x a IH]; intros Hno.
  - change (Js.split_pieces sep (String sep b)
            = ("", let (piece, pieces) := Js.split_pieces sep b in piece :: pieces)).
    cbn [Js.split_pieces]. destruct (Js.split_pieces sep b).
    by rewrite Ascii.eqb_refl.
  - change (Js.split_pieces sep (String x (a +:+ String sep b))
            = (String x a, let (piece, pieces) := Js.split_pieces sep b in piece :: pieces)).
    cbn [Js.split_pieces]. simpl in Hno. rewrite IH by tauto.
    destruct (Ascii.eqb_spec x sep) as [-> | _]; [tauto | done].
Qed.

Lemma split_first_piece (sep : ascii) (a b : string) :
  ~ In sep (chars a) -> Js.split sep (a +:+ String sep b) = a :: Js.split sep b.
Proof. intros Hno. unfold Js.split at 1. by rewrite split_pieces_first. Qed.

(** *** The extension of a file name *)

Lemma extname_loop_plain (l rest : list ascii) (st : Path.Scan) (e : nat) :
  Forall Path.plain l -> Path.startDot st = None -> Path.end_ st = Some e ->
  Path.extname_loop (l ++ rest) st = Path.extname_loop rest st.
Proof.
  intros Hl Hdot Hend. induction Hl as [|c l [Hc1 Hc2] _ IH]; [done |].
  cbn [app Path.extname_loop]. unfold Path.extname_round.
  rewrite (proj2 (Ascii.eqb_neq _ _) Hc2), Hend,
    (proj2 (Ascii.eqb_neq _ _) Hc1), Hdot.
  exact IH.
Qed.

Lemma extname_loop_tail (l : list ascii) (st : Path.Scan) (sd e : nat) :
  Path.startDot st = Some sd -> Path.end_ st = Some e ->
  Path.matchedSlash st = false ->
  Path.preDotState st = 1 \/ Path.preDotState st = -1 ->
  Path.startDot (Path.extname_loop l st) = Some sd /\
  Path.end_ (Path.extname_loop l st) = Some e /\
  (Path.preDotState (Path.extname_loop l st) = 1 \/
   Path.preDotState (Path.extname_loop l st) = -1).
Proof.
  revert st. induction l as [|c l IH]; intros st Hdot Hend Hslash Hstate; [done |].
  cbn [Path.extname_loop]. unfold Path.extname_round.
  rewrite Hslash, Hend, Hdot. cbn [negb].
  destruct (Ascii.eqb c "/"); [done |].
  destruct (Ascii.eqb c "."); apply IH; cbn; auto.
Qed.

(** The loop on a name [stem.ext]: the stem is not empty and does not
    end in a slash, the extension is not empty and has neither dot nor
    slash. *)
Lemma extname_loop_stem_ext (stem ext : string) (c : ascii) (r : list ascii) :
  rev (chars stem) = c :: r -> c <> "/"%char ->
  ext <> "" -> Forall Path.plain (chars ext) ->
  let st :=
    Path.extname_loop (rev (chars (stem +:+ "." +:+ ext)))
      (Path.mkScan None 0 None true 0) in
  Path.startDot st = Some (String.length stem) /\
  Path.end_ st = Some (String.length stem + S (String.length ext))%nat /\
  (Path.preDotState st = 1 \/ Path.preDotState st = -1).
Proof.
  intros Hstem Hc Hext Hplain.
  assert (String.length stem = S (length r)) as Hlen.
  { rewrite <- chars_length, <- length_rev, Hstem. done. }
  assert (exists c0 l, rev (chars ext) = c0 :: l /\ Path.plain c0 /\ Forall Path.plain l)
    as (c0 & l & Hrev & Hc0 & Hl).
  { destruct (rev (chars ext)) as [|c0 l] eqn:Hrev.
    - exfalso. apply Hext. apply (f_equal (@length ascii)) in Hrev.
      rewrite length_rev, chars_length in Hrev. by destruct ext.
    - exists c0, l. split; [done |].
      apply Forall_rev in Hplain. rewrite Hrev in Hplain.
      by apply Forall_cons in Hplain. }
  assert (String.length ext = S (length l)) as Hlen_ext.
  { rewrite <- chars_length, <- length_rev, Hrev. done. }
  assert (Path.extname_loop (rev (chars (stem +:+ "." +:+ ext)))
            (Path.mkScan None 0 None true 0)
          = Path.extname_loop r
              (Path.mkScan (Some (length (c :: r))) 0
                 (Some (length (l ++ "."%char :: c :: r) + 1)%nat) false
                 (if Ascii.eqb c "." then 1 else -1))) as Hloop.
  { rewrite chars_app. change (chars ("." +:+ ext)) with ("."%char :: chars ext).
    rewrite rev_app_distr. cbn [rev]. rewrite <- app_assoc. cbn [app].
    rewrite Hrev, Hstem. cbn [app Path.extname_loop].
    destruct Hc0 as [Hc0dot Hc0slash].
    unfold Path.extname_round at 1.
    rewrite (proj2 (Ascii.eqb_neq _ _) Hc0slash), (proj2 (Ascii.eqb_neq _ _) Hc0dot).
    cbn [Path.end_ Path.startDot Path.startPart Path.preDotState].
    rewrite (extname_loop_plain l _ _ (length (l ++ "."%char :: c :: r) + 1) Hl)
      by done.
    cbn [Path.extname_loop]. unfold Path.extname_round at 1.
    cbn [Ascii.eqb Bool.eqb Path.end_ Path.startDot Path.startPart Path.preDotState
         Path.matchedSlash andb].
    unfold Path.extname_round at 1.
    rewrite (proj2 (Ascii.eqb_neq _ _) Hc).
    cbn [Path.end_ Path.startDot Path.startPart Path.preDotState Path.matchedSlash].
    by destruct (Ascii.eqb c "."). }
  cbv zeta. rewrite Hloop.
  replace (String.length stem) with (length (c :: r)) by (by rewrite Hlen).
  replace (length (c :: r) + S (String.length ext))%nat
    with (length (l ++ "."%char :: c :: r) + 1)%nat
    by (rewrite length_app, Hlen_ext; cbn [length]; lia).
  apply extname_loop_tail; cbn; try done.
  destruct (Ascii.eqb c "."); auto.
Qed.

Lemma extname_stem_ext (stem ext : string) (c : ascii) (r : list ascii) :
  rev (chars stem) = c :: r -> c <> "/"%char ->
  ext <> "" -> Forall Path.plain (chars ext) ->
  Path.extname (stem +:+ "." +:+ ext) = "." +:+ ext.
Proof.
  intros Hstem Hc Hext Hplain.
  destruct (extname_loop_stem_ext stem ext c r Hstem Hc Hext Hplain)
    as (Hsd & He & Hstate).
  unfold Path.extname. cbv zeta. rewrite Hsd, He.
  assert ((Path.preDotState
             (Path.extname_loop (rev (chars (stem +:+ "." +:+ ext)))
                (Path.mkScan None 0 None true 0)) =? 0)%Z = false) as ->.
  { destruct Hstate as [-> | ->]; done. }
  assert ((String.length stem =? String.length stem + S (String.length ext) - 1)%nat
          = false) as ->.
  { apply Nat.eqb_neq. destruct ext; [done |]. simpl. lia. }
  rewrite andb_false_r. cbn [orb andb].
  replace (String.length stem + S (String.length ext) - String.length stem)%nat
    with (String.length ("." +:+ ext))
    by (change (String.length ("." +:+ ext)) with (S (String.length ext)); lia).
  apply substring_suffix.
Qed.

(** *** The decimal text of a number *)

Lemma pretty_N_go_no_slash (x : N) (s : string) :
  Forall Path.no_slash (chars s) -> Forall Path.no_slash (chars (pretty_N_go x s)).
Proof.
  revert s. induction (N.lt_wf_0 x) as [x _ IH]; intros s Hs.
  assert (x = 0 \/ 0 < x)%N as [-> | Hpos] by lia.
  - by rewrite pretty_N_go_0.
  - rewrite pretty_N_go_step by done. apply IH.
    + by apply N.div_lt.
    + cbn [String.list_ascii_of_string]. constructor; [| done].
      unfold Path.no_slash, pretty_N_char. by repeat case_match.
Qed.

Lemma pretty_Z_no_slash (z : Z) : Forall Path.no_slash (chars (pretty z)).
Proof.
  assert (forall n : N, Forall Path.no_slash (chars (pretty n))) as HN.
  { intros n. unfold pretty, pretty_N. case_decide.
    - by repeat constructor.
    - apply pretty_N_go_no_slash. constructor. }
  destruct z as [|p|p]; unfold pretty, pretty_Z.
  - by repeat constructor.
  - apply HN.
  - change (chars ("-" +:+ pretty p)) with ("-"%char :: chars (pretty p)).
    constructor; [done | apply HN].
Qed.

(** A text that goes on, after some character other than the slash,
    with a text without slash does not end in a slash. *)
Lemma stem_last (a b : string) (x : ascii) :
  x <> "/"%char -> Forall Path.no_slash (chars b) ->
  exists c r, rev (chars (a +:+ String x b)) = c :: r /\ c <> "/"%char.
Proof.
  intros Hx Hb. rewrite chars_app. cbn [String.list_ascii_of_string].
  rewrite rev_app_distr. cbn [rev]. rewrite <- !app_assoc. cbn [app].
  destruct (rev (chars b)) as [|c r] eqn:Hrev; cbn [app]; [eauto |].
  exists c, (r ++ x :: rev (chars a))%list. split; [done |].
  apply Forall_rev in Hb. rewrite Hrev in Hb. by apply Forall_cons in Hb as [? _].
Qed.

End TextFacts.

(** ** The tool layer: validation, launches, registry and health *)

Module ToolManagerLaws.

Import ToolManager.

Lemma test_class_inv (class : list ascii) (s : string) :
  Js.test_class class s = true ->
  exists c, In c class /\ In c (String.list_ascii_of_string s).
Proof.
  induction s as [|d s IH]; simpl; [done |].
  rewrite orb_true_iff. intros [Hd | Hs].
  - apply existsb_exists in Hd as (c & Hc & Heq).
    apply Ascii.eqb_eq in Heq as ->. eauto.
  - destruct (IH Hs) as (c & Hc & Hin). eauto.
Qed.

Lemma is_dangerous_false (arg : string) :
  is_dangerous arg = false <-> forall c, metacharacter c -> ~ occurs_in c arg.
Proof.
  split.
  - intros Hd c Hc Hocc.
    by rewrite (ToolManagerFacts.metacharacter_dangerous c arg Hc Hocc) in Hd.
  - intros Hnone. destruct (is_dangerous arg) eqn:Hd; [| done].
    destruct (test_class_inv _ _ Hd) as (c & Hc & Hocc).
    exfalso. apply (Hnone c); [| done].
    unfold dangerous in Hc. simpl in Hc. unfold metacharacter.
    destruct Hc as [<- | [<- | [<- | [<- | [<- | []]]]]]; tauto.
Qed.

Lemma allowed_flag_spec (allowed : list string) (arg : string) :
  allowed_flag allowed arg = true <->
  exists a post, In a allowed /\ Js.split_first arg = a +:+ post.
Proof.
  unfold allowed_flag. rewrite existsb_exists. split.
  - intros (a & Ha & Hpre). apply JsFacts.startsWith_spec in Hpre as [post Hpost]. eauto.
  - intros (a & post & Ha & Hpost). exists a. split; [done |].
    apply JsFacts.startsWith_spec. eauto.
Qed.

(** The two tests that [validateArgs] makes on one argument. *)
Lemma acceptable_spec (allowed : list string) (arg : string) :
  acceptable allowed arg <->
  is_dangerous arg = false /\
  Js.startsWith arg "-" && negb (allowed_flag allowed arg) = false.
Proof.
  unfold acceptable.
  rewrite <- is_dangerous_false, andb_false_iff, negb_false_iff, allowed_flag_spec.
  rewrite <- (not_true_iff_false (Js.startsWith arg "-")), JsFacts.startsWith_spec.
  split; intros [Hd Hflag]; (split; [done |]).
  - destruct (Js.startsWith arg "-") eqn:Hdash.
    + right. apply Hflag. by apply JsFacts.startsWith_spec.
    + left. intros Hpre. apply JsFacts.startsWith_spec in Hpre. congruence.
  - intros Hpre. by destruct Hflag as [Hno | Hyes].
Qed.

Lemma validateArgs_valid_iff (args allowed : list string) :
  valid (validateArgs args allowed) = true <-> Forall (acceptable allowed) args.
Proof.
  induction args as [|arg rest IH]; cbn [validateArgs].
  - split; [by constructor | done].
  - rewrite Forall_cons, acceptable_spec, <- IH.
    destruct (is_dangerous arg); [simpl; split; [done | by intros [[? _] _]] |].
    destruct (Js.startsWith arg "-" && negb (allowed_flag allowed arg));
      [simpl; split; [done | by intros [[_ ?] _]] |].
    tauto.
Qed.

Lemma validateArgs_error (args allowed : list string) :
  valid (validateArgs args allowed) = false ->
  is_Some (v_error (validateArgs args allowed)).
Proof.
  induction args as [|arg rest IH]; cbn [validateArgs]; [done |].
  destruct (is_dangerous arg); [simpl; eauto |].
  destruct (Js.startsWith arg "-" && negb (allowed_flag allowed arg)); [simpl; eauto |].
  done.
Qed.

(** X1.  [validateArgs] accepts an argument list exactly when every
    argument is free of the characters ; & | ` $ and, if it starts
    with a dash, has before its first blank a text that starts with an
    entry of the allow-list.  When it refuses, the error names the
    first argument that fails this, and the arguments before it pass. *)
Theorem validateArgs_accepts_exactly (args allowed : list string) :
  (valid (validateArgs args allowed) = true <-> Forall (acceptable allowed) args) /\
  (valid (validateArgs args allowed) = false ->
   exists before arg after,
     args = (before ++ arg :: after)%list /\
     Forall (acceptable allowed) before /\ ~ acceptable allowed arg /\
     (v_error (validateArgs args allowed)
      = Some ("Argument contains dangerous characters: " +:+ arg) \/
      v_error (validateArgs args allowed) = Some ("Argument not allowed: " +:+ arg))).
Proof.
  split; [apply validateArgs_valid_iff |].
  induction args as [|arg rest IH]; cbn [validateArgs]; [done |].
  destruct (is_dangerous arg) eqn:Hd.
  { intros _. exists [], arg, rest. split; [done |]. split; [by constructor |].
    split; [| by left]. rewrite acceptable_spec. intros [Hd' _]. congruence. }
  destruct (Js.startsWith arg "-" && negb (allowed_flag allowed arg)) eqn:Hflag.
  { intros _. exists [], arg, rest. split; [done |]. split; [by constructor |].
    split; [| by right]. rewrite acceptable_spec. intros [_ Hflag']. congruence. }
  intros Hrest. destruct (IH Hrest) as (before & bad & after & -> & Hbefore & Hbad & Herr).
  exists (arg :: before), bad, after. split; [done |].
  split; [| done]. constructor; [| done]. by apply acceptable_spec.
Qed.

Section Execute.

Context {ParsedData : Type}.
Variable parseOutput : string -> OutputFormat -> string -> ParsedData.
Variable execAsync : string -> Z -> ExecOutcome.

Abbreviation run_executeTool := (executeTool parseOutput execAsync).

(** X2.  [executeTool] launches at most one process, and launches
    one exactly when the tool is configured and every argument passes
    the tests of [validateArgs]; the process is then the shell on the
    command line of [buildCommand], with the timeout of the invocation
    or else of the tool. *)
Theorem executeTool_launches_iff_validated (tools : gmap string ToolConfig)
    (t0 t1 : Z) (e : ToolExecution) :
  let run := run_executeTool tools t0 t1 e in
  (length (snd run) <= 1)%nat /\
  (snd run <> [] <->
   exists cfg, tools !! toolName e = Some cfg /\
               Forall (acceptable (allowedArgs cfg)) (args e)) /\
  (forall l, In l (snd run) ->
     exists cfg, tools !! toolName e = Some cfg /\
                 l = Exec (buildCommand cfg e)
                       (Js.or_number (timeout_override e) (timeout cfg))).
Proof.
  unfold executeTool.
  destruct (tools !! toolName e) as [cfg|] eqn:Htool; cbn [fst snd].
  - destruct (valid (validateArgs (args e) (allowedArgs cfg))) eqn:Hvalid; cbn [negb].
    + apply validateArgs_valid_iff in Hvalid.
      destruct (execAsync _ _); cbn [fst snd length];
        (split; [lia |]); (split; [split; [eauto | done] |]);
        intros l [<- | []]; eauto.
    + cbn [snd length]. split; [lia |]. split; [split; [done |] | by intros l []].
      intros (cfg' & Hcfg' & Hall). injection Hcfg' as <-.
      apply validateArgs_valid_iff in Hall. congruence.
  - cbn [length]. split; [lia |]. split; [| by intros l []].
    split; [done | by intros (cfg & Hcfg & _)].
Qed.

(** X3.  The result of [executeTool] is a success exactly when its
    exit code is 0, which is exactly when a process was launched and
    the shell resolved; a failure never carries exit code 0, always
    carries an error text and never parsed data; and the output of a
    success is the standard output of the launch. *)
Theorem executeTool_exit_code_zero_iff_success (tools : gmap string ToolConfig)
    (t0 t1 : Z) (e : ToolExecution) :
  let r := fst (run_executeTool tools t0 t1 e) in
  (success r = true <-> exitCode r = 0) /\
  (success r = true <->
   exists cfg stderr,
     tools !! toolName e = Some cfg /\
     Forall (acceptable (allowedArgs cfg)) (args e) /\
     execAsync (buildCommand cfg e) (Js.or_number (timeout_override e) (timeout cfg))
     = ExecResolved (output r) stderr) /\
  (success r = false -> is_Some (error r) /\ parsedData r = None) /\
  executionTime r = t1 - t0.
Proof.
  unfold executeTool.
  destruct (tools !! toolName e) as [cfg|] eqn:Htool; cbn [fst snd].
  - destruct (valid (validateArgs (args e) (allowedArgs cfg))) eqn:Hvalid; cbn [negb].
    + pose proof (proj1 (validateArgs_valid_iff _ _) Hvalid) as Hall.
      destruct (execAsync _ _) as [stdout stderr | err] eqn:Hexec;
        cbn [fst success exitCode output error parsedData executionTime].
      * split; [done |]. split; [split; [eauto | done] |]. done.
      * split.
        { split; [done |]. unfold Js.or_number.
          destruct (err_code err) as [n|]; [| done].
          destruct (Z.eqb_spec n 0); [done | lia]. }
        split; [| split; [eauto | done]].
        split; [done |]. intros (cfg' & stderr & Hcfg' & _ & Hres).
        injection Hcfg' as <-. congruence.
    + cbn [fst success exitCode output error parsedData executionTime].
      split; [done |]. split.
      { split; [done |]. intros (cfg' & stderr & Hcfg' & Hall & _).
        injection Hcfg' as <-. apply validateArgs_valid_iff in Hall. congruence. }
      split; [| done]. intros _. split; [by apply validateArgs_error | done].
  - cbn [fst success exitCode output error parsedData executionTime].
    split; [done |]. split; [| split; [eauto | done]].
    split; [done |]. by intros (cfg & stderr & Hcfg & _).
Qed.

(** X4.  After [removeTool] an invocation of the removed tool is
    answered 'not found' with nothing launched, and an invocation of
    any other tool goes as before; [removeTool] reports whether the
    tool was configured; and removing a tool just added under a new
    name gives the registry back as it was. *)
Theorem removeTool_forgets_the_tool (tools : gmap string ToolConfig) (n : string)
    (t0 t1 : Z) (e : ToolExecution) :
  let tools' := snd (removeTool n tools) in
  (fst (removeTool n tools) = true <-> is_Some (getToolConfig n tools)) /\
  (toolName e = n ->
   run_executeTool tools' t0 t1 e
   = (mkToolResult false "" (Some ("Tool " +:+ n +:+ " not found")) (-1) (t1 - t0) None,
      [])) /\
  (toolName e <> n -> run_executeTool tools' t0 t1 e = run_executeTool tools t0 t1 e) /\
  (forall cfg, getToolConfig (name cfg) tools = None ->
               removeTool (name cfg) (addTool cfg tools) = (true, tools)).
Proof.
  unfold removeTool, getToolConfig, addTool. cbn [fst snd].
  split; [apply bool_decide_eq_true |]. split; [| split].
  - intros <-. unfold executeTool. by rewrite lookup_delete_eq.
  - intros Hne. unfold executeTool. by rewrite lookup_delete_ne.
  - intros cfg Hnone. rewrite lookup_insert_eq, delete_insert_eq, delete_id by done.
    done.
Qed.

End Execute.

Section Probe.

Variable execAsync : string -> Z -> ExecOutcome.
Variable trim : string -> string.

Lemma validateTool_available (tools : gmap string ToolConfig) (n : string) :
  st_available (fst (validateTool execAsync trim tools n)) = true <->
  exists cfg out err,
    tools !! n = Some cfg /\
    execAsync (probeCommand cfg) probeTimeout = ExecResolved out err.
Proof.
  unfold validateTool. destruct (tools !! n) as [cfg|]; simpl.
  - destruct (execAsync _ _) as [out err | err] eqn:Hexec; simpl.
    + split; [eauto | done].
    + split; [done |]. intros (cfg' & out & err' & Hcfg & Hres). congruence.
  - split; [done |]. by intros (cfg & out & err & Hcfg & _).
Qed.

(** X5.  [getHealthStatus] reports a status for every configured tool
    but one of the name [__proto__], and for no other name, each the
    result of [validateTool] on that name; the overall status is
    healthy exactly when the probe 'command --version' resolves for
    every configured tool of another name than [__proto__] (so also
    for an empty registry), and degraded otherwise. *)
Theorem getHealthStatus_healthy_iff_reported_probes_resolve
    (tools : gmap string ToolConfig) :
  let h := getHealthStatus execAsync trim tools in
  (forall n, h_tools h !! n
             = if String.eqb n "__proto__" then None
               else (fun _ => fst (validateTool execAsync trim tools n)) <$> tools !! n) /\
  (h_status h = "healthy" <->
   forall n cfg, tools !! n = Some cfg -> n <> "__proto__" ->
     exists out err, execAsync (probeCommand cfg) probeTimeout = ExecResolved out err) /\
  (h_status h <> "healthy" -> h_status h = "degraded").
Proof.
  unfold getHealthStatus. cbn [h_tools h_status].
  assert (forall n, map_imap (fun n _ => Some (fst (validateTool execAsync trim tools n)))
                      (delete "__proto__" tools) !! n
                    = if String.eqb n "__proto__" then None
                      else (fun _ => fst (validateTool execAsync trim tools n))
                             <$> tools !! n)
    as Hlookup.
  { intros n. rewrite map_lookup_imap.
    destruct (String.eqb_spec n "__proto__") as [-> | Hne].
    - by rewrite lookup_delete_eq.
    - rewrite lookup_delete_ne by done. by destruct (tools !! n). }
  split; [exact Hlookup |]. split.
  - case_bool_decide as Hall.
    + split; [intros _ | done]. intros n cfg Hcfg Hne.
      specialize (Hall n (fst (validateTool execAsync trim tools n))).
      rewrite Hlookup, Hcfg, (proj2 (String.eqb_neq _ _) Hne) in Hall.
      specialize (Hall eq_refl).
      apply validateTool_available in Hall as (cfg' & out & err & Hcfg' & Hres).
      rewrite Hcfg in Hcfg'. injection Hcfg' as <-. eauto.
    + split; [done |]. intros Hres. exfalso. apply Hall. intros n st Hst.
      rewrite Hlookup in Hst.
      destruct (String.eqb_spec n "__proto__") as [-> | Hne]; [done |].
      destruct (tools !! n) as [cfg|] eqn:Hcfg; [| done]. injection Hst as <-.
      apply validateTool_available.
      destruct (Hres n cfg Hcfg Hne) as (out & err & Hexec). eauto 6.
  - case_bool_decide; [done | by intros _].
Qed.

End Probe.

(** The probe of the four tools of the start-up registry on a machine
    that has only nmap and dirb: degraded, with sqlmap and nikto
    reported unavailable. *)
Example health_with_two_tools_installed :
  let h := getHealthStatus (shell_with ["nmap"; "dirb"]) id initializeDefaultTools in
  h_status h = "degraded" /\
  st_available <$> h_tools h !! "nmap" = Some true /\
  st_available <$> h_tools h !! "sqlmap" = Some false /\
  h_status (getHealthStatus (shell_with []) id ∅) = "healthy".
Proof. vm_compute. done. Qed.

(** A tool registered under the name [__proto__] whose command is not
    installed leaves the status healthy. *)
Example health_overlooks_proto :
  let tools := addTool (mkToolConfig "__proto__" "masscan" "1.3" 300000 [] text) ∅ in
  let h := getHealthStatus (shell_with []) id tools in
  st_available (fst (validateTool (shell_with []) id tools "__proto__")) = false /\
  h_status h = "healthy" /\ h_tools h = ∅.
Proof. vm_compute. done. Qed.

End ToolManagerLaws.

(** ** The sandbox: generation, launches, verdicts and clean-up *)

Module POCManagerLaws.

Import POCManager.

(** A text that contains [big] contains every part of [big]. *)
Lemma contains_part (stdout big token : string) :
  contains stdout big -> contains big token -> contains stdout token.
Proof.
  intros (pre & post & ->) (pre' & post' & ->).
  exists (pre +:+ pre'), (post' +:+ post). by rewrite !TextFacts.append_assoc.
Qed.

Lemma vocabulary_cases (language : string) (vocab : list string) :
  vocabulary language = Some vocab ->
  (Js.toLowerCase language = "python" /\ vocab = python_indicators) \/
  (Js.toLowerCase language = "javascript" /\ vocab = javascript_indicators) \/
  ((Js.toLowerCase language = "bash" \/ Js.toLowerCase language = "shell") /\
   vocab = shell_indicators).
Proof.
  unfold vocabulary.
  destruct (String.eqb_spec (Js.toLowerCase language) "python") as [-> | _].
  { intros [= <-]. by left. }
  destruct (String.eqb_spec (Js.toLowerCase language) "javascript") as [-> | _].
  { intros [= <-]. right. by left. }
  destruct (String.eqb_spec (Js.toLowerCase language) "bash") as [-> | _].
  { intros [= <-]. right. right. split; [by left | done]. }
  destruct (String.eqb_spec (Js.toLowerCase language) "shell") as [-> | _].
  { intros [= <-]. right. right. split; [by right | done]. }
  done.
Qed.

Section Generate.

Variable sqlInjectionCode xssCode commandInjectionCode genericCode : string.

Abbreviation run_generatePOCCode :=
  (generatePOCCode sqlInjectionCode xssCode commandInjectionCode genericCode).

Lemma generatePOCCode_language (v : VulnerabilityInfo) (g : GeneratedPOC) :
  run_generatePOCCode v = inl g ->
  (g_language g = "javascript" /\ Js.toLowerCase (vi_type v) = "xss") \/
  (g_language g = "python" /\ Js.toLowerCase (vi_type v) <> "xss").
Proof.
  unfold generatePOCCode. cbv zeta.
  destruct (String.eqb_spec (Js.toLowerCase (vi_type v)) "sql_injection") as [-> | _].
  { intros [= <-]. by right. }
  destruct (String.eqb_spec (Js.toLowerCase (vi_type v)) "xss") as [-> | Hxss].
  { intros [= <-]. by left. }
  repeat match goal with
         | |- context [String.eqb ?a ?b] => destruct (String.eqb a b)
         end; intros [= <-]; by right.
Qed.

(** X6.  [generatePOCCode] throws for exactly the five types
    file_inclusion, xxe, ssrf, idor and brute_force (in any letter
    case), whose generator methods the class calls but does not
    define; for every other type it returns code that is declared as
    javascript when the type is xss and as python otherwise, so the
    shell runner is never asked for by generated code. *)
Theorem generatePOCCode_throws_for_five_types (v : VulnerabilityInfo) :
  (In (Js.toLowerCase (vi_type v)) undefined_generators <->
   exists message, run_generatePOCCode v = inr message) /\
  (forall g, run_generatePOCCode v = inl g ->
     (g_language g = "javascript" <-> Js.toLowerCase (vi_type v) = "xss") /\
     (g_language g <> "javascript" -> g_language g = "python") /\
     vocabulary (g_language g)
     = Some (if String.eqb (Js.toLowerCase (vi_type v)) "xss"
             then javascript_indicators else python_indicators)).
Proof.
  split.
  - unfold generatePOCCode, undefined_generators. cbv zeta. cbn [In].
    destruct (String.eqb_spec (Js.toLowerCase (vi_type v)) "sql_injection") as [-> | ?].
    { split; [intros [?|[?|[?|[?|[?|[]]]]]]; done | by intros [m ?]]. }
    destruct (String.eqb_spec (Js.toLowerCase (vi_type v)) "xss") as [-> | ?].
    { split; [intros [?|[?|[?|[?|[?|[]]]]]]; done | by intros [m ?]]. }
    destruct (String.eqb_spec (Js.toLowerCase (vi_type v)) "command_injection")
      as [-> | ?].
    { split; [intros [?|[?|[?|[?|[?|[]]]]]]; done | by intros [m ?]]. }
    destruct (String.eqb_spec (Js.toLowerCase (vi_type v)) "file_inclusion") as [-> | ?].
    { split; [eauto | tauto]. }
    destruct (String.eqb_spec (Js.toLowerCase (vi_type v)) "xxe") as [-> | ?].
    { split; [eauto | tauto]. }
    destruct (String.eqb_spec (Js.toLowerCase (vi_type v)) "ssrf") as [-> | ?].
    { split; [eauto | tauto]. }
    destruct (String.eqb_spec (Js.toLowerCase (vi_type v)) "idor") as [-> | ?].
    { split; [eauto | tauto]. }
    destruct (String.eqb_spec (Js.toLowerCase (vi_type v)) "brute_force") as [-> | ?].
    { split; [eauto | tauto]. }
    split; [intros [?|[?|[?|[?|[?|[]]]]]]; congruence | by intros [m ?]].
  - intros g Hg.
    destruct (generatePOCCode_language v g Hg) as [[Hl Ht] | [Hl Ht]]; rewrite Hl.
    + rewrite Ht. done.
    + rewrite (proj2 (String.eqb_neq _ _) Ht). done.
Qed.

End Generate.

Section Execute.

Variable path_join : string -> string -> string.
Variable pocStoragePath sandboxPath : string.
Variable spawn : ProcessLaunch -> ChildOutcome.
Variable writeFile_error : string -> option string.

Abbreviation run_executePOC :=
  (executePOC path_join pocStoragePath sandboxPath spawn writeFile_error).
Abbreviation the_codeFilePath := (codeFilePath path_join pocStoragePath).

(** The launch of a job, by the language it declares. *)
Lemma executePOC_launches (fs : gmap string string) (t0 t1 : Z) (e : POCExecution) :
  writeFile_error (the_codeFilePath e) = None ->
  snd (run_executePOC fs t0 t1 e)
  = (if String.eqb (Js.toLowerCase (language e)) "javascript"
     then [javascriptLaunch sandboxPath (the_codeFilePath e) e]
     else []).
Proof.
  intros Hwrite. unfold executePOC. rewrite Hwrite. cbv zeta.
  destruct (String.eqb_spec (Js.toLowerCase (language e)) "python") as [-> | _]; [done |].
  by repeat match goal with
            | |- context [if ?b then _ else _] => destruct b
            end.
Qed.

(** The result when no child is started. *)
Lemma executePOC_without_child (fs : gmap string string) (t0 t1 : Z) (e : POCExecution) :
  snd (run_executePOC fs t0 t1 e) = [] ->
  exists message,
    fst (fst (run_executePOC fs t0 t1 e)) = rejected message (t1 - t0).
Proof.
  unfold executePOC. cbv zeta.
  destruct (writeFile_error (the_codeFilePath e)) as [message|]; [eauto |].
  destruct (String.eqb (Js.toLowerCase (language e)) "python"); [eauto |].
  destruct (String.eqb (Js.toLowerCase (language e)) "javascript"); [done |].
  destruct (String.eqb (Js.toLowerCase (language e)) "bash"
            || String.eqb (Js.toLowerCase (language e)) "shell"); eauto.
Qed.

(** X7.  [executePOC] starts at most one child, and starts one exactly
    when the code file was written and the declared language is
    javascript (in any letter case); for python, bash and shell, which
    the switch accepts as well, none is started.  The child is node,
    started with [spawn], without a shell, on the path of the code file
    and, when there is one, the target; the code itself is passed in
    the file.  When no child is started the result is unsuccessful and
    unconfirmed, with reliability 0 and an error. *)
Theorem executePOC_launches_iff_javascript (fs : gmap string string) (t0 t1 : Z)
    (e : POCExecution) :
  let run := run_executePOC fs t0 t1 e in
  (length (snd run) <= 1)%nat /\
  (snd run <> [] <->
   writeFile_error (the_codeFilePath e) = None /\
   Js.toLowerCase (language e) = "javascript") /\
  (forall l, In l (snd run) ->
     exists rest,
       l = Spawn "node" (the_codeFilePath e :: rest) (effective_timeout e) sandboxPath [] /\
       Forall (fun a => a = target e) rest) /\
  (snd run = [] ->
   success (fst (fst run)) = false /\ vulnerabilityConfirmed (fst (fst run)) = false /\
   reliabilityScore (fst (fst run)) = 0 /\ is_Some (error (fst (fst run)))).
Proof.
  cbv zeta.
  assert (snd (run_executePOC fs t0 t1 e) = [] ->
          success (fst (fst (run_executePOC fs t0 t1 e))) = false /\
          vulnerabilityConfirmed (fst (fst (run_executePOC fs t0 t1 e))) = false /\
          reliabilityScore (fst (fst (run_executePOC fs t0 t1 e))) = 0 /\
          is_Some (error (fst (fst (run_executePOC fs t0 t1 e))))) as Hnone.
  { intros Hempty. destruct (executePOC_without_child fs t0 t1 e Hempty) as [m ->].
    simpl. eauto. }
  destruct (writeFile_error (the_codeFilePath e)) as [message|] eqn:Hwrite.
  { assert (snd (run_executePOC fs t0 t1 e) = []) as Hempty
      by (unfold executePOC; by rewrite Hwrite).
    rewrite Hempty in *. cbn [length].
    split; [lia |]. split; [split; [done | by intros [? _]] |].
    split; [by intros l [] | done]. }
  rewrite (executePOC_launches fs t0 t1 e Hwrite) in *.
  destruct (String.eqb_spec (Js.toLowerCase (language e)) "javascript") as [Hjs | Hjs].
  - cbn [length]. split; [lia |]. split; [done |]. split; [| done].
    intros l [<- | []]. unfold javascriptLaunch. eexists. split; [reflexivity |].
    destruct (String.eqb (target e) ""); repeat constructor.
  - cbn [length]. split; [lia |]. split; [split; [done | by intros [_ ?]] |].
    split; [by intros l [] | done].
Qed.

(** X8.  The analysis looks for the indicator anywhere in the
    output, also after a negation: when the child of a javascript job
    prints a line with the words of the negative verdict of the
    generated scripts, 未检测到 (not detected), the result is confirmed
    with reliability 80, since 检测到 (detected) is an indicator of the
    language. *)
Theorem executePOC_confirms_negated_verdict (fs : gmap string string) (t0 t1 : Z)
    (e : POCExecution) (code : option Z) (stdout stderr : string) :
  Js.toLowerCase (language e) = "javascript" ->
  writeFile_error (the_codeFilePath e) = None ->
  spawn (javascriptLaunch sandboxPath (the_codeFilePath e) e)
  = Closed code stdout stderr ->
  contains stdout "未检测到" ->
  let r := fst (fst (run_executePOC fs t0 t1 e)) in
  vulnerabilityConfirmed r = true /\ reliabilityScore r = 80 /\ output r = stdout.
Proof.
  intros Hlang Hwrite Hclosed Hneg.
  assert (contains stdout "检测到") as Hpos.
  { apply (contains_part stdout "未检测到"); [done |]. by exists "未", "". }
  destruct (POCManagerFacts.executePOC_javascript_confirms_by_stdout path_join
              pocStoragePath sandboxPath spawn writeFile_error fs t0 t1 e code stdout
              stderr Hlang Hwrite Hclosed) as (_ & Hout & Hconf & Hscore).
  cbv zeta.
  assert (vulnerabilityConfirmed (fst (fst (run_executePOC fs t0 t1 e))) = true) as Hyes.
  { apply Hconf. exists "检测到". split; [simpl; tauto | done]. }
  by rewrite Hscore, Hyes.
Qed.

(** X9.  What becomes of generated code: for a finding whose code
    [generatePOCCode] returns, the job that the orchestrator builds
    from it stores the generated code under the path of the code file.
    For the type xss the code is javascript, and one child, node, is
    started on that path and the target of the task, with a timeout
    of 30 seconds.  For every other type the code is python, and it is
    never run: no child is started, and the result is unconfirmed with
    reliability 0. *)
Theorem generated_code_runs_only_for_xss
    (sqlInjectionCode xssCode commandInjectionCode genericCode : string)
    (v : VulnerabilityInfo) (g : GeneratedPOC) (pocId taskTarget : string)
    (fs : gmap string string) (t0 t1 : Z) :
  generatePOCCode sqlInjectionCode xssCode commandInjectionCode genericCode v = inl g ->
  let e := verification_job pocId v g taskTarget in
  writeFile_error (the_codeFilePath e) = None ->
  let run := run_executePOC fs t0 t1 e in
  snd (fst run) !! the_codeFilePath e = Some (g_code g) /\
  In (g_code g) [sqlInjectionCode; xssCode; commandInjectionCode; genericCode] /\
  (Js.toLowerCase (vi_type v) = "xss" ->
   snd run
   = [Spawn "node"
        (the_codeFilePath e :: (if String.eqb taskTarget "" then [] else [taskTarget]))
        30000 sandboxPath []]) /\
  (Js.toLowerCase (vi_type v) <> "xss" ->
   snd run = [] /\
   fst (fst run)
   = mkPOCResult false false "" (Some process_before_initialization) (t1 - t0) 0).
Proof.
  intros Hg e Hwrite. cbv zeta.
  assert (snd (fst (run_executePOC fs t0 t1 e)) !! the_codeFilePath e = Some (g_code g))
    as Hfile.
  { unfold executePOC. rewrite Hwrite. cbv zeta.
    repeat match goal with
           | |- context [if ?b then _ else _] => destruct b
           end; cbn [fst snd]; by rewrite lookup_insert_eq. }
  assert (In (g_code g) [sqlInjectionCode; xssCode; commandInjectionCode; genericCode])
    as Hcode.
  { revert Hg. unfold generatePOCCode. cbv zeta.
    repeat match goal with
           | |- context [String.eqb ?a ?b] => destruct (String.eqb a b)
           end; intros [= <-]; simpl; tauto. }
  split; [done |]. split; [done |].
  destruct (generatePOCCode_language _ _ _ _ v g Hg) as [[Hl Ht] | [Hl Ht]].
  - split; [intros _ | done].
    rewrite (executePOC_launches fs t0 t1 e Hwrite).
    subst e. cbn [language verification_job]. rewrite Hl. reflexivity.
  - split; [done | intros _].
    unfold executePOC. cbv zeta. rewrite Hwrite.
    subst e. cbn [language verification_job]. rewrite Hl. done.
Qed.

End Execute.

Section Cleanup.

Variable path_join : string -> string -> string.
Variable pocStoragePath : string.

Abbreviation path_of := (path_join pocStoragePath).

(** With the listed files in place under distinct paths, the loop of
    [unlink] calls removes every one of them and nothing else. *)
Lemma unlink_each_lookup (files : list string) (fs : gmap string string) (p : string) :
  NoDup (map path_of files) ->
  (forall file, In file files -> is_Some (fs !! path_of file)) ->
  unlink_each path_join pocStoragePath files fs !! p
  = if decide (p ∈ map path_of files) then None else fs !! p.
Proof.
  revert fs. induction files as [|file rest IH]; intros fs Hdistinct Hthere.
  { cbn [unlink_each map]. case_decide as Hin; [by apply elem_of_nil in Hin | done]. }
  cbn [unlink_each map] in *. apply NoDup_cons in Hdistinct as [Hfresh Hdistinct].
  destruct (Hthere file (or_introl eq_refl)) as [content Hcontent].
  rewrite Hcontent, IH; [| done |].
  - destruct (decide (p = path_of file)) as [-> | Hne].
    + rewrite (decide_True (P := path_of file ∈ path_of file :: map path_of rest))
        by apply list_elem_of_here.
      case_decide; [done | by rewrite lookup_delete_eq].
    + rewrite lookup_delete_ne by done.
      case_decide as Hin.
      * by rewrite decide_True by (by apply list_elem_of_further).
      * rewrite decide_False; [done |].
        intros Hin'. apply elem_of_cons in Hin' as [? | ?]; done.
  - intros other Hother. rewrite lookup_delete_ne; [by apply Hthere; right |].
    intros Heq. apply Hfresh. rewrite Heq. by apply list_elem_of_In, in_map.
Qed.

Lemma NoDup_map_filter (keep : string -> bool) (files : list string) :
  NoDup (map path_of files) -> NoDup (map path_of (List.filter keep files)).
Proof.
  induction files as [|file rest IH]; simpl; [done |].
  rewrite NoDup_cons. intros [Hfresh Hrest].
  destruct (keep file); simpl; [| by apply IH].
  apply NoDup_cons. split; [| by apply IH].
  intros Hin. apply Hfresh.
  apply list_elem_of_In, in_map_iff in Hin as (other & Heq & Hother).
  apply list_elem_of_In, in_map_iff. exists other. split; [done |].
  by apply List.filter_In in Hother as [? _].
Qed.

Variable sandboxPath : string.
Variable spawn : ProcessLaunch -> ChildOutcome.
Variable writeFile_error : string -> option string.

(** X10.  [cleanupPOC] after [executePOC]: with the listing of the
    storage directory naming files that are there, under distinct
    paths, and among them the code file of the job, the clean-up for
    the id of the job removes the code file, and with it every listed
    file whose name contains the id anywhere; every other path, listed
    or not, is left as it was. *)
Theorem cleanupPOC_removes_the_code_file (fs : gmap string string) (t0 t1 : Z)
    (e : POCExecution) (files : list string) :
  writeFile_error (codeFilePath path_join pocStoragePath e) = None ->
  let stored :=
    snd (fst (executePOC path_join pocStoragePath sandboxPath spawn writeFile_error
                fs t0 t1 e)) in
  In (codeFileName e) files ->
  NoDup (map path_of files) ->
  (forall file, In file files -> is_Some (stored !! path_of file)) ->
  let cleaned := cleanupPOC path_join pocStoragePath (Some files) (id e) stored in
  stored !! codeFilePath path_join pocStoragePath e = Some (code e) /\
  cleaned !! codeFilePath path_join pocStoragePath e = None /\
  (forall file, In file files -> Js.includes file (id e) = true ->
                cleaned !! path_of file = None) /\
  (forall p, (forall file, In file files -> Js.includes file (id e) = true ->
                           p <> path_of file) ->
             cleaned !! p = stored !! p).
Proof.
  intros Hwrite stored Hlisted Hdistinct Hthere cleaned.
  set (pocFiles := List.filter (fun file => Js.includes file (id e)) files).
  assert (forall p, cleaned !! p
                    = if decide (p ∈ map path_of pocFiles) then None else stored !! p)
    as Hlookup.
  { intros p. subst cleaned. unfold cleanupPOC. cbv zeta. fold pocFiles.
    apply unlink_each_lookup; [by apply NoDup_map_filter |].
    intros file Hfile. apply Hthere. by apply List.filter_In in Hfile as [? _]. }
  assert (forall file, In file files -> Js.includes file (id e) = true ->
                       cleaned !! path_of file = None) as Hremoved.
  { intros file Hfile Hinc. rewrite Hlookup, decide_True; [done |].
    apply list_elem_of_In, in_map, List.filter_In. by split. }
  split; [| split; [| split; [exact Hremoved |]]].
  - subst stored. unfold executePOC. rewrite Hwrite. cbv zeta.
    repeat match goal with
           | |- context [if ?b then _ else _] => destruct b
           end; cbn [fst snd]; by rewrite lookup_insert_eq.
  - apply (Hremoved (codeFileName e) Hlisted).
    apply JsFacts.includes_spec. unfold codeFileName.
    exists "poc_", ("." +:+ getFileExtension (language e)). done.
  - intros p Hother. rewrite Hlookup, decide_False; [done |].
    intros Hin. apply list_elem_of_In, in_map_iff in Hin as (file & <- & Hfile).
    apply List.filter_In in Hfile as [Hfile Hinc].
    by apply (Hother file).
Qed.

End Cleanup.

(** X8 at a javascript job whose child prints the negative verdict of
    the XSS script and exits with 0. *)
Lemma executePOC_confirms_negated_verdict_witness :
  let r := fst (fst (executePOC slash_join "poc-codes" "sandbox" negative_child
                       no_write_error ∅ 0 5 javascript_job)) in
  vulnerabilityConfirmed r = true /\ reliabilityScore r = 80 /\
  output r = negative_verdict.
Proof.
  apply (executePOC_confirms_negated_verdict slash_join "poc-codes" "sandbox"
           negative_child no_write_error ∅ 0 5 javascript_job (Some 0) negative_verdict
           "").
  - reflexivity.
  - reflexivity.
  - reflexivity.
  - exists "[*] 漏洞验证结果: ", "XSS漏洞". reflexivity.
Defined.

(** X9 at a finding of type sql_injection for the target example.com:
    the python program is stored and not run. *)
Lemma generated_code_runs_only_for_xss_witness :
  let g := generateSQLInjectionPOC "import requests" sql_finding in
  let e := verification_job "p3" sql_finding g "example.com" in
  let run := executePOC slash_join "poc-codes" "sandbox" stub_child no_write_error
               ∅ 0 5 e in
  snd (fst run) !! codeFilePath slash_join "poc-codes" e = Some (g_code g) /\
  In (g_code g) ["import requests"; "console.log(1)"; "import os"; "import json"] /\
  (Js.toLowerCase (vi_type sql_finding) = "xss" ->
   snd run
   = [Spawn "node"
        (codeFilePath slash_join "poc-codes" e
           :: (if String.eqb "example.com" "" then [] else ["example.com"]))
        30000 "sandbox" []]) /\
  (Js.toLowerCase (vi_type sql_finding) <> "xss" ->
   snd run = [] /\
   fst (fst run)
   = mkPOCResult false false "" (Some process_before_initialization) (5 - 0) 0).
Proof.
  apply (generated_code_runs_only_for_xss slash_join "poc-codes" "sandbox" stub_child
           no_write_error "import requests" "console.log(1)" "import os" "import json"
           sql_finding (generateSQLInjectionPOC "import requests" sql_finding) "p3"
           "example.com" ∅ 0 5).
  - reflexivity.
  - reflexivity.
Defined.

(** The code generated for a finding of type XSS is run by node. *)
Example generated_xss_code_is_run :
  let e := verification_job "p3" xss_finding
             (generateXSSPOC "console.log(1)" xss_finding) "example.com" in
  snd (executePOC slash_join "poc-codes" "sandbox" stub_child no_write_error ∅ 0 5 e)
  = [Spawn "node" ["poc-codes/poc_p3.js"; "example.com"] 30000 "sandbox" []].
Proof. vm_compute. reflexivity. Qed.

(** X10 at the stub job, with the code of another job in the same
    directory. *)
Lemma cleanupPOC_removes_the_code_file_witness :
  let fs : gmap string string := {[ "poc-codes/poc_p9.js" := "console.log(9)" ]} in
  let files := ["poc_p1.py"; "poc_p9.js"] in
  let stored :=
    snd (fst (executePOC slash_join "poc-codes" "sandbox" stub_child no_write_error
                fs 0 5 stub_job)) in
  let cleaned := cleanupPOC slash_join "poc-codes" (Some files) (id stub_job) stored in
  stored !! codeFilePath slash_join "poc-codes" stub_job = Some (code stub_job) /\
  cleaned !! codeFilePath slash_join "poc-codes" stub_job = None /\
  (forall file, In file files -> Js.includes file (id stub_job) = true ->
                cleaned !! slash_join "poc-codes" file = None) /\
  (forall p, (forall file, In file files -> Js.includes file (id stub_job) = true ->
                           p <> slash_join "poc-codes" file) ->
             cleaned !! p = stored !! p).
Proof.
  apply (cleanupPOC_removes_the_code_file slash_join "poc-codes" "sandbox" stub_child
           no_write_error {[ "poc-codes/poc_p9.js" := "console.log(9)" ]} 0 5 stub_job
           ["poc_p1.py"; "poc_p9.js"]).
  - reflexivity.
  - simpl. tauto.
  - apply (bool_decide_unpack _). vm_compute. exact I.
  - intros file [<- | [<- | []]]; vm_compute; eauto.
Defined.

(** The file of the other job is still there after the clean-up. *)
Example cleanupPOC_keeps_other_jobs :
  let stored :=
    snd (fst (executePOC slash_join "poc-codes" "sandbox" stub_child no_write_error
                {[ "poc-codes/poc_p9.js" := "console.log(9)" ]} 0 5 stub_job)) in
  cleanupPOC slash_join "poc-codes" (Some ["poc_p1.py"; "poc_p9.js"]) "p1" stored
  = {[ "poc-codes/poc_p9.js" := "console.log(9)" ]}.
Proof. vm_compute. reflexivity. Qed.

End POCManagerLaws.

(** ** Reports: the file written, the names read back, removal *)

Module ReportGeneratorLaws.

Import ReportGenerator TextFacts.

(** The name of a stored report read back: the report id, when it has
    no underscore, and the extension. *)
Lemma reportFileName_split (reportId : string) (now : Z) (ext : string) :
  ~ has_char "_"%char reportId ->
  Js.split "_"%char (reportFileName reportId now ext) !! 1%nat = Some reportId.
Proof.
  intros Hid. unfold reportFileName.
  change ("report_" +:+ reportId +:+ "_" +:+ pretty now +:+ "." +:+ ext)
    with ("report" +:+ String "_"%char
            (reportId +:+ String "_"%char (pretty now +:+ "." +:+ ext))).
  rewrite split_first_piece.
  - by rewrite split_first_piece.
  - unfold has_char. simpl. intros [H | [H | [H | [H | [H | [H | []]]]]]]; done.
Qed.

Lemma reportFileName_extname (reportId : string) (now : Z) (ext : string) :
  In ext ["html"; "json"; "pdf"] ->
  Js.slice 1 (Path.extname (reportFileName reportId now ext)) = ext.
Proof.
  intros Hext. unfold reportFileName.
  destruct (stem_last ("report_" +:+ reportId) (pretty now) "_"%char)
    as (c & r & Hrev & Hc); [done | apply pretty_Z_no_slash |].
  change ("report_" +:+ reportId +:+ "_" +:+ pretty now +:+ "." +:+ ext)
    with ("report_" +:+ (reportId +:+ (String "_"%char (pretty now +:+ ("." +:+ ext))))).
  replace ("report_" +:+ (reportId +:+ String "_"%char (pretty now +:+ ("." +:+ ext))))
    with ((("report_" +:+ reportId) +:+ String "_"%char (pretty now)) +:+ "." +:+ ext).
  - rewrite (extname_stem_ext _ ext c r Hrev Hc).
    + done.
    + destruct Hext as [<- | [<- | [<- | []]]]; done.
    + destruct Hext as [<- | [<- | [<- | []]]]; repeat constructor; done.
  - by rewrite !append_assoc.
Qed.

Section Generate.

Context {ReportData : Type}.
Variable fill_template : string -> ReportData -> string.
Variable stringify : ReportData -> string.
Variable path_join : string -> string -> string.
Variable reportStoragePath templatePath : string.
Variable writeFile_error : string -> option string.

Abbreviation run_generateReport :=
  (generateReport fill_template stringify path_join reportStoragePath templatePath
     writeFile_error).
Abbreviation the_render := (render fill_template stringify path_join templatePath).

Lemma render_extension (fs : gmap string string) (cfg : ReportConfig) (d : ReportData)
    (content ext : string) :
  the_render fs cfg d = inl (content, ext) ->
  ext = format cfg /\ In ext ["html"; "json"; "pdf"] /\
  (ext = "json" -> content = stringify d) /\
  (ext <> "json" ->
   exists template, fs !! path_join templatePath "default.html" = Some template /\
                    content = fill_template template d).
Proof.
  unfold render, generateHTMLReport, generateJSONReport.
  destruct (String.eqb_spec (format cfg) "html") as [-> | _].
  { destruct (fs !! _) as [template|]; [| done]. intros [= <- <-].
    split; [done |]. split; [simpl; tauto |]. split; [done | eauto]. }
  destruct (String.eqb_spec (format cfg) "json") as [-> | _].
  { intros [= <- <-]. split; [done |]. split; [simpl; tauto |]. done. }
  destruct (String.eqb_spec (format cfg) "pdf") as [-> | _]; [| done].
  destruct (fs !! _) as [template|]; [| done]. intros [= <- <-].
  split; [done |]. split; [simpl; tauto |]. split; [done | eauto].
Qed.

(** A success has stored the report under the name made of the report
    id, the time and the format. *)
Lemma generateReport_stored (fs : gmap string string) (reportId : string)
    (now : Z) (cfg : ReportConfig) (d : ReportData) :
  let run := run_generateReport fs reportId now cfg d in
  success (fst run) = true ->
  filePath (fst run)
  = path_join reportStoragePath (reportFileName reportId now (format cfg)) /\
  exists content, snd run = <[filePath (fst run) := content]> fs.
Proof.
  unfold generateReport.
  destruct (the_render fs cfg d) as [[content ext] | message] eqn:Hrender; [| done].
  destruct (render_extension fs cfg d content ext Hrender) as (-> & _).
  fold (reportFileName reportId now (format cfg)).
  destruct (writeFile_error _) as [message|]; cbn; [done |]. eauto.
Qed.

(** X11.  [generateReport] touches at most one file.  A failure
    leaves the file system as it was and returns an empty path, size 0
    and an error text; a success has written exactly the file it
    names, which is [report_<id>_<time>.<format>] in the storage
    directory with the format html, json or pdf of the request, and
    the size it returns is the length of the text stored there. *)
Theorem generateReport_changes_one_file (fs : gmap string string) (reportId : string)
    (now : Z) (cfg : ReportConfig) (d : ReportData) :
  let run := run_generateReport fs reportId now cfg d in
  ReportGenerator.reportId (fst run) = reportId /\
  (success (fst run) = false ->
   snd run = fs /\ filePath (fst run) = "" /\ fileSize (fst run) = 0 /\
   is_Some (error (fst run))) /\
  (success (fst run) = true ->
   In (format cfg) ["html"; "json"; "pdf"] /\
   filePath (fst run)
   = path_join reportStoragePath (reportFileName reportId now (format cfg)) /\
   error (fst run) = None /\
   exists content,
     snd run = <[filePath (fst run) := content]> fs /\
     fileSize (fst run) = Z.of_nat (String.length content)).
Proof.
  unfold generateReport.
  destruct (the_render fs cfg d) as [[content ext] | message] eqn:Hrender.
  - destruct (render_extension fs cfg d content ext Hrender) as (-> & Hext & _).
    fold (reportFileName reportId now (format cfg)).
    destruct (writeFile_error _) as [message|]; cbn.
    + split; [done |]. split; [eauto | done].
    + split; [done |]. split; [done |]. intros _. eauto 7.
  - cbn. split; [done |]. split; [eauto | done].
Qed.

(** X12.  [generateReport] succeeds exactly when the write of the
    report file is accepted and either the format is json, which reads
    no template, or the format is html or pdf and the template
    default.html is in place; the report of format json is the
    serialisation of the data, whatever the templates. *)
Theorem generateReport_succeeds_iff (fs : gmap string string) (reportId : string)
    (now : Z) (cfg : ReportConfig) (d : ReportData) :
  let run := run_generateReport fs reportId now cfg d in
  let path := path_join reportStoragePath (reportFileName reportId now (format cfg)) in
  (success (fst run) = true <->
   writeFile_error path = None /\
   (format cfg = "json" \/
    (format cfg = "html" \/ format cfg = "pdf") /\
    is_Some (fs !! path_join templatePath "default.html"))) /\
  (success (fst run) = true -> format cfg = "json" ->
   snd run !! path = Some (stringify d)).
Proof.
  unfold generateReport, render, generateHTMLReport, generateJSONReport.
  fold (reportFileName reportId now "html") (reportFileName reportId now "json")
    (reportFileName reportId now "pdf").
  destruct (String.eqb_spec (format cfg) "html") as [Hfmt | Hhtml].
  { rewrite Hfmt. destruct (fs !! _) as [template|]; cbn.
    - destruct (writeFile_error _); cbn.
      + split; [split; [done | by intros [? _]] | done].
      + split; [split; [eauto 6 | done] | done].
    - split; [| done]. split; [done |].
      intros [_ [? | [_ [? ?]]]]; done. }
  destruct (String.eqb_spec (format cfg) "json") as [Hfmt | Hjson].
  { rewrite Hfmt. destruct (writeFile_error _); cbn.
    - split; [split; [done | by intros [? _]] | done].
    - split; [split; [eauto | done] |]. intros _ _. by rewrite lookup_insert_eq. }
  destruct (String.eqb_spec (format cfg) "pdf") as [Hfmt | Hpdf].
  { rewrite Hfmt. destruct (fs !! _) as [template|]; cbn.
    - destruct (writeFile_error _); cbn.
      + split; [split; [done | by intros [? _]] | done].
      + split; [split; [eauto 6 | done] | done].
    - split; [| done]. split; [done |].
      intros [_ [? | [_ [? ?]]]]; done. }
  cbn. split; [| done]. split; [done |].
  intros [_ [? | [[? | ?] _]]]; done.
Qed.

End Generate.

Section Stored.

Variable path_join : string -> string -> string.
Variable reportStoragePath : string.
Variable stat : string -> option Stats.

Abbreviation the_reportEntry := (reportEntry path_join reportStoragePath stat).
Abbreviation the_reportEntries := (reportEntries path_join reportStoragePath stat).
Abbreviation the_getReportsList := (getReportsList path_join reportStoragePath stat).

Lemma insert_newest_first_perm (x : ReportEntry) (l : list ReportEntry) :
  insert_newest_first x l ≡ₚ x :: l.
Proof.
  induction l as [|y rest IH]; simpl; [done |].
  destruct (e_createdAt y <=? e_createdAt x)%Z; [done |].
  rewrite IH. apply Permutation_swap.
Qed.

Lemma sort_newest_first_perm (l : list ReportEntry) : sort_newest_first l ≡ₚ l.
Proof.
  induction l as [|x l IH]; simpl; [done |].
  by rewrite insert_newest_first_perm, IH.
Qed.

Lemma insert_newest_first_sorted (x : ReportEntry) (l : list ReportEntry) :
  newest_first l -> newest_first (insert_newest_first x l).
Proof.
  unfold newest_first. induction l as [|y rest IH]; simpl; intros Hl.
  { by repeat constructor. }
  apply StronglySorted_cons in Hl as [Hy Hrest].
  destruct (Z.leb_spec (e_createdAt y) (e_createdAt x)) as [Hle | Hlt].
  - apply StronglySorted_cons. split.
    + constructor; [done |]. eapply Forall_impl; [exact Hy |]. simpl. lia.
    + by apply StronglySorted_cons.
  - apply StronglySorted_cons. split; [| by apply IH].
    rewrite insert_newest_first_perm. constructor; [lia | done].
Qed.

Lemma sort_newest_first_sorted (l : list ReportEntry) :
  newest_first (sort_newest_first l).
Proof.
  induction l as [|x l IH]; simpl; [constructor |].
  by apply insert_newest_first_sorted.
Qed.

Lemma reportEntries_all (files : list string) :
  (forall file, In file files -> is_Some (stat (path_join reportStoragePath file))) ->
  exists entries,
    the_reportEntries files = Some entries /\
    forall file, In file files ->
      exists entry, In entry entries /\ the_reportEntry file = Some entry.
Proof.
  induction files as [|file rest IH]; intros Hstat.
  - exists []. split; [done | by intros file []].
  - destruct IH as (entries & Hentries & Hall); [intros f Hf; apply Hstat; by right |].
    destruct (Hstat file (or_introl eq_refl)) as [stats Hstats].
    cbn [reportEntries]. unfold reportEntry at 1. rewrite Hstats, Hentries.
    eexists. split; [reflexivity |].
    intros f [<- | Hf].
    + eexists. split; [by left |]. unfold reportEntry. by rewrite Hstats.
    + destruct (Hall f Hf) as (entry & Hin & Hentry). exists entry. split; [by right | done].
Qed.

(** X13.  A report stored by [generateReport] is read back by
    [getReportsList]: when the listing of the storage directory has
    the name [report_<id>_<time>.<format>] of the report, with a
    report id without underscore (as every uuid is) and the format
    html, json or pdf, and [stat] answers for every listed file, the
    list has an entry for that file with the report id and the format
    it was stored with. *)
Theorem getReportsList_reads_back_generated_names (files : list string)
    (reportId : string) (now : Z) (ext : string) :
  ~ has_char "_"%char reportId ->
  In ext ["html"; "json"; "pdf"] ->
  In (reportFileName reportId now ext) files ->
  (forall file, In file files -> is_Some (stat (path_join reportStoragePath file))) ->
  exists entry,
    In entry (the_getReportsList (Some files)) /\
    e_fileName entry = reportFileName reportId now ext /\
    e_reportId entry = Some reportId /\
    e_format entry = ext.
Proof.
  intros Hid Hext Hlisted Hstat.
  destruct (reportEntries_all files Hstat) as (entries & Hentries & Hall).
  destruct (Hall _ Hlisted) as (entry & Hin & Hentry).
  exists entry. unfold getReportsList. rewrite Hentries.
  split.
  { apply list_elem_of_In. rewrite sort_newest_first_perm. by apply list_elem_of_In. }
  unfold reportEntry in Hentry.
  destruct (stat _) as [stats|]; [| done]. injection Hentry as <-.
  cbn [e_fileName e_reportId e_format].
  rewrite reportFileName_split by done.
  split; [done |]. split; [done |].
  exact (reportFileName_extname reportId now ext Hext).
Qed.

(** X14.  [getReportsList] answers with the later report first: the
    list is ordered by time of creation, descending, and holds one
    entry for each listed file, no other; a directory that cannot be
    listed, or one file whose [stat] rejects, gives the empty list. *)
Theorem getReportsList_newest_first (listing : option (list string)) :
  newest_first (the_getReportsList listing) /\
  (forall files entries,
     listing = Some files -> the_reportEntries files = Some entries ->
     the_getReportsList listing ≡ₚ entries /\
     map e_fileName entries = files) /\
  (forall files file,
     listing = Some files -> In file files ->
     stat (path_join reportStoragePath file) = None ->
     the_getReportsList listing = []) /\
  (listing = None -> the_getReportsList listing = []).
Proof.
  split; [| split; [| split]].
  - unfold getReportsList. destruct listing as [files|]; [| constructor].
    destruct (the_reportEntries files); [apply sort_newest_first_sorted | constructor].
  - intros files entries -> Hentries. unfold getReportsList. rewrite Hentries.
    split; [apply sort_newest_first_perm |].
    revert entries Hentries. induction files as [|file rest IH]; intros entries.
    { by intros [= <-]. }
    cbn [reportEntries]. unfold reportEntry at 1.
    destruct (stat _) as [stats|]; [| done].
    destruct (the_reportEntries rest) as [entries'|]; [| done].
    intros [= <-]. cbn [map e_fileName]. by rewrite (IH entries').
  - intros files file -> Hfile Hstat. unfold getReportsList.
    assert (the_reportEntries files = None) as ->; [| done].
    induction files as [|f rest IH]; [done |].
    cbn [reportEntries]. destruct Hfile as [-> | Hfile].
    + unfold reportEntry. by rewrite Hstat.
    + destruct (the_reportEntry f); [| done]. by rewrite IH.
  - by intros ->.
Qed.

Section Delete.

Context {ReportData : Type}.
Variable fill_template : string -> ReportData -> string.
Variable stringify : ReportData -> string.
Variable templatePath : string.
Variable writeFile_error : string -> option string.

(** X15.  [deleteReport] undoes [generateReport]: after a report has
    been stored in a file that was not there before, with the listing
    of the storage directory naming that file before any other name
    that contains the report id, [deleteReport] for the id returns
    true and the file system is again the one from before the
    report. *)
Theorem deleteReport_undoes_generateReport (fs : gmap string string)
    (reportId : string) (now : Z) (cfg : ReportConfig) (d : ReportData)
    (before after : list string) :
  let run :=
    generateReport fill_template stringify path_join reportStoragePath templatePath
      writeFile_error fs reportId now cfg d in
  success (fst run) = true ->
  fs !! filePath (fst run) = None ->
  Forall (fun file => Js.includes file reportId = false) before ->
  deleteReport path_join reportStoragePath
    (Some (before ++ reportFileName reportId now (format cfg) :: after)%list)
    reportId (snd run)
  = (true, fs).
Proof.
  intros run Hsuccess Hnew Hbefore.
  destruct (generateReport_stored fill_template stringify path_join
              reportStoragePath templatePath writeFile_error fs reportId now cfg d
              Hsuccess) as (Hpath & content & Hfs).
  fold run in Hpath, Hfs. rewrite Hpath in Hnew, Hfs.
  unfold deleteReport, findReportFile.
  assert (List.find (fun file => Js.includes file reportId)
            (before ++ reportFileName reportId now (format cfg) :: after)
          = Some (reportFileName reportId now (format cfg))) as ->.
  { induction Hbefore as [|f rest Hf _ IH]; cbn [app List.find].
    - assert (Js.includes (reportFileName reportId now (format cfg)) reportId = true)
        as ->; [| done].
      apply JsFacts.includes_spec. unfold reportFileName.
      by exists "report_", ("_" +:+ pretty now +:+ "." +:+ format cfg).
    - by rewrite Hf. }
  change (Js.truthy_string (reportFileName reportId now (format cfg)))
    with (Some (reportFileName reportId now (format cfg))).
  cbv zeta. rewrite Hfs, lookup_insert_eq, delete_insert_eq.
  by rewrite delete_id.
Qed.

End Delete.

End Stored.


(** X13 at the report r1 of the sample directory. *)
Lemma getReportsList_reads_back_generated_names_witness :
  exists entry,
    In entry (getReportsList slash_join "reports" sample_stat (Some two_reports)) /\
    e_fileName entry = reportFileName "r1" 1000 "pdf" /\
    e_reportId entry = Some "r1" /\
    e_format entry = "pdf".
Proof.
  apply (getReportsList_reads_back_generated_names slash_join "reports" sample_stat
           two_reports "r1" 1000 "pdf").
  - unfold has_char. simpl. intros [H | [H | []]]; discriminate H.
  - simpl. tauto.
  - vm_compute. tauto.
  - intros file [<- | [<- | []]]; vm_compute; eauto.
Defined.

(** X15 at a pdf report stored beside the report of another id. *)
Lemma deleteReport_undoes_generateReport_witness :
  deleteReport slash_join "reports"
    (Some (["report_r2_2000.json"] ++ reportFileName "r1" 1000 (format pdf_request) :: [])%list)
    "r1"
    (snd (generateReport append_data id slash_join "reports" "templates" no_write_error
            stored_template "r1" 1000 pdf_request "t1"))
  = (true, stored_template).
Proof.
  apply (deleteReport_undoes_generateReport slash_join "reports" append_data id
           "templates" no_write_error stored_template "r1" 1000 pdf_request "t1"
           ["report_r2_2000.json"] []).
  - vm_compute. reflexivity.
  - vm_compute. reflexivity.
  - constructor; [vm_compute; reflexivity | constructor].
Defined.

(** The listing of the sample directory, later report first. *)
Example sample_reports_list :
  map (fun entry => (e_reportId entry, e_format entry, e_createdAt entry))
    (getReportsList slash_join "reports" sample_stat (Some two_reports))
  = [(Some "r2", "json", 2000); (Some "r1", "pdf", 1000)].
Proof. vm_compute. reflexivity. Qed.

(** [deleteReport] matches the id anywhere in the name: asked for the
    id 1000, it removes the report r1, whose name has 1000 as its
    time. *)
Example deleteReport_matches_anywhere :
  deleteReport slash_join "reports" (Some two_reports) "1000"
    {[ "reports/report_r1_1000.pdf" := "a"; "reports/report_r2_2000.json" := "b" ]}
  = (true, {[ "reports/report_r2_2000.json" := "b" ]}).
Proof. vm_compute. reflexivity. Qed.

End ReportGeneratorLaws.

(** ** The orchestrator: other jobs, stored state, control, the list of tasks *)

Module TaskManagerLaws.

Import TaskManager TaskManagerFacts.

(** *** What a computation leaves untouched *)
Section Untouched.

Context {X : Type}.
Variable view : Store -> X.

Lemma untouched_bind {A B} (m : M A) (k : A -> M B) :
  untouched view m -> (forall a, untouched view (k a)) -> untouched view (bind m k).
Proof.
  intros Hm Hk s. unfold bind. destruct (Hm s) as [Hseen Hfinal].
  destruct (outcome (m s)) as [a | message]; simpl; [| done].
  destruct (Hk a (final (m s))) as [Hseen' Hfinal']. split; [| congruence].
  apply Forall_app. split; [done |].
  eapply Forall_impl; [exact Hseen' |]. simpl. congruence.
Qed.

Lemma untouched_try_catch {A} (m : M A) (handler : string -> M A) :
  untouched view m -> (forall message, untouched view (handler message)) ->
  untouched view (try_catch m handler).
Proof.
  intros Hm Hh s. unfold try_catch. destruct (Hm s) as [Hseen Hfinal].
  destruct (outcome (m s)) as [a | message]; simpl; [done |].
  destruct (Hh message (final (m s))) as [Hseen' Hfinal']. split; [| congruence].
  apply Forall_app. split; [done |].
  eapply Forall_impl; [exact Hseen' |]. simpl. congruence.
Qed.

Lemma untouched_ret {A} (a : A) : untouched view (ret a).
Proof. intros s. by split; [constructor |]. Qed.

Lemma untouched_throw {A} (message : string) : untouched view (@throw A message).
Proof. intros s. by split; [constructor |]. Qed.

Lemma untouched_gets {A} (f : Store -> A) : untouched view (gets f).
Proof. intros s. by split; [constructor |]. Qed.

Lemma untouched_await : untouched view await.
Proof. intros s. by split; [repeat constructor |]. Qed.

Lemma untouched_modify (f : Store -> Store) :
  (forall s, view (f s) = view s) -> untouched view (modify f).
Proof. intros Hf s. split; [constructor | apply Hf]. Qed.

Lemma untouched_read {A} (j : string) (f : TaskExecution -> A) :
  untouched view (read j f).
Proof. intros s. unfold read. destruct (_ !! _); by split; [constructor |]. Qed.

End Untouched.

Section Elsewhere.

(** The job [j] that the computation works on, and another job [k]. *)
Variable j k : string.
Hypothesis Hother : k <> j.

Lemma elsewhere_mutate (f : TaskExecution -> TaskExecution) :
  untouched (surroundings k) (mutate j f).
Proof.
  apply untouched_modify. intros s. unfold surroundings, kept.
  cbn [activeExecutions set_activeExecutions db taskQueue immediates].
  by rewrite lookup_alter_ne.
Qed.

Lemma elsewhere_upsertExecution (row : ExecRow) :
  r_jobId row = j -> untouched (surroundings k) (upsertExecution row).
Proof.
  intros Hrow. apply untouched_modify. intros s. unfold surroundings, kept.
  cbn [activeExecutions set_db db taskQueue immediates].
  rewrite stored_execution_upsert_other, stored_logs_upsertExecution by congruence.
  done.
Qed.

Lemma elsewhere_appendLog (row : LogRow) :
  l_jobId row = j -> untouched (surroundings k) (appendLog row).
Proof.
  intros Hrow. apply untouched_modify. intros s. unfold surroundings, kept.
  cbn [activeExecutions set_db db taskQueue immediates].
  rewrite stored_execution_appendLog, stored_logs_appendLog_other by congruence.
  done.
Qed.

Lemma elsewhere_awaited : untouched (surroundings k) awaited.
Proof.
  unfold awaited. apply untouched_bind; [apply untouched_await | intros _].
  by apply untouched_modify.
Qed.

Variable uuid : nat -> string.

Lemma elsewhere_uuidv4 : untouched (surroundings k) (uuidv4 uuid).
Proof. intros s. by split; [constructor |]. Qed.

Lemma elsewhere_log_to_db (message : string) :
  untouched (surroundings k) (log_to_db uuid j message).
Proof.
  unfold log_to_db. apply untouched_bind; [apply elsewhere_uuidv4 | intros i].
  apply untouched_bind; [apply untouched_gets | intros t].
  by apply elsewhere_appendLog.
Qed.

End Elsewhere.

Ltac elsewhere_step :=
  match goal with
  | |- untouched _ (bind _ _) => apply untouched_bind; [| intros ?]
  | |- untouched _ (try_catch _ _) => apply untouched_try_catch; [| intros ?]
  | |- untouched _ (ret _) => apply untouched_ret
  | |- untouched _ (throw _) => apply untouched_throw
  | |- untouched _ (gets _) => apply untouched_gets
  | |- untouched _ now => apply untouched_gets
  | |- untouched _ await => apply untouched_await
  | |- untouched _ awaited => apply elsewhere_awaited
  | |- untouched _ (uuidv4 _) => apply elsewhere_uuidv4
  | |- untouched _ (read _ _) => apply untouched_read
  | |- untouched _ (mutate _ _) => apply elsewhere_mutate; assumption
  | |- untouched _ (upsertExecution _) =>
      eapply elsewhere_upsertExecution; [eassumption | reflexivity]
  | |- untouched _ (log_to_db _ _ _) => apply elsewhere_log_to_db; assumption
  | |- untouched _ (let _ := _ in _) => cbv zeta
  | |- untouched _ (match ?x with _ => _ end) => destruct x
  | |- untouched _ (if ?x then _ else _) => destruct x
  end.

Ltac elsewhere_auto := repeat elsewhere_step.

Section OtherJobs.

Variable uuid : nat -> string.
Variable llm_initialize : TaskConfig -> option string.
Variable executeChain : TaskConfig -> ChainOutcome.
Variable runPOC : TaskConfig -> Vulnerability -> PocOutcome.

Abbreviation run_executeTask :=
  (executeTask uuid llm_initialize executeChain runPOC).

Section Elsewhere.

Variable j k : string.
Hypothesis Hother : k <> j.

Lemma elsewhere_updateExecutionProgress (p : Z) (stage : string) :
  untouched (surroundings k) (updateExecutionProgress uuid j p stage).
Proof. unfold updateExecutionProgress. elsewhere_auto. Qed.

Lemma elsewhere_verify_all (cfg : TaskConfig) (l : list Vulnerability) :
  untouched (surroundings k) (verify_all uuid runPOC cfg j l).
Proof.
  induction l as [|v rest IH]; cbn [verify_all]; [apply untouched_ret |].
  apply untouched_bind; [unfold verify_one; elsewhere_auto | intros v'].
  apply untouched_bind; [apply IH | intros rest']. apply untouched_ret.
Qed.

Lemma elsewhere_executePentestChain (cfg : TaskConfig) :
  untouched (surroundings k) (executePentestChain uuid executeChain runPOC cfg j).
Proof.
  unfold executePentestChain.
  do 3 (apply untouched_bind; [elsewhere_auto | intros _]).
  destruct (executeChain cfg) as [message | success results vulns]; [elsewhere_auto |].
  apply untouched_bind; [elsewhere_auto | intros _].
  destruct (negb success); [elsewhere_auto |].
  apply untouched_bind; [elsewhere_auto | intros _].
  destruct vulns as [|v rest]; [elsewhere_auto |].
  apply untouched_bind; [elsewhere_auto | intros _].
  apply untouched_bind; [by apply elsewhere_updateExecutionProgress | intros _].
  apply untouched_bind; [elsewhere_auto | intros _].
  apply untouched_bind; [apply elsewhere_verify_all | intros vulns'].
  apply untouched_ret.
Qed.

Lemma elsewhere_generateReport (cfg : TaskConfig) :
  untouched (surroundings k) (generateReport uuid cfg j).
Proof. unfold generateReport. elsewhere_auto. Qed.

End Elsewhere.

Lemma elsewhere_executeTask (data : JobData) (k : string) :
  k <> d_jobId data -> untouched (surroundings k) (run_executeTask data).
Proof.
  intros Hother. unfold executeTask. cbv zeta.
  apply untouched_bind; [apply untouched_gets | intros execution].
  destruct execution as [e0|]; [| apply untouched_throw].
  apply untouched_try_catch; [| intros message; elsewhere_auto].
  do 9 (apply untouched_bind; [elsewhere_auto | intros ?]).
  apply untouched_bind; [unfold initializeAIService; elsewhere_auto | intros _].
  apply untouched_bind; [elsewhere_auto | intros _].
  apply untouched_bind; [elsewhere_auto | intros _].
  apply untouched_bind; [by apply elsewhere_updateExecutionProgress | intros _].
  apply untouched_bind; [elsewhere_auto | intros _].
  apply untouched_bind; [by apply elsewhere_executePentestChain | intros chainResult].
  apply untouched_bind; [elsewhere_auto | intros _].
  apply untouched_bind; [by apply elsewhere_updateExecutionProgress | intros _].
  apply untouched_bind; [elsewhere_auto | intros _].
  apply untouched_bind; [by apply elsewhere_generateReport | intros report].
  apply untouched_bind; [elsewhere_auto | intros _].
  apply untouched_bind; [elsewhere_auto | intros t3].
  apply untouched_bind; [elsewhere_auto | intros _].
  apply untouched_bind; [by apply elsewhere_updateExecutionProgress | intros _].
  elsewhere_auto.
Qed.

(** X16.  A run of [executeTask] for one job leaves every other job
    alone: at each suspension point of the run and at its end, the
    record in memory, the stored row and the stored log rows of another
    job are those from before the run, the queue and the callbacks
    handed to [setImmediate] are as they were, and [getTaskStatus],
    asked for the other job under an id that stays a text in the SELECT
    statements, answers what it answered before the run. *)
Theorem executeTask_leaves_other_jobs_alone (data : JobData) (k : string) (s : Store) :
  k <> d_jobId data ->
  let r := run_executeTask data s in
  Forall (fun s' => kept k s' = kept k s /\
                    taskQueue s' = taskQueue s /\ immediates s' = immediates s /\
                    (literal k = true -> lookup_status k s' = lookup_status k s))
    (seen r ++ [final r]).
Proof.
  intros Hother r.
  destruct (elsewhere_executeTask data k Hother s) as [Hseen Hfinal].
  assert (forall s', surroundings k s' = surroundings k s ->
                     kept k s' = kept k s /\
                     taskQueue s' = taskQueue s /\ immediates s' = immediates s /\
                     (literal k = true -> lookup_status k s' = lookup_status k s))
    as Hview.
  { unfold surroundings, kept. intros s' [= Hact Hrow Hlogs Hq Himm].
    rewrite Hact, Hrow, Hlogs. split; [done |]. split; [done |]. split; [done |].
    intros Hliteral. rewrite !lookup_status_literal by done.
    by rewrite Hact, Hrow, Hlogs. }
  apply Forall_app. split.
  - eapply Forall_impl; [exact Hseen |]. exact Hview.
  - constructor; [by apply Hview | constructor].
Qed.

End OtherJobs.

(** *** The record and its stored row *)

(** *** Rules of the logic *)
Section Hoare.

Variable I : Store -> Prop.

Lemma hoare_bind {A B} (P : Store -> Prop) (m : M A) (k : A -> M B)
    (Q1 : A -> Store -> Prop) (Q : B -> Store -> Prop) (E : string -> Store -> Prop) :
  hoare I P m Q1 E -> (forall a, hoare I (Q1 a) (k a) Q E) -> hoare I P (bind m k) Q E.
Proof.
  intros Hm Hk s HP. unfold bind. destruct (Hm s HP) as [Hseen Hout].
  destruct (outcome (m s)) as [a | message]; simpl; [| done].
  destruct (Hk a (final (m s)) Hout) as [Hseen' Hout'].
  split; [by apply Forall_app | done].
Qed.

Lemma hoare_try_catch {A} (P : Store -> Prop) (m : M A) (handler : string -> M A)
    (Q : A -> Store -> Prop) (E1 E : string -> Store -> Prop) :
  hoare I P m Q E1 -> (forall message, hoare I (E1 message) (handler message) Q E) ->
  hoare I P (try_catch m handler) Q E.
Proof.
  intros Hm Hh s HP. unfold try_catch. destruct (Hm s HP) as [Hseen Hout].
  destruct (outcome (m s)) as [a | message] eqn:Ho; simpl.
  - rewrite Ho. done.
  - destruct (Hh message (final (m s)) Hout) as [Hseen' Hout'].
    split; [by apply Forall_app | done].
Qed.

Lemma hoare_conseq {A} (P P' : Store -> Prop) (m : M A) (Q Q' : A -> Store -> Prop)
    (E E' : string -> Store -> Prop) :
  hoare I P m Q E -> (forall s, P' s -> P s) -> (forall a s, Q a s -> Q' a s) ->
  (forall message s, E message s -> E' message s) -> hoare I P' m Q' E'.
Proof.
  intros Hm HP HQ HE s HP'. destruct (Hm s (HP s HP')) as [Hseen Hout].
  split; [done |]. destruct (outcome (m s)); auto.
Qed.

Lemma hoare_ret {A} (P : Store -> Prop) (a : A) (Q : A -> Store -> Prop)
    (E : string -> Store -> Prop) :
  (forall s, P s -> Q a s) -> hoare I P (ret a) Q E.
Proof. intros H s HP. split; [constructor | by apply H]. Qed.

Lemma hoare_throw {A} (P : Store -> Prop) (message : string) (Q : A -> Store -> Prop)
    (E : string -> Store -> Prop) :
  (forall s, P s -> E message s) -> hoare I P (throw message) Q E.
Proof. intros H s HP. split; [constructor | by apply H]. Qed.

Lemma hoare_gets {A} (P : Store -> Prop) (f : Store -> A) (Q : A -> Store -> Prop)
    (E : string -> Store -> Prop) :
  (forall s, P s -> Q (f s) s) -> hoare I P (gets f) Q E.
Proof. intros H s HP. split; [constructor | by apply H]. Qed.

Lemma hoare_modify (P : Store -> Prop) (f : Store -> Store) (Q : unit -> Store -> Prop)
    (E : string -> Store -> Prop) :
  (forall s, P s -> Q tt (f s)) -> hoare I P (modify f) Q E.
Proof. intros H s HP. split; [constructor | by apply H]. Qed.

Lemma hoare_await (P : Store -> Prop) (Q : unit -> Store -> Prop)
    (E : string -> Store -> Prop) :
  (forall s, P s -> I s /\ Q tt s) -> hoare I P await Q E.
Proof. intros H s HP. destruct (H s HP). split; [by repeat constructor | done]. Qed.

End Hoare.

(** *** The record and the row of one job along a computation *)
Section Job.

Variable j : string.
(** What holds at the suspension points. *)
Variable RI : option TaskExecution -> option ExecRow -> Prop.

Abbreviation job_hoare := (hoare (at_job j RI)).
Abbreviation Rel := (option TaskExecution -> option ExecRow -> Prop).

(** A step that leaves the job as it is, with its result ignored. *)
Lemma job_gets {A} (R : Rel) (f : Store -> A) (E : string -> Store -> Prop) :
  job_hoare (at_job j R) (gets f) (fun _ => at_job j R) E.
Proof. by apply hoare_gets. Qed.

Lemma job_ret {A} (R : Rel) (a : A) (E : string -> Store -> Prop) :
  job_hoare (at_job j R) (ret a) (fun _ => at_job j R) E.
Proof. by apply hoare_ret. Qed.

Lemma job_throw {A} (R R' : Rel) (message : string) (Q : A -> Store -> Prop) :
  (forall oe orow, R oe orow -> R' oe orow) ->
  job_hoare (at_job j R) (throw message) Q (fun _ => at_job j R').
Proof. intros H. apply hoare_throw. intros s. apply H. Qed.

Lemma job_await (R : Rel) (E : string -> Store -> Prop) :
  (forall oe orow, R oe orow -> RI oe orow) ->
  job_hoare (at_job j R) await (fun _ => at_job j R) E.
Proof. intros H. apply hoare_await. intros s HR. split; [by apply H | done]. Qed.

Lemma job_mutate (R R' : Rel) (f : TaskExecution -> TaskExecution)
    (E : string -> Store -> Prop) :
  (forall oe orow, R oe orow -> R' (f <$> oe) orow) ->
  job_hoare (at_job j R) (mutate j f) (fun _ => at_job j R') E.
Proof.
  intros H. apply hoare_modify. intros s HR. unfold at_job in *.
  cbn [activeExecutions set_activeExecutions db]. rewrite lookup_alter_eq. by apply H.
Qed.

(** The call of [upsertExecution]: from then on the row of the job is
    the one bound to the statement. *)
Lemma job_upsertExecution (R R' : Rel) (row : ExecRow) (E : string -> Store -> Prop) :
  r_jobId row = j ->
  (forall oe orow, R oe orow -> R' oe (Some (bound_execution row))) ->
  job_hoare (at_job j R) (upsertExecution row) (fun _ => at_job j R') E.
Proof.
  intros Hrow H. apply hoare_modify. intros s HR. unfold at_job in *.
  cbn [activeExecutions set_db db]. rewrite <- Hrow, stored_execution_upsert.
  rewrite Hrow. by eapply H.
Qed.

Lemma job_appendLog (R : Rel) (row : LogRow) (E : string -> Store -> Prop) :
  job_hoare (at_job j R) (appendLog row) (fun _ => at_job j R) E.
Proof.
  apply hoare_modify. intros s HR. unfold at_job in *.
  cbn [activeExecutions set_db db]. by rewrite stored_execution_appendLog.
Qed.

(** The [await] of a call of the database: the statements that run
    while the caller waits are those that the row of the job was read
    behind. *)
Lemma job_awaited (R : Rel) (E : string -> Store -> Prop) :
  (forall oe orow, R oe orow -> RI oe orow) ->
  job_hoare (at_job j R) awaited (fun _ => at_job j R) E.
Proof.
  intros H. unfold awaited.
  eapply hoare_bind; [by apply job_await | intros ?; cbv beta].
  apply hoare_modify. intros s HR. exact HR.
Qed.

Variable uuid : nat -> string.

Lemma job_uuidv4 (R : Rel) (E : string -> Store -> Prop) :
  job_hoare (at_job j R) (uuidv4 uuid) (fun _ => at_job j R) E.
Proof. intros s HR. split; [constructor | done]. Qed.

Lemma job_log_to_db (R : Rel) (j' message : string) (E : string -> Store -> Prop) :
  job_hoare (at_job j R) (log_to_db uuid j' message) (fun _ => at_job j R) E.
Proof.
  unfold log_to_db.
  eapply hoare_bind; [apply job_uuidv4 | intros i].
  eapply hoare_bind; [apply job_gets | intros t].
  apply job_appendLog.
Qed.

(** After reading the record, the rest runs knowing the record. *)
Lemma job_read {B} (R : Rel) (k : TaskExecution -> M B) (Q : B -> Store -> Prop)
    (E : string -> Store -> Prop) :
  (forall oe orow, R oe orow -> is_Some oe) ->
  (forall e, job_hoare (at_job j (fun oe orow => oe = Some e /\ R oe orow)) (k e) Q E) ->
  job_hoare (at_job j R) (bind (read j (fun e => e)) k) Q E.
Proof.
  intros Hsome Hk s HR. unfold bind, read.
  destruct (Hsome _ _ HR) as [e He]. rewrite He. simpl.
  destruct (Hk e s) as [Hseen Hout]; [by split |]. done.
Qed.

(** After the lookup of the job in the map, the rest runs with the
    record found. *)
Lemma job_lookup {B} (R : Rel) (k : option TaskExecution -> M B)
    (Q : B -> Store -> Prop) (E : string -> Store -> Prop) :
  (forall oe orow, R oe orow -> is_Some oe) ->
  (forall e, job_hoare (at_job j R) (k (Some e)) Q E) ->
  job_hoare (at_job j R) (bind (gets (fun s => activeExecutions s !! j)) k) Q E.
Proof.
  intros Hsome Hk s HR. rewrite bind_gets.
  destruct (Hsome _ _ HR) as [e He]. rewrite He. by apply Hk.
Qed.

Lemma job_weaken {A} (R R' : Rel) (m : M A) (Q : A -> Store -> Prop)
    (E : string -> Store -> Prop) :
  (forall oe orow, R' oe orow -> R oe orow) ->
  job_hoare (at_job j R) m Q E -> job_hoare (at_job j R') m Q E.
Proof. intros H Hm. eapply hoare_conseq; [exact Hm | | done | done]. intros s. apply H. Qed.

End Job.


(** *** Facts on the two relations *)

Lemma in_step_in_memory (holds holds' : TaskExecution -> Prop)
    (oe : option TaskExecution) (orow : option ExecRow) :
  (forall e, holds e -> holds' e) -> in_step holds oe orow -> in_memory holds' oe orow.
Proof. intros H (e & row & -> & _ & He & _). exists e. auto. Qed.

Lemma in_step_weaken (holds holds' : TaskExecution -> Prop)
    (oe : option TaskExecution) (orow : option ExecRow) :
  (forall e, holds e -> holds' e) -> in_step holds oe orow -> in_step holds' oe orow.
Proof. intros H (e & row & -> & -> & He & Hs & Hp). exists e, row. auto 6. Qed.

Lemma in_memory_weaken (holds holds' : TaskExecution -> Prop)
    (oe : option TaskExecution) (orow : option ExecRow) :
  (forall e, holds e -> holds' e) -> in_memory holds oe orow -> in_memory holds' oe orow.
Proof. intros H (e & -> & He). exists e. auto. Qed.

Lemma in_memory_some (holds : TaskExecution -> Prop)
    (oe : option TaskExecution) (orow : option ExecRow) :
  in_memory holds oe orow -> is_Some oe.
Proof. intros (e & -> & _). eauto. Qed.

Lemma in_step_some (holds : TaskExecution -> Prop)
    (oe : option TaskExecution) (orow : option ExecRow) :
  in_step holds oe orow -> is_Some oe.
Proof. intros (e & row & -> & _). eauto. Qed.

(** An assignment that changes neither status nor progress. *)
Lemma in_step_mutate (holds holds' : TaskExecution -> Prop)
    (f : TaskExecution -> TaskExecution)
    (oe : option TaskExecution) (orow : option ExecRow) :
  (forall e, status (f e) = status e) -> (forall e, progress (f e) = progress e) ->
  (forall e, holds e -> holds' (f e)) ->
  in_step holds oe orow -> in_step holds' (f <$> oe) orow.
Proof.
  intros Hs Hp H (e & row & -> & -> & He & Hrs & Hrp).
  exists (f e), row. rewrite Hs, Hp. auto 6.
Qed.

Lemma in_memory_mutate (holds holds' : TaskExecution -> Prop)
    (f : TaskExecution -> TaskExecution)
    (oe : option TaskExecution) (orow : option ExecRow) :
  (forall e, holds e -> holds' (f e)) ->
  in_memory holds oe orow -> in_memory holds' (f <$> oe) orow.
Proof. intros H (e & -> & He). exists (f e). auto. Qed.

(** The row written from the record just read. *)
Lemma in_step_written (holds : TaskExecution -> Prop) (e : TaskExecution)
    (row : ExecRow) (oe : option TaskExecution) (orow : option ExecRow) :
  r_status row = status e -> r_progress row = progress e ->
  oe = Some e /\ in_memory holds oe orow -> in_step holds oe (Some row).
Proof.
  intros Hs Hp [-> (e' & [= <-] & He)]. exists e, row. auto 6.
Qed.

Ltac same_field := intros; reflexivity.

(** Steps that leave status and progress as they are keep the record
    and the row in step. *)
Ltac in_step_keep :=
  match goal with
  | |- hoare _ _ (bind _ _) _ _ => eapply hoare_bind; [| intros ?; cbv beta]
  | |- hoare _ _ (gets _) _ _ => apply job_gets
  | |- hoare _ _ now _ _ => apply job_gets
  | |- hoare _ _ (ret _) _ _ => apply job_ret
  | |- hoare _ _ (log_to_db _ _ _) _ _ => apply job_log_to_db
  | |- hoare _ _ await _ _ =>
      apply job_await; intros ? ?; apply in_step_weaken; done
  | |- hoare _ _ awaited _ _ =>
      apply job_awaited; intros ? ?; apply in_step_weaken; done
  | |- hoare _ _ (uuidv4 _) _ _ => apply job_uuidv4
  | |- hoare _ (at_job _ (in_step ?h)) (mutate _ _) _ _ =>
      apply (job_mutate _ _ (in_step h) (in_step h));
      intros ? ?; apply in_step_mutate; [same_field | same_field | intros ? H; exact H]
  | |- hoare _ (at_job _ (in_memory ?h)) (mutate _ _) _ _ =>
      apply (job_mutate _ _ (in_memory h) (in_memory h));
      intros ? ?; apply in_memory_mutate; intros ? H; exact H
  | |- hoare _ _ (let _ := _ in _) _ _ => cbv zeta
  end.

Section Stored.

Variable uuid : nat -> string.
Variable llm_initialize : TaskConfig -> option string.
Variable executeChain : TaskConfig -> ChainOutcome.
Variable runPOC : TaskConfig -> Vulnerability -> PocOutcome.

Section Walk.

(** The job of the run. *)
Variable j : string.

Abbreviation walk := (hoare (at_job j (in_step any_record))).
Abbreviation in_step_any := (at_job j (in_step any_record)).
Abbreviation tracked := (at_job j (in_memory any_record)).
Abbreviation thrown := (fun _ : string => at_job j (in_memory any_record)).

(** [updateExecutionProgress] brings the row in step with the record,
    and sets the progress; what holds of the record by its status,
    completion time and error alone goes on to hold. *)
Lemma walk_updateExecutionProgress (holds : TaskExecution -> Prop) (p : Z)
    (stage : string) (E : string -> Store -> Prop) :
  (forall e e', status e' = status e -> completedAt e' = completedAt e ->
                error e' = error e -> holds e -> holds e') ->
  walk (at_job j (in_memory holds)) (updateExecutionProgress uuid j p stage)
    (fun _ => at_job j (in_step (fun e => holds e /\ progress e = p))) E.
Proof.
  intros Hstable. unfold updateExecutionProgress.
  apply job_lookup; [apply in_memory_some | intros e0].
  eapply hoare_bind.
  { apply (job_mutate _ _ _ (in_memory (fun e => holds e /\ progress e = p))).
    intros oe orow. apply in_memory_mutate. intros e He.
    split; [by apply (Hstable e) | done]. }
  intros ?. cbv beta zeta.
  eapply hoare_bind.
  { apply (job_mutate _ _ _ (in_memory (fun e => holds e /\ progress e = p))).
    intros oe orow. apply in_memory_mutate. intros e [He Hp].
    split; [by apply (Hstable e) | done]. }
  intros ?. cbv beta.
  eapply hoare_bind; [apply job_log_to_db | intros ?; cbv beta].
  apply job_read; [apply in_memory_some | intros e].
  apply job_upsertExecution; [done |].
  intros oe orow [-> (e' & [= <-] & Hholds & Hp)].
  eexists e, _. repeat split; done.
Qed.

Lemma walk_verify_all (cfg : TaskConfig) (l : list Vulnerability) :
  walk in_step_any (verify_all uuid runPOC cfg j l) (fun _ => in_step_any) thrown.
Proof.
  induction l as [|v rest IH]; cbn [verify_all]; [apply job_ret |].
  eapply hoare_bind; [| intros v'; eapply hoare_bind;
                                     [apply IH | intros rest'; apply job_ret]].
  unfold verify_one. destruct (runPOC cfg v) as [message | r].
  { repeat in_step_keep. }
  do 3 (eapply hoare_bind; [in_step_keep | intros ?; cbv beta]).
  destruct (POCManager.vulnerabilityConfirmed r); [| apply job_ret].
  repeat in_step_keep.
Qed.

Lemma walk_executePentestChain (cfg : TaskConfig) :
  walk in_step_any (executePentestChain uuid executeChain runPOC cfg j)
    (fun _ => in_step_any) thrown.
Proof.
  unfold executePentestChain.
  do 3 (eapply hoare_bind; [in_step_keep | intros ?; cbv beta]).
  destruct (executeChain cfg) as [message | success results vulns].
  { eapply hoare_bind; [in_step_keep | intros ?; cbv beta].
    apply job_throw. intros oe orow. by apply in_step_in_memory. }
  eapply hoare_bind; [in_step_keep | intros ?; cbv beta].
  destruct (negb success).
  { apply job_throw. intros oe orow. by apply in_step_in_memory. }
  eapply hoare_bind; [in_step_keep | intros ?; cbv beta].
  destruct vulns as [|v rest]; [apply job_ret |].
  eapply hoare_bind; [in_step_keep | intros ?; cbv beta].
  eapply hoare_bind.
  { eapply job_weaken; [| apply (walk_updateExecutionProgress any_record)]; [| done].
    intros oe orow. by apply in_step_in_memory. }
  intros ?. cbv beta.
  eapply hoare_bind.
  { apply job_await. intros oe orow. by apply in_step_weaken. }
  intros ?. cbv beta.
  eapply hoare_bind.
  { eapply hoare_conseq; [apply (walk_verify_all cfg (v :: rest)) | | | ]; cbv beta.
    - intros s. apply in_step_weaken. done.
    - intros vs s' H. exact H.
    - done. }
  intros vulns'. apply job_ret.
Qed.

Lemma walk_generateReport (cfg : TaskConfig) :
  walk in_step_any (generateReport uuid cfg j) (fun _ => in_step_any) thrown.
Proof.
  unfold generateReport.
  do 2 (eapply hoare_bind; [in_step_keep | intros ?; cbv beta]).
  apply job_read; [apply in_step_some | intros e].
  destruct (completedAt e), (startedAt e).
  - eapply hoare_bind; [apply job_gets | intros t].
    apply hoare_ret. by intros s [_ H].
  - apply job_throw. intros oe orow [_ H]. revert H. by apply in_step_in_memory.
  - apply job_throw. intros oe orow [_ H]. revert H. by apply in_step_in_memory.
  - apply job_throw. intros oe orow [_ H]. revert H. by apply in_step_in_memory.
Qed.

(** One run of [executeTask] on a job that has a record in memory:
    at every suspension point the stored row has the status and the
    progress of the record, and so it has at the end, where the
    record is completed at 100 when the run returns and failed with
    the message as error when it throws. *)
Lemma walk_executeTask (data : JobData) :
  d_jobId data = j ->
  walk tracked (executeTask uuid llm_initialize executeChain runPOC data)
    (fun o s =>
       at_job j (in_step (fun e => (status e = completed /\ is_Some (completedAt e)) /\
                                   progress e = 100)) s /\
       o_success o = true /\ o_jobId o = j)
    (fun message =>
       at_job j (in_step (fun e => status e = failed /\ error e = Some message /\
                                   is_Some (completedAt e)))).
Proof.
  intros Hj. unfold executeTask. cbv zeta. rewrite Hj.
  apply job_lookup; [apply in_memory_some | intros e0].
  apply (hoare_try_catch _ _ _ _ _ thrown).
  - (* the run *)
    eapply hoare_bind; [apply job_gets | intros t; cbv beta].
    eapply hoare_bind.
    { apply (job_mutate _ _ _ (in_memory (fun e => status e = running))).
      intros oe orow. by apply in_memory_mutate. }
    intros ?. cbv beta.
    apply job_read; [apply in_memory_some | intros e].
    eapply hoare_bind.
    { apply (job_upsertExecution _ _ _ (in_step (fun e => status e = running)));
        [done |].
      intros oe orow [-> (e' & [= <-] & Hs)]. eexists e, _. repeat split; done. }
    intros ?. cbv beta.
    eapply hoare_bind; [in_step_keep | intros ?; cbv beta].
    eapply hoare_bind; [apply job_gets | intros t'; cbv beta].
    apply job_read; [apply in_step_some | intros e'].
    eapply hoare_bind.
    { apply (job_upsertExecution _ _ _ (in_step (fun e => status e = running)));
        [done |].
      intros oe orow [-> (e'' & row & [= <-] & _ & Hs & _)].
      eexists e', _. repeat split; done. }
    intros ?. cbv beta.
    eapply hoare_bind; [in_step_keep | intros ?; cbv beta].
    eapply hoare_bind.
    { unfold initializeAIService. destruct (llm_initialize _) as [message|].
      - apply job_throw. intros oe orow. by apply in_step_in_memory.
      - apply job_ret. }
    intros ?. cbv beta.
    eapply hoare_bind; [in_step_keep | intros ?; cbv beta].
    eapply hoare_bind.
    { apply (job_mutate _ _ _ (in_memory any_record)).
      intros oe orow H. eapply in_memory_mutate; [| eapply in_step_in_memory; [| exact H]];
        done. }
    intros ?. cbv beta.
    eapply hoare_bind; [by apply (walk_updateExecutionProgress any_record) |].
    intros ?. cbv beta.
    eapply hoare_bind; [in_step_keep | intros ?; cbv beta].
    eapply hoare_bind.
    { eapply job_weaken; [| apply walk_executePentestChain].
      intros oe orow. by apply in_step_weaken. }
    intros chainResult. cbv beta.
    eapply hoare_bind.
    { apply (job_mutate _ _ _ (in_memory any_record)).
      intros oe orow H. eapply in_memory_mutate; [| eapply in_step_in_memory; [| exact H]];
        done. }
    intros ?. cbv beta.
    eapply hoare_bind; [by apply (walk_updateExecutionProgress any_record) |].
    intros ?. cbv beta.
    eapply hoare_bind; [in_step_keep | intros ?; cbv beta].
    eapply hoare_bind.
    { eapply job_weaken; [| apply walk_generateReport].
      intros oe orow. by apply in_step_weaken. }
    intros report. cbv beta.
    eapply hoare_bind; [in_step_keep | intros ?; cbv beta].
    eapply hoare_bind; [apply job_gets | intros t3; cbv beta].
    eapply hoare_bind.
    { apply (job_mutate _ _ _
               (in_memory (fun e => status e = completed /\ is_Some (completedAt e)))).
      intros oe orow H. eapply in_memory_mutate; [| eapply in_step_in_memory; [| exact H]];
        [| done]. intros x _. cbn. eauto. }
    intros ?. cbv beta.
    eapply hoare_bind.
    { apply (walk_updateExecutionProgress
               (fun e => status e = completed /\ is_Some (completedAt e))).
      intros e1 e2 Hs Hc _ [H1 H2]. by rewrite Hs, Hc. }
    intros ?. cbv beta.
    eapply hoare_bind; [in_step_keep | intros ?; cbv beta].
    apply job_read; [apply in_step_some | intros e3]. cbv zeta.
    assert (forall oe orow,
              oe = Some e3 /\
              in_step (fun e => (status e = completed /\ is_Some (completedAt e)) /\
                                progress e = 100) oe orow ->
              in_step (fun e => (status e = completed /\ is_Some (completedAt e)) /\
                                progress e = 100) oe
                (Some (bound_execution
                         (mkExecRow j (id (d_taskConfig data)) completed 100 "任务完成"
                            (startedAt e3) (completedAt e3) None)))) as Hdone.
    { intros oe orow [-> (e'' & row & [= <-] & _ & [[Hs Hc] Hp] & _)].
      eexists e3, _. repeat split; done. }
    eapply hoare_bind; [apply job_upsertExecution; [done | exact Hdone] |].
    intros ?. cbv beta.
    eapply hoare_bind; [in_step_keep | intros ?; cbv beta].
    eapply hoare_bind.
    { apply (job_upsertExecution _ _ _
               (in_step (fun e => (status e = completed /\ is_Some (completedAt e)) /\
                                  progress e = 100))); [done |].
      intros oe orow (e'' & row & -> & _ & [[Hs Hc] Hp] & _).
      eexists e'', _. repeat split; done. }
    intros ?. cbv beta.
    eapply hoare_bind; [in_step_keep | intros ?; cbv beta].
    eapply hoare_bind; [apply job_gets | intros t4; cbv beta].
    apply hoare_ret. intros s H. by split.
  - (* the handler *)
    intros message.
    eapply hoare_bind; [apply job_gets | intros t; cbv beta].
    eapply hoare_bind.
    { apply (job_mutate _ _ _
               (in_memory (fun e => status e = failed /\ error e = Some message /\
                                    is_Some (completedAt e)))).
      intros oe orow. apply in_memory_mutate. intros x _. cbn. eauto. }
    intros ?. cbv beta.
    apply job_read; [apply in_memory_some | intros e].
    eapply hoare_bind.
    { apply (job_upsertExecution _ _ _
               (in_step (fun e => status e = failed /\ error e = Some message /\
                                  is_Some (completedAt e)))); [done |].
      intros oe orow [-> (e' & [= <-] & Hs & He & Hc)].
      eexists e, _. repeat split; done. }
    intros ?. cbv beta.
    eapply hoare_bind; [in_step_keep | intros ?; cbv beta].
    apply hoare_throw. intros s H. exact H.
Qed.


End Walk.

Abbreviation run_executeTask_stored :=
  (executeTask uuid llm_initialize executeChain runPOC).

(** X17.  A run of [executeTask] on a job that has a record in
    memory never leaves the job running or pending.  When it returns,
    the record and the row of the job in the table of executions are
    completed at progress 100 and the result reports success; when it
    throws, the record and the row are failed and the record carries
    the message thrown as its error; in both cases the record has a
    completion time.  The row is what [getExecution] answers for a job
    id that stays a text in its SELECT statement. *)
Theorem executeTask_ends_completed_or_failed (data : JobData) (s : Store)
    (e : TaskExecution) :
  activeExecutions s !! d_jobId data = Some e ->
  let r := run_executeTask_stored data s in
  exists e' row,
    lookup_status (d_jobId data) (final r) = Some e' /\
    stored_execution (d_jobId data) (db (final r)) = Some row /\
    (literal (d_jobId data) = true ->
     db_getExecution (d_jobId data) (db (final r)) = inl (Some row)) /\
    is_Some (completedAt e') /\
    r_status row = status e' /\ r_progress row = progress e' /\
    match outcome r with
    | Return o =>
        status e' = completed /\ progress e' = 100 /\ o_success o = true /\
        o_jobId o = d_jobId data
    | Throw message => status e' = failed /\ error e' = Some message
    end.
Proof.
  intros He r.
  destruct (walk_executeTask (d_jobId data) data eq_refl s) as [_ Hout].
  { exists e. by split. }
  fold r in Hout.
  assert (forall row, stored_execution (d_jobId data) (db (final r)) = Some row ->
            literal (d_jobId data) = true ->
            db_getExecution (d_jobId data) (db (final r)) = inl (Some row)) as Hread.
  { intros row Hrow Hliteral. by rewrite db_getExecution_literal, Hrow. }
  destruct (outcome r) as [o | message].
  - destruct Hout as [(e' & row & He' & Hrow & [[Hs Hc] Hp] & Hrs & Hrp) [Ho1 Ho2]].
    exists e', row. split; [by apply lookup_status_tracked |].
    split; [exact Hrow |]. split; [by apply Hread |]. auto 10.
  - destruct Hout as (e' & row & He' & Hrow & (Hs & Herr & Hc) & Hrs & Hrp).
    exists e', row. split; [by apply lookup_status_tracked |].
    split; [exact Hrow |]. split; [by apply Hread |]. auto 10.
Qed.

(** X18.  What a run of [executeTask] shows is what it has stored.
    For a job id that stays a text in the SELECT statements: at each
    suspension point of the run and at its end, [getExecution], which
    answers behind the statements called so far, answers with a row
    that has the status and the progress of the record that
    [getTaskStatus] shows at that point; and so does [getTaskStatus] on
    a server started anew on the database once those statements have
    run, with no findings and no results. *)
Theorem executeTask_shows_what_it_stored (data : JobData) (s : Store)
    (e : TaskExecution) :
  activeExecutions s !! d_jobId data = Some e ->
  literal (d_jobId data) = true ->
  let r := run_executeTask_stored data s in
  Forall (fun s' =>
            exists shown row stored,
              lookup_status (d_jobId data) s' = Some shown /\
              db_getExecution (d_jobId data) (db s') = inl (Some row) /\
              r_status row = status shown /\ r_progress row = progress shown /\
              lookup_status (d_jobId data) (after_restart s') = Some stored /\
              status stored = status shown /\ progress stored = progress shown /\
              vulnerabilities stored = [] /\ results stored = [])
    (seen r ++ [final r]).
Proof.
  intros He Hliteral r.
  assert (forall s', at_job (d_jobId data) (in_step any_record) s' ->
            exists shown row stored,
              lookup_status (d_jobId data) s' = Some shown /\
              db_getExecution (d_jobId data) (db s') = inl (Some row) /\
              r_status row = status shown /\ r_progress row = progress shown /\
              lookup_status (d_jobId data) (after_restart s') = Some stored /\
              status stored = status shown /\ progress stored = progress shown /\
              vulnerabilities stored = [] /\ results stored = []) as Hview.
  { intros s' (shown & row & Hshown & Hrow & _ & Hs & Hp).
    exists shown, row. eexists. split; [by apply lookup_status_tracked |].
    split; [by rewrite db_getExecution_literal, Hrow |].
    split; [exact Hs |]. split; [exact Hp |].
    rewrite lookup_status_literal by done. unfold after_restart.
    cbn [activeExecutions db]. rewrite lookup_empty, stored_execution_run_waiting, Hrow.
    split; [reflexivity |]. cbn. auto. }
  destruct (walk_executeTask (d_jobId data) data eq_refl s) as [Hseen Hout].
  { exists e. by split. }
  fold r in Hseen, Hout. apply Forall_app. split.
  - eapply Forall_impl; [exact Hseen |]. exact Hview.
  - constructor; [| constructor]. apply Hview.
    destruct (outcome r) as [o | message].
    + destruct Hout as [Hout _]. revert Hout. by apply in_step_weaken.
    + revert Hout. by apply in_step_weaken.
Qed.

End Stored.

(** *** A run on a record that an earlier run has left *)

Lemma returns_try_catch (j : string) {A} (P P' : TaskExecution -> Prop) (m : M A)
    (handler : string -> M A) :
  returns j P P' m -> returns j P P' (try_catch m handler).
Proof.
  intros Hm s e He HP. unfold try_catch.
  destruct (Hm s e He HP) as (e' & He' & [a Ha] & HP').
  rewrite Ha. exists e'. rewrite Ha. eauto.
Qed.

Section Retry.

Variable uuid : nat -> string.
Variable llm_initialize : TaskConfig -> option string.
Variable executeChain : TaskConfig -> ChainOutcome.
Variable runPOC : TaskConfig -> Vulnerability -> PocOutcome.

Abbreviation run_executeTask_again :=
  (executeTask uuid llm_initialize executeChain runPOC).

Lemma returns_updateExecutionProgress_finished (j : string) (p : Z) (stage : string) :
  returns j finished_and_started finished_and_started
    (updateExecutionProgress uuid j p stage).
Proof.
  unfold updateExecutionProgress.
  apply triple_lookup. intros e0 _.
  apply returns_seq; [returns_auto | intros _].
  apply returns_seq; [returns_auto | intros _].
  apply returns_seq; [apply returns_log_to_db | intros _].
  returns_auto.
Qed.

Lemma returns_verify_all_finished (cfg : TaskConfig) (j : string)
    (l : list Vulnerability) :
  returns j finished_and_started finished_and_started (verify_all uuid runPOC cfg j l).
Proof.
  induction l as [|v rest IH]; simpl; [apply returns_ret |].
  apply returns_seq; [| intros v'; apply returns_seq;
                             [apply IH | intros rest'; apply returns_ret]].
  unfold verify_one. destruct (runPOC cfg v) as [message | r]; [returns_auto |].
  apply returns_seq; [apply returns_await | intros _].
  apply returns_seq; [apply returns_uuidv4 | intros pocId].
  apply returns_seq; [apply returns_await | intros _].
  destruct (POCManager.vulnerabilityConfirmed r); [| apply returns_ret].
  apply returns_seq; [returns_auto | intros _].
  apply returns_seq; [apply returns_log_to_db | intros _]. apply returns_ret.
Qed.

Lemma returns_executePentestChain_finished (cfg : TaskConfig) (j : string)
    (results : list JsValue) (vulns : list Vulnerability) :
  executeChain cfg = ChainReturned true results vulns ->
  returns j finished_and_started finished_and_started
    (executePentestChain uuid executeChain runPOC cfg j).
Proof.
  intros Hchain. unfold executePentestChain. rewrite Hchain. simpl.
  do 2 (apply returns_seq; [returns_auto | intros _]).
  apply returns_seq; [apply returns_log_to_db | intros _].
  do 2 (apply returns_seq; [returns_auto | intros _]).
  destruct vulns as [|v rest]; [apply returns_ret |].
  apply returns_seq; [returns_auto | intros _].
  apply returns_seq; [apply returns_updateExecutionProgress_finished | intros _].
  apply returns_seq; [returns_auto | intros _].
  apply returns_seq; [apply returns_verify_all_finished | intros vulns'].
  apply returns_ret.
Qed.

Lemma returns_generateReport_finished (cfg : TaskConfig) (j : string) :
  returns j finished_and_started finished_and_started (generateReport uuid cfg j).
Proof.
  unfold generateReport.
  apply returns_seq; [returns_auto | intros _].
  apply returns_seq; [apply returns_log_to_db | intros _].
  apply triple_read. intros e [[c Hc] [st Hst]]. rewrite Hc, Hst.
  apply (triple_pre j finished_and_started).
  { intros e' ->. split; eauto. }
  apply (returns_seq j); [apply returns_gets | intros t]. apply returns_ret.
Qed.

(** A run of [executeTask] on a record that has a completion time,
    with the AI service initialised and the chain successful,
    returns. *)
Lemma executeTask_finished_returns (data : JobData)
    (results : list JsValue) (vulns : list Vulnerability) :
  llm_initialize (d_taskConfig data) = None ->
  executeChain (d_taskConfig data) = ChainReturned true results vulns ->
  returns (d_jobId data) finished finished_and_started (run_executeTask_again data).
Proof.
  intros Hinit Hchain.
  unfold executeTask. set (j := d_jobId data). set (cfg := d_taskConfig data).
  apply triple_lookup. intros e0 _.
  apply returns_try_catch.
  apply (triple_after j finished finished); [returns_auto | intros t].
  apply (triple_after j finished finished_and_started).
  { apply returns_mutate. intros e He. split; [exact He | cbn; eauto]. }
  intros _.
  do 7 (apply returns_seq; [returns_auto | intros ?]).
  apply returns_seq.
  { unfold initializeAIService. fold cfg in Hinit. rewrite Hinit. apply returns_ret. }
  intros _.
  do 2 (apply returns_seq; [returns_auto | intros _]).
  apply returns_seq; [apply returns_updateExecutionProgress_finished | intros _].
  apply returns_seq; [returns_auto | intros _].
  apply returns_seq;
    [by apply (returns_executePentestChain_finished cfg j results vulns) |
     intros chainResult].
  apply returns_seq; [returns_auto | intros _].
  apply returns_seq; [apply returns_updateExecutionProgress_finished | intros _].
  apply returns_seq; [returns_auto | intros _].
  apply returns_seq; [apply returns_generateReport_finished | intros report].
  apply returns_seq; [returns_auto | intros _].
  apply returns_seq; [returns_auto | intros t3].
  apply returns_seq.
  { apply returns_mutate. intros e [_ He]. split; [cbn; eauto | exact He]. }
  intros _.
  apply returns_seq; [apply returns_updateExecutionProgress_finished | intros _].
  returns_auto.
Qed.

(** X19.  [executeTask] does not look at the status of the record it
    starts from.  On a record that has a completion time, as a record
    has that an earlier run left failed, that [cancelTask] marked
    cancelled or that is completed already, a run with the AI service
    initialised and the chain successful returns, and leaves the job
    completed at progress 100. *)
Theorem executeTask_completes_a_finished_record (data : JobData) (s : Store)
    (e : TaskExecution) (results : list JsValue) (vulns : list Vulnerability) :
  activeExecutions s !! d_jobId data = Some e ->
  is_Some (completedAt e) ->
  llm_initialize (d_taskConfig data) = None ->
  executeChain (d_taskConfig data) = ChainReturned true results vulns ->
  let r := run_executeTask_again data s in
  exists o e',
    outcome r = Return o /\ o_success o = true /\
    lookup_status (d_jobId data) (final r) = Some e' /\
    status e' = completed /\ progress e' = 100.
Proof.
  intros He Hfinished Hinit Hchain r.
  destruct (executeTask_finished_returns data results vulns Hinit Hchain s e He
              Hfinished) as (e1 & He1 & [o Ho] & _).
  destruct (walk_executeTask uuid llm_initialize executeChain runPOC (d_jobId data)
              data eq_refl s) as [_ Hout].
  { exists e. by split. }
  fold r in Ho, Hout. rewrite Ho in Hout.
  destruct Hout as [(e' & row & He' & _ & [[Hs _] Hp] & _) [Hsuccess _]].
  exists o, e'. split; [done |]. split; [done |].
  split; [by apply lookup_status_tracked | done].
Qed.

End Retry.

(** *** Control operations and submission *)

(** X20.  [pauseTask], [resumeTask] and [cancelTask] never write to
    the persistent store: the store is the same after each of them,
    so a server started anew answers [getTaskStatus] as if the
    operation had not happened; a cancellation in particular is
    forgotten. *)
Theorem control_operations_are_not_persisted (j : string) (s : Store) :
  db (final (pauseTask j s)) = db s /\
  db (final (resumeTask j s)) = db s /\
  db (final (cancelTask j s)) = db s /\
  forall k,
    lookup_status k (after_restart (final (cancelTask j s)))
    = lookup_status k (after_restart s).
Proof.
  assert (db (final (pauseTask j s)) = db s /\ db (final (resumeTask j s)) = db s)
    as [Hpause Hresume].
  { destruct s as [act d q imm clk n]. destruct q as [av iss js].
    split; (destruct av; [| reflexivity]); exec; destruct (js !! j); reflexivity. }
  assert (db (final (cancelTask j s)) = db s /\
          activeExecutions (after_restart (final (cancelTask j s)))
          = activeExecutions (after_restart s)) as [Hcancel Hmemory].
  { destruct s as [act d q imm clk n]. destruct q as [av iss js].
    split; [| reflexivity].
    destruct av; [| reflexivity]. exec. destruct (js !! j); reflexivity. }
  split; [exact Hpause |]. split; [exact Hresume |]. split; [exact Hcancel |].
  intros k. apply lookup_status_same; [exact Hmemory |].
  unfold after_restart. cbn [db]. by rewrite Hcancel.
Qed.

(** X21.  A cancellation cannot be repeated: whatever the first call
    of [cancelTask] did, a second call for the same job id returns
    false and leaves the store as the first call left it. *)
Theorem cancelTask_is_not_repeatable (j : string) (s : Store) :
  let s1 := final (cancelTask j s) in
  outcome (cancelTask j s1) = Return false /\ final (cancelTask j s1) = s1.
Proof.
  destruct s as [act d q imm clk n]. destruct q as [av iss js].
  destruct av; [| split; reflexivity].
  destruct (js !! j) as [job|] eqn:Hjob.
  - assert (final (cancelTask j (mkStore act d (mkQueue true iss js) imm clk n))
            = mkStore
                (alter (fun e => set_completedAt (Some clk) (set_status cancelled e)) j act)
                d (mkQueue true iss (delete j js)) imm clk n) as ->.
    { exec. rewrite Hjob. reflexivity. }
    cbv zeta. exec. rewrite lookup_delete_eq. split; reflexivity.
  - assert (final (cancelTask j (mkStore act d (mkQueue true iss js) imm clk n))
            = mkStore act d (mkQueue true iss js) imm clk n) as ->.
    { exec. rewrite Hjob. reflexivity. }
    cbv zeta. exec. rewrite Hjob. split; reflexivity.
Qed.

(** X22.  [pauseTask] is idempotent, and so is [resumeTask]: a second
    call for the same job id returns what the first returned and
    leaves the store as the first left it. *)
Theorem pauseTask_is_idempotent (j : string) (s : Store) :
  (outcome (pauseTask j (final (pauseTask j s))) = outcome (pauseTask j s) /\
   final (pauseTask j (final (pauseTask j s))) = final (pauseTask j s)) /\
  (outcome (resumeTask j (final (resumeTask j s))) = outcome (resumeTask j s) /\
   final (resumeTask j (final (resumeTask j s))) = final (resumeTask j s)).
Proof.
  assert (forall s0, pauseTask j s0 = mkRun (Return false) s0 (seen (pauseTask j s0)))
    as Hpause.
  { intros s0. destruct s0 as [act d q imm clk n]. destruct q as [av iss js].
    destruct av; [| reflexivity]. exec. destruct (js !! j); reflexivity. }
  assert (forall s0, resumeTask j s0 = mkRun (Return false) s0 (seen (resumeTask j s0)))
    as Hresume.
  { intros s0. destruct s0 as [act d q imm clk n]. destruct q as [av iss js].
    destruct av; [| reflexivity]. exec. destruct (js !! j); reflexivity. }
  split.
  - rewrite (Hpause s). cbn [final outcome]. by rewrite (Hpause s).
  - rewrite (Hresume s). cbn [final outcome]. by rewrite (Hresume s).
Qed.

Section Submission.

Variable uuid : nat -> string.

(** X23.  [createTask] leaves every other job alone: for a job id
    other than the one it draws, the record in memory, the stored row
    and the stored log rows are, at each suspension point and at the
    end, those from before the call; and [getTaskStatus], asked for the
    other job under an id that stays a text in the SELECT statements,
    answers what it answered before. *)
Theorem createTask_leaves_other_jobs_alone (taskConfig : TaskConfig) (s : Store)
    (k : string) :
  k <> uuid (drawn s) ->
  let r := createTask uuid taskConfig s in
  Forall (fun s' => kept k s' = kept k s /\
                    (literal k = true -> lookup_status k s' = lookup_status k s))
    (seen r ++ [final r]).
Proof.
  intros Hother r.
  assert (Forall (fun s' => kept k s' = kept k s) (seen r ++ [final r])) as Hkept.
  { subst r. destruct s as [act d q imm clk n]. destruct q as [av iss js].
    destruct d as [tb w be bl]. cbn [drawn] in Hother.
    assert (forall t x, l_jobId (mkLogRow x (uuid n) t clk) <> k) as Hlog
      by (intros t x; cbn; congruence).
    destruct av; exec;
      repeat (apply Forall_cons; split); try apply Forall_nil;
      unfold kept, stored_execution, stored_logs, settled;
      cbn [activeExecutions db tables waiting];
      rewrite ?foldl_app; cbn [foldl run_statement];
      repeat case_bool_decide; cbn [executions log_rows];
      rewrite ?lookup_insert_ne, ?filter_app, ?filter_cons_False, ?filter_nil, ?app_nil_r
        by (cbn; congruence);
      reflexivity. }
  eapply Forall_impl; [exact Hkept |]. cbv beta.
  intros s' Hs'. split; [done |]. intros Hliteral.
  unfold kept in Hs'. injection Hs' as Hact Hrow Hlogs.
  rewrite !lookup_status_literal by done. by rewrite Hact, Hrow, Hlogs.
Qed.

End Submission.

(** *** The list of all tasks *)

Lemma put_execution_cons (x e : TaskExecution) (l : list TaskExecution) :
  put_execution (x :: l) e
  = if decide (jobId x = jobId e) then e :: l else x :: put_execution l e.
Proof.
  unfold put_execution. cbn [list_find].
  destruct (decide (jobId x = jobId e)); [done |].
  destruct (list_find _ l) as [[idx y]|]; reflexivity.
Qed.

Lemma put_execution_ids (e : TaskExecution) (l : list TaskExecution) :
  map jobId (put_execution l e)
  = if decide (jobId e ∈ map jobId l) then map jobId l
    else (map jobId l ++ [jobId e])%list.
Proof.
  induction l as [|x l IH].
  - cbn. rewrite decide_False; [done |]. by intros H%elem_of_nil.
  - rewrite put_execution_cons. cbn [map].
    destruct (decide (jobId x = jobId e)) as [Heq | Hne].
    + rewrite decide_True by (rewrite Heq; apply list_elem_of_here).
      cbn [map]. by rewrite Heq.
    + cbn [map]. rewrite IH.
      destruct (decide (jobId e ∈ map jobId l)) as [Hin | Hout].
      * by rewrite decide_True by (by apply list_elem_of_further).
      * rewrite decide_False; [done |].
        intros [? | ?]%elem_of_cons; [congruence | done].
Qed.

Lemma put_execution_in (e : TaskExecution) (l : list TaskExecution) :
  In e (put_execution l e).
Proof.
  induction l as [|x l IH]; [by left |].
  rewrite put_execution_cons. destruct (decide _); [by left | by right].
Qed.

Lemma put_execution_keeps (e x : TaskExecution) (l : list TaskExecution) :
  In x l -> jobId x <> jobId e -> In x (put_execution l e).
Proof.
  induction l as [|y l IH]; [done |].
  rewrite put_execution_cons. intros [-> | Hin] Hne.
  - rewrite decide_False by done. by left.
  - destruct (decide _); right; [done | by apply IH].
Qed.

Lemma put_execution_from (e x : TaskExecution) (l : list TaskExecution) :
  NoDup (map jobId l) -> In x (put_execution l e) ->
  x = e \/ (In x l /\ jobId x <> jobId e).
Proof.
  induction l as [|y l IH]; [intros _ [<- | []]; by left |].
  rewrite put_execution_cons. cbn [map]. rewrite NoDup_cons. intros [Hfresh Hl].
  destruct (decide (jobId y = jobId e)) as [Heq | Hne].
  - intros [<- | Hin]; [by left |]. right. split; [by right |].
    intros Hx. apply Hfresh. rewrite Heq, <- Hx. by apply list_elem_of_In, in_map.
  - intros [<- | Hin]; [right; split; [by left | done] |].
    destruct (IH Hl Hin) as [-> | [Hx Hne']]; [by left | right; split; [by right | done]].
Qed.

Lemma put_execution_NoDup (e : TaskExecution) (l : list TaskExecution) :
  NoDup (map jobId l) -> NoDup (map jobId (put_execution l e)).
Proof.
  intros Hl. rewrite put_execution_ids. destruct (decide _) as [Hin | Hout]; [done |].
  apply NoDup_app. split; [done |]. split; [| apply NoDup_singleton].
  intros i Hi Hi'. apply list_elem_of_singleton in Hi'. by subst.
Qed.

(** The loop of [getAllTasks] from a list with distinct job ids. *)
Lemma put_executions (l actives : list TaskExecution) :
  NoDup (map jobId l) -> NoDup (map jobId actives) ->
  let all := foldl put_execution l actives in
  NoDup (map jobId all) /\
  (forall e, In e actives -> In e all) /\
  (forall x, In x l -> ~ In (jobId x) (map jobId actives) -> In x all) /\
  (forall x, In x all ->
     In x actives \/ (In x l /\ ~ In (jobId x) (map jobId actives))).
Proof.
  revert l. induction actives as [|e rest IH]; intros l Hl Hactives; cbn [foldl map].
  { split; [done |]. split; [by intros e [] |]. split; [done |].
    intros x Hx. right. split; [done | by intros []]. }
  cbn [map] in Hactives. apply NoDup_cons in Hactives as [Hfresh Hrest].
  destruct (IH (put_execution l e) (put_execution_NoDup e l Hl) Hrest)
    as (Hdistinct & Hmem & Hkeep & Hfrom).
  split; [exact Hdistinct |]. split; [| split].
  - intros e' [<- | He']; [| by apply Hmem].
    apply Hkeep; [apply put_execution_in |].
    intros Hin. apply Hfresh. by apply list_elem_of_In.
  - intros x Hx Hno. apply Hkeep.
    + apply put_execution_keeps; [done |]. intros Heq. apply Hno. by left.
    + intros Hin. apply Hno. by right.
  - intros x Hx. destruct (Hfrom x Hx) as [Hin | [Hin Hno]]; [left; by right |].
    destruct (put_execution_from e x l Hl Hin) as [-> | [Hxl Hne]]; [left; by left |].
    right. split; [done |]. intros [Heq | Hin']; [congruence | done].
Qed.

(** X24.  [getAllTasks] lists every job once, with the record in
    memory taking the place of the stored row: for rows with distinct
    job ids and records with distinct job ids, the list has distinct
    job ids, holds every record in memory as it is, and holds for
    every stored row whose job has no record in memory the execution
    made of the row, with no log lines, findings or results; it holds
    nothing else. *)
Theorem getAllTasks_memory_takes_precedence (rows : list ExecRow)
    (actives : list TaskExecution) :
  NoDup (map r_jobId rows) -> NoDup (map jobId actives) ->
  let all := getAllTasks rows actives in
  NoDup (map jobId all) /\
  (forall e, In e actives -> In e all) /\
  (forall r, In r rows -> ~ In (r_jobId r) (map jobId actives) ->
             In (execution_of_row r) all /\
             logs (execution_of_row r) = [] /\
             vulnerabilities (execution_of_row r) = [] /\
             results (execution_of_row r) = []) /\
  (forall x, In x all ->
     In x actives \/
     exists r, In r rows /\ x = execution_of_row r /\
               ~ In (r_jobId r) (map jobId actives)).
Proof.
  intros Hrows Hactives. unfold getAllTasks.
  assert (NoDup (map jobId (map execution_of_row rows))) as Hinit.
  { rewrite map_map. exact Hrows. }
  destruct (put_executions (map execution_of_row rows) actives Hinit Hactives)
    as (Hdistinct & Hmem & Hkeep & Hfrom).
  cbv zeta. split; [exact Hdistinct |]. split; [exact Hmem |]. split.
  - intros r Hr Hno. split; [| done]. apply Hkeep; [by apply in_map | done].
  - intros x Hx. destruct (Hfrom x Hx) as [Hin | [Hin Hno]]; [by left |].
    right. apply in_map_iff in Hin as (r & <- & Hr). eauto.
Qed.

End TaskManagerLaws.

(** ** The submission, continued *)

Module ScenarioLaws.

Import TaskManager TaskManagerFacts TaskManagerLaws Scenario.

(** X16 at the first run of the first job, beside a second job. *)
Lemma executeTask_leaves_other_jobs_alone_witness :
  Forall (fun s' => kept "uuid-2" s' = kept "uuid-2" (final created_twice) /\
                    taskQueue s' = taskQueue (final created_twice) /\
                    immediates s' = immediates (final created_twice) /\
                    (literal "uuid-2" = true ->
                     lookup_status "uuid-2" s'
                     = lookup_status "uuid-2" (final created_twice)))
    (seen first_beside ++ [final first_beside]).
Proof.
  apply (executeTask_leaves_other_jobs_alone uuid initialised chain_ok poc_confirms
           job "uuid-2" (final created_twice)).
  vm_compute. discriminate.
Defined.

(** The second job is still pending when the first run has failed. *)
Example second_job_still_pending :
  outcome created_twice = Return ("task_1", "uuid-2") /\
  status <$> lookup_status "uuid-2" (final first_beside) = Some pending /\
  status <$> lookup_status "uuid-0" (final first_beside) = Some failed.
Proof. vm_compute. done. Qed.

(** X17 at the first run of the submitted job. *)
Lemma executeTask_ends_completed_or_failed_witness :
  exists e' row,
    lookup_status "uuid-0" (final first) = Some e' /\
    stored_execution "uuid-0" (db (final first)) = Some row /\
    (literal "uuid-0" = true ->
     db_getExecution "uuid-0" (db (final first)) = inl (Some row)) /\
    is_Some (completedAt e') /\
    r_status row = status e' /\ r_progress row = progress e' /\
    match outcome first with
    | Return o =>
        status e' = completed /\ progress e' = 100 /\ o_success o = true /\
        o_jobId o = "uuid-0"
    | Throw message => status e' = failed /\ error e' = Some message
    end.
Proof.
  apply (executeTask_ends_completed_or_failed uuid initialised chain_ok poc_confirms
           job (final created) (initial_execution "uuid-0" "task_1")).
  vm_compute. reflexivity.
Defined.

(** X18 at the first run of the submitted job. *)
Lemma executeTask_shows_what_it_stored_witness :
  Forall (fun s' =>
            exists shown row stored,
              lookup_status "uuid-0" s' = Some shown /\
              db_getExecution "uuid-0" (db s') = inl (Some row) /\
              r_status row = status shown /\ r_progress row = progress shown /\
              lookup_status "uuid-0" (after_restart s') = Some stored /\
              status stored = status shown /\ progress stored = progress shown /\
              vulnerabilities stored = [] /\ results stored = [])
    (seen first ++ [final first]).
Proof.
  apply (executeTask_shows_what_it_stored uuid initialised chain_ok poc_confirms
           job (final created) (initial_execution "uuid-0" "task_1")).
  - vm_compute. reflexivity.
  - vm_compute. reflexivity.
Defined.

(** At the suspension point of the first awaited write the statement
    still waits, and the row that a reader gets is the one it
    writes. *)
Example first_write_waits :
  length (waiting (db (nth 0 (seen first) started))) = 1%nat /\
  r_status <$> executions (tables (db (nth 0 (seen first) started))) !! "uuid-0"
  = Some pending /\
  r_status <$> stored_execution "uuid-0" (db (nth 0 (seen first) started))
  = Some running.
Proof. vm_compute. done. Qed.

(** X19 at the run that follows the failed first run. *)
Lemma executeTask_completes_a_finished_record_witness :
  exists o e',
    outcome retry = Return o /\ o_success o = true /\
    lookup_status "uuid-0" (final retry) = Some e' /\
    status e' = completed /\ progress e' = 100.
Proof.
  apply (executeTask_completes_a_finished_record uuid initialised chain_ok poc_confirms
           job (final first)
           (default (initial_execution "" "") (lookup_status "uuid-0" (final first)))
           [JStr "scan"] [finding]).
  - vm_compute. reflexivity.
  - vm_compute. eauto.
  - reflexivity.
  - reflexivity.
Defined.

(** X23 at a second submission, for the job of the first. *)
Lemma createTask_leaves_other_jobs_alone_witness :
  Forall (fun s' => kept "uuid-0" s' = kept "uuid-0" (final created) /\
                    (literal "uuid-0" = true ->
                     lookup_status "uuid-0" s' = lookup_status "uuid-0" (final created)))
    (seen created_twice ++ [final created_twice]).
Proof.
  apply (createTask_leaves_other_jobs_alone uuid t1 (final created) "uuid-0").
  vm_compute. discriminate.
Defined.

(** X24 at two stored rows and two records in memory. *)
Lemma getAllTasks_memory_takes_precedence_witness :
  NoDup (map jobId (getAllTasks sample_rows sample_actives)) /\
  (forall e, In e sample_actives -> In e (getAllTasks sample_rows sample_actives)) /\
  (forall r, In r sample_rows -> ~ In (r_jobId r) (map jobId sample_actives) ->
             In (execution_of_row r) (getAllTasks sample_rows sample_actives) /\
             logs (execution_of_row r) = [] /\
             vulnerabilities (execution_of_row r) = [] /\
             results (execution_of_row r) = []) /\
  (forall x, In x (getAllTasks sample_rows sample_actives) ->
     In x sample_actives \/
     exists r, In r sample_rows /\ x = execution_of_row r /\
               ~ In (r_jobId r) (map jobId sample_actives)).
Proof.
  apply (getAllTasks_memory_takes_precedence sample_rows sample_actives).
  - apply (bool_decide_unpack _). vm_compute. exact I.
  - apply (bool_decide_unpack _). vm_compute. exact I.
Defined.

Example sample_list_of_tasks :
  map (fun e => (jobId e, status e)) (getAllTasks sample_rows sample_actives)
  = [("uuid-0", pending); ("uuid-7", completed); ("uuid-2", pending)].
Proof. vm_compute. reflexivity. Qed.

(** A job id that does not stay a text: the SELECT statements made of
    it hold of every row, and [getTaskStatus], asked for a job that
    nobody has submitted, answers with the row and the log rows of the
    job that the database holds. *)
Example getTaskStatus_answers_with_another_job :
  activeExecutions restarted_open !! any_job = None /\
  db_getExecution "uuid-0" (db restarted_open)
  = inl (stored_execution "uuid-0" (db restarted_open)) /\
  jobId <$> lookup_status any_job restarted_open = Some "uuid-0" /\
  status <$> lookup_status any_job restarted_open = Some failed /\
  length <$> (logs <$> lookup_status any_job restarted_open) = Some 7%nat.
Proof. vm_compute. done. Qed.

End ScenarioLaws.

(** ** Regular expressions *)

Module RegexFacts.
Import Regex TextFacts.

Lemma append_nil_inv (a b : string) : a +:+ b = "" -> a = "" /\ b = "".
Proof. destruct a; [done | discriminate]. Qed.

Lemma append_nil_r (a : string) : a +:+ "" = a.
Proof.
  induction a as [|x a IH]; [done |].
  change (String x (a +:+ "") = String x a). by f_equal.
Qed.

Lemma lang_nullable (r : re) (s : string) : lang r s -> s = "" -> nullable r = true.
Proof.
  induction 1 as [| | r1 r2 s1 s2 _ IH1 _ IH2 | r1 r2 s _ IH | r1 r2 s _ IH | |];
    intros Hs; simpl; try done.
  - apply append_nil_inv in Hs as [-> ->]. by rewrite IH1, IH2.
  - by rewrite IH.
  - rewrite IH by done. apply orb_true_r.
Qed.

Lemma nullable_lang (r : re) : nullable r = true <-> lang r "".
Proof.
  split; [| intros H; by apply (lang_nullable r "")].
  induction r as [| | cls | r1 IH1 r2 IH2 | r1 IH1 r2 IH2 | r IH]; simpl; try done.
  - intros _. constructor.
  - intros [H1 H2]%andb_true_iff. apply (lang_seq r1 r2 "" ""); auto.
  - intros [H | H]%orb_true_iff; [apply lang_alt_l | apply lang_alt_r]; auto.
  - intros _. constructor.
Qed.

Lemma lang_deriv (r : re) (t : string) :
  lang r t -> forall c s, t = String c s -> lang (deriv c r) s.
Proof.
  induction 1 as [| cls c0 Hc | r1 r2 s1 s2 H1 IH1 H2 IH2 | r1 r2 t _ IH | r1 r2 t _ IH
                  | | r s1 s2 H1 IH1 H2 IH2];
    intros c s Ht; simpl; try done.
  - injection Ht as -> <-. rewrite Hc. constructor.
  - destruct s1 as [|x s1].
    + change (s2 = String c s) in Ht.
      rewrite (lang_nullable r1 "" H1 eq_refl). apply lang_alt_r. by apply IH2.
    + change (String x (s1 +:+ s2) = String c s) in Ht. injection Ht as -> <-.
      assert (lang (Seq (deriv c r1) r2) (s1 +:+ s2)) as Hseq
        by (apply lang_seq; [by apply IH1 | done]).
      destruct (nullable r1); [by apply lang_alt_l | done].
  - apply lang_alt_l. by apply IH.
  - apply lang_alt_r. by apply IH.
  - destruct s1 as [|x s1].
    + change (s2 = String c s) in Ht. by apply IH2.
    + change (String x (s1 +:+ s2) = String c s) in Ht. injection Ht as -> <-.
      apply lang_seq; [by apply IH1 | done].
Qed.

Lemma deriv_lang (c : ascii) (r : re) (s : string) :
  lang (deriv c r) s <-> lang r (String c s).
Proof.
  split; [| intros H; by apply (lang_deriv r (String c s))].
  revert s. induction r as [| | cls | r1 IH1 r2 IH2 | r1 IH1 r2 IH2 | r IH];
    intros s; simpl.
  - inversion 1.
  - inversion 1.
  - destruct (in_class cls c) eqn:Hc; inversion 1; subst. by constructor.
  - assert (forall t, lang (Seq (deriv c r1) r2) t -> lang (Seq r1 r2) (String c t)) as Hseq.
    { intros t Ht. inversion Ht as [| | ? ? s1 s2 H1 H2 | | | |]; subst.
      apply (lang_seq r1 r2 (String c s1) s2); auto. }
    destruct (nullable r1) eqn:Hn; [| by apply Hseq].
    inversion 1 as [| | | ? ? ? Hl | ? ? ? Hr | |]; subst; [by apply Hseq |].
    apply (lang_seq r1 r2 "" (String c s)); [by apply nullable_lang | auto].
  - inversion 1; subst; [apply lang_alt_l | apply lang_alt_r]; auto.
  - inversion 1 as [| | ? ? s1 s2 H1 H2 | | | |]; subst.
    apply (lang_star_cons r (String c s1) s2); auto.
Qed.

Lemma test_whole_lang (r : re) (s : string) : test_whole r s = true <-> lang r s.
Proof.
  revert r. induction s as [|c s IH]; intros r; simpl.
  - apply nullable_lang.
  - rewrite IH. apply deriv_lang.
Qed.

Lemma test_start_lang (r : re) (s : string) :
  test_start r s = true <-> exists s1 s2, s = s1 +:+ s2 /\ lang r s1.
Proof.
  revert r. induction s as [|c s IH]; intros r.
  - simpl. rewrite orb_false_r, nullable_lang. split.
    + intros H. by exists "", "".
    + intros (s1 & s2 & Hs & H). symmetry in Hs.
      apply append_nil_inv in Hs as [-> _]. done.
  - simpl. rewrite orb_true_iff, IH, nullable_lang. split.
    + intros [H | (s1 & s2 & -> & H)].
      * by exists "", (String c s).
      * exists (String c s1), s2. split; [done | by apply deriv_lang].
    + intros (s1 & s2 & Hs & H). destruct s1 as [|x s1]; [by left | right].
      change (String c s = String x (s1 +:+ s2)) in Hs. injection Hs as <- ->.
      exists s1, s2. split; [done | by apply deriv_lang].
Qed.

End RegexFacts.

(** ** The task creation page *)

Module TaskCreateLaws.
Import Regex TaskCreate TextFacts RegexFacts.

(** *** Texts of the forms of the syntax *)

Lemma lang_eps_iff (s : string) : lang Eps s <-> s = "".
Proof. split; [by inversion 1 | intros ->; constructor]. Qed.

Lemma lang_set_iff (cls : Class) (s : string) :
  lang (Set_ cls) s <-> exists c, s = String c "" /\ in_class cls c = true.
Proof.
  split; [inversion 1; subst; eauto | intros (c & -> & Hc); by constructor].
Qed.

Lemma lang_seq_iff (r1 r2 : re) (s : string) :
  lang (Seq r1 r2) s <-> exists s1 s2, s = s1 +:+ s2 /\ lang r1 s1 /\ lang r2 s2.
Proof.
  split; [inversion 1; subst; eauto | intros (s1 & s2 & -> & H1 & H2); by constructor].
Qed.

Lemma lang_alt_iff (r1 r2 : re) (s : string) :
  lang (Alt r1 r2) s <-> lang r1 s \/ lang r2 s.
Proof.
  split; [inversion 1; subst; auto | intros [H | H]; [by apply lang_alt_l | by apply lang_alt_r]].
Qed.

Lemma lang_opt_iff (r : re) (s : string) : lang (Opt r) s <-> lang r s \/ s = "".
Proof. unfold Opt. by rewrite lang_alt_iff, lang_eps_iff. Qed.

Lemma in_class_lit (c x : ascii) : in_class [range c c] x = true <-> x = c.
Proof.
  unfold in_class, range. simpl. rewrite orb_false_r, andb_true_iff, !N.leb_le. split.
  - intros [H1 H2]. rewrite <- (ascii_N_embedding x), <- (ascii_N_embedding c).
    f_equal. lia.
  - intros ->. lia.
Qed.

Lemma lang_lit (c : ascii) (s : string) : lang (Lit c) s <-> s = String c "".
Proof.
  unfold Lit. rewrite lang_set_iff. split.
  - intros (x & -> & Hx). apply in_class_lit in Hx. by subst.
  - intros ->. exists c. split; [done | by apply in_class_lit].
Qed.

Lemma lang_str (w s : string) : lang (Str w) s <-> s = w.
Proof.
  revert s. induction w as [|c w IH]; intros s; simpl.
  - apply lang_eps_iff.
  - rewrite lang_seq_iff. split.
    + intros (s1 & s2 & -> & H1%lang_lit & H2%IH). by subst.
    + intros ->. exists (String c ""), w. split; [done |]. split; [by apply lang_lit | by apply IH].
Qed.

Lemma all_in_nil (cls : Class) : all_in cls "".
Proof. constructor. Qed.

Lemma all_in_cons (cls : Class) (c : ascii) (s : string) :
  all_in cls (String c s) <-> in_class cls c = true /\ all_in cls s.
Proof. unfold all_in. simpl. apply (Forall_cons (fun x => in_class cls x = true)). Qed.

Lemma all_in_app (cls : Class) (a b : string) :
  all_in cls (a +:+ b) <-> all_in cls a /\ all_in cls b.
Proof. unfold all_in. rewrite chars_app. apply Forall_app. Qed.

Lemma all_in_weaken (cls cls' : Class) (s : string) :
  (forall c, in_class cls c = true -> in_class cls' c = true) ->
  all_in cls s -> all_in cls' s.
Proof. intros Hsub Hall. unfold all_in in *. by apply (Forall_impl _ _ _ Hall). Qed.

Lemma lang_star_set_all (r : re) (s : string) :
  lang r s -> forall cls, r = Star (Set_ cls) -> all_in cls s.
Proof.
  induction 1 as [| | | | | | r s1 s2 H1 _ _ IH2]; intros cls' Hr; try discriminate.
  - apply all_in_nil.
  - injection Hr as ->. apply all_in_app. split; [| by apply IH2].
    apply lang_set_iff in H1 as (c & -> & Hc). apply all_in_cons. split; [done | apply all_in_nil].
Qed.

Lemma lang_star_set (cls : Class) (s : string) :
  lang (Star (Set_ cls)) s <-> all_in cls s.
Proof.
  split; [intros H; by apply (lang_star_set_all _ _ H) |].
  induction s as [|c s IH]; [constructor |].
  intros [Hc Hs]%all_in_cons.
  apply (lang_star_cons (Set_ cls) (String c "") s); [by constructor | auto].
Qed.

Lemma lang_plus_set (cls : Class) (s : string) :
  lang (Plus (Set_ cls)) s <-> s <> "" /\ all_in cls s.
Proof.
  unfold Plus. rewrite lang_seq_iff. split.
  - intros (s1 & s2 & -> & (c & -> & Hc)%lang_set_iff & H2%lang_star_set).
    split; [done |]. by apply all_in_cons.
  - intros [Hne Hall]. destruct s as [|c s]; [done |].
    apply all_in_cons in Hall as [Hc Hs].
    exists (String c ""), s. split; [done |].
    split; [by constructor | by apply lang_star_set].
Qed.

Lemma lang_times_set (n : nat) (cls : Class) (s : string) :
  lang (Times n (Set_ cls)) s -> all_in cls s /\ String.length s = n.
Proof.
  revert s. induction n as [|n IH]; intros s; simpl.
  - intros ->%lang_eps_iff. split; [apply all_in_nil | done].
  - intros (s1 & s2 & -> & (c & -> & Hc)%lang_set_iff & [H2 Hlen]%IH)%lang_seq_iff.
    split; [by apply all_in_cons |]. rewrite length_append. simpl. lia.
Qed.

Lemma lang_upto_set (n : nat) (cls : Class) (s : string) :
  lang (Upto n (Set_ cls)) s -> all_in cls s /\ (String.length s <= n)%nat.
Proof.
  revert s. induction n as [|n IH]; intros s; simpl.
  - intros ->%lang_eps_iff. split; [apply all_in_nil | done].
  - intros [(s1 & s2 & -> & (c & -> & Hc)%lang_set_iff & [H2 Hlen]%IH)%lang_seq_iff | ->]%lang_opt_iff.
    + split; [by apply all_in_cons |]. rewrite length_append. simpl. lia.
    + split; [apply all_in_nil | simpl; lia].
Qed.

(** *** The four checks *)

Lemma validateTarget_ip (t : string) : validateTarget t "ip" = true <-> lang ip_re t.
Proof. apply test_whole_lang. Qed.

Lemma validateTarget_network (t : string) :
  validateTarget t "network" = true <-> lang network_re t.
Proof. apply test_whole_lang. Qed.

Lemma validateTarget_domain (t : string) :
  validateTarget t "domain" = true <-> lang domain_re t.
Proof. apply test_whole_lang. Qed.

Lemma validateTarget_url (t : string) :
  validateTarget t "url" = true <-> exists s1 s2, t = s1 +:+ s2 /\ lang url_re s1.
Proof. apply test_start_lang. Qed.

Lemma lang_number (s : string) : lang (Plus digit) s <-> number s.
Proof. apply lang_plus_set. Qed.

Lemma lang_dotted_quad (q : string) :
  lang dotted_quad q <->
  exists a b c d, number a /\ number b /\ number c /\ number d /\ q = quad a b c d.
Proof.
  unfold dotted_quad, quad. split.
  - intros (a & ? & -> & Ha%lang_number & (? & ? & -> & ->%lang_lit &
            (b & ? & -> & Hb%lang_number & (? & ? & -> & ->%lang_lit &
            (c & ? & -> & Hc%lang_number & (? & d & -> & ->%lang_lit & Hd%lang_number
            )%lang_seq_iff)%lang_seq_iff)%lang_seq_iff)%lang_seq_iff)%lang_seq_iff)%lang_seq_iff.
    by exists a, b, c, d.
  - intros (a & b & c & d & Ha & Hb & Hc & Hd & ->).
    repeat first [ apply lang_seq | by apply lang_number
                 | apply (lang_seq (Lit ".") _ ".") | by apply lang_lit ].
Qed.

Lemma lang_mask (s : string) :
  lang (Seq (Lit "/") (Plus digit)) s <-> exists m, number m /\ s = "/" +:+ m.
Proof.
  rewrite lang_seq_iff. split.
  - intros (? & m & -> & ->%lang_lit & Hm%lang_number). by exists m.
  - intros (m & Hm & ->). exists "/", m. split; [done |].
    split; [by apply lang_lit | by apply lang_number].
Qed.

Lemma number_no_slash (s : string) : number s -> ~ In "/"%char (chars s).
Proof.
  intros [_ Hall] Hin. unfold all_in in Hall. rewrite Forall_forall in Hall.
  apply list_elem_of_In, Hall in Hin. vm_compute in Hin. done.
Qed.

Lemma quad_no_slash (a b c d : string) :
  number a -> number b -> number c -> number d -> ~ In "/"%char (chars (quad a b c d)).
Proof.
  intros Ha%number_no_slash Hb%number_no_slash Hc%number_no_slash Hd%number_no_slash.
  unfold quad. rewrite !chars_app, !in_app_iff. simpl.
  intros [? | [[? | []] | [? | [[? | []] | [? | [[? | []] | ?]]]]]]; done.
Qed.

(** X25.  The check of an IP target looks at the shape only: it accepts
    exactly four runs of decimal digits joined by dots, followed or not
    by a slash and one more run.  No run is bounded, so octets above
    255 and masks above 32 pass. *)
Theorem validateTarget_ip_accepts_exactly (t : string) :
  validateTarget t "ip" = true <->
  exists a b c d, number a /\ number b /\ number c /\ number d /\
    (t = quad a b c d \/ exists m, number m /\ t = quad a b c d +:+ "/" +:+ m).
Proof.
  rewrite validateTarget_ip. unfold ip_re. rewrite lang_seq_iff. split.
  - intros (q & o & -> & (a & b & c & d & Ha & Hb & Hc & Hd & ->)%lang_dotted_quad & Ho).
    exists a, b, c, d. repeat (split; [done |]).
    apply lang_opt_iff in Ho as [(m & Hm & ->)%lang_mask | ->].
    + right. by exists m.
    + left. apply append_nil_r.
  - intros (a & b & c & d & Ha & Hb & Hc & Hd & Ht).
    assert (lang dotted_quad (quad a b c d)) as Hq
      by (apply lang_dotted_quad; by exists a, b, c, d).
    destruct Ht as [-> | (m & Hm & ->)].
    + exists (quad a b c d), "". split; [by rewrite append_nil_r |].
      split; [done |]. apply lang_opt_iff. by right.
    + exists (quad a b c d), ("/" +:+ m). split; [done |]. split; [done |].
      apply lang_opt_iff. left. apply lang_mask. by exists m.
Qed.

(** X26.  The check of a network target accepts exactly the IP targets
    that hold a slash. *)
Theorem validateTarget_network_is_ip_with_mask (t : string) :
  validateTarget t "network" = true <->
  validateTarget t "ip" = true /\ In "/"%char (chars t).
Proof.
  rewrite validateTarget_network, validateTarget_ip. unfold network_re, ip_re.
  rewrite !lang_seq_iff. split.
  - intros (q & o & -> & Hq & Ho). split.
    + exists q, o. split; [done |]. split; [done |]. by apply lang_alt_l.
    + apply lang_mask in Ho as (m & _ & ->).
      rewrite chars_app, in_app_iff. right. by left.
  - intros [(q & o & -> & Hq & Ho) Hin]. exists q, o. split; [done |]. split; [done |].
    apply lang_opt_iff in Ho as [Ho | ->]; [done | exfalso].
    rewrite append_nil_r in Hin.
    apply lang_dotted_quad in Hq as (a & b & c & d & Ha & Hb & Hc & Hd & ->).
    by apply (quad_no_slash a b c d).
Qed.

Lemma alnum_alnum_dash (c : ascii) :
  in_class alnum c = true -> in_class alnum_dash c = true.
Proof.
  unfold in_class, alnum, alnum_dash. simpl. rewrite !orb_false_r, !orb_true_iff. tauto.
Qed.

(** X27.  A target accepted as a domain is one label and a top-level
    name joined by a single dot: the label has 2 to 63 letters, digits
    and dashes, the top-level name two letters or more and letters
    only.  A host name with a sub-domain is therefore refused. *)
Theorem validateTarget_domain_one_label (t : string) :
  validateTarget t "domain" = true ->
  exists label tld,
    t = label +:+ "." +:+ tld /\
    all_in alnum_dash label /\ (2 <= String.length label <= 63)%nat /\
    all_in alpha tld /\ (2 <= String.length tld)%nat.
Proof.
  rewrite validateTarget_domain. unfold domain_re, Between, AtLeast.
  intros (? & ? & -> & (x & -> & Hx)%lang_set_iff &
          (u & ? & -> & (u1 & u2 & -> & [Hu1 Hn1]%lang_times_set & [Hu2 Hn2]%lang_upto_set)%lang_seq_iff &
          (o & ? & -> & Ho%lang_opt_iff &
          (? & tld & -> & ->%lang_lit &
          (v1 & v2 & -> & [Hv1 Hm1]%lang_times_set & Hv2%lang_star_set
          )%lang_seq_iff)%lang_seq_iff)%lang_seq_iff)%lang_seq_iff)%lang_seq_iff.
  exists (String x "" +:+ (u1 +:+ u2) +:+ o), (v1 +:+ v2).
  assert (all_in alnum_dash o /\ (String.length o <= 1)%nat) as [Ho1 Ho2].
  { destruct Ho as [(y & -> & Hy)%lang_set_iff | ->].
    - split; [| done]. apply all_in_cons. split; [by apply alnum_alnum_dash | apply all_in_nil].
    - split; [apply all_in_nil | simpl; lia]. }
  split; [by rewrite !append_assoc |].
  split. { rewrite !all_in_app. repeat split; try done.
           apply all_in_cons. split; [by apply alnum_alnum_dash | apply all_in_nil]. }
  split. { rewrite !length_append. simpl. lia. }
  split. { by apply all_in_app. }
  rewrite length_append. lia.
Qed.

(** X27 at [example.com]. *)
Lemma validateTarget_domain_one_label_witness :
  validateTarget "example.com" "domain" = true /\
  exists label tld,
    "example.com" = label +:+ "." +:+ tld /\
    all_in alnum_dash label /\ (2 <= String.length label <= 63)%nat /\
    all_in alpha tld /\ (2 <= String.length tld)%nat.
Proof.
  split; [reflexivity |].
  apply (validateTarget_domain_one_label "example.com"). reflexivity.
Defined.

Lemma on_one_line_dot (c : ascii) (tail : string) :
  on_one_line c -> test_start Dot (String c tail) = true.
Proof.
  intros (Hlt & Hlf & Hcr). apply test_start_lang.
  exists (String c ""), tail. split; [done |].
  apply lang_alt_l, lang_set. unfold in_class. simpl.
  rewrite orb_false_r, !orb_true_iff, !andb_true_iff, !N.leb_le.
  assert (N_of_ascii c <> 10%N) as H10.
  { intros H. apply Hlf. rewrite <- (ascii_N_embedding c), H. done. }
  assert (N_of_ascii c <> 13%N) as H13.
  { intros H. apply Hcr. rewrite <- (ascii_N_embedding c), H. done. }
  lia.
Qed.

(** X28.  The check of a URL target looks at the scheme and at one
    character: it accepts exactly the texts that start with [http://]
    or [https://] followed by a character other than a line
    terminator; what comes after that character is not looked at. *)
Theorem validateTarget_url_checks_scheme_and_one_character (t : string) :
  validateTarget t "url" = true <->
  exists rest, (t = "http://" +:+ rest \/ t = "https://" +:+ rest) /\
               test_start Dot rest = true.
Proof.
  rewrite validateTarget_url. unfold url_re, Plus. split.
  - intros (? & s2 & -> & (? & ? & -> & ->%lang_str &
            (o & ? & -> & Ho%lang_opt_iff & (? & ? & -> & ->%lang_str &
            (d & e & -> & Hd & He)%lang_seq_iff)%lang_seq_iff)%lang_seq_iff)%lang_seq_iff).
    exists (d +:+ e +:+ s2). split.
    + destruct Ho as [->%lang_lit | ->]; [right | left]; by rewrite !append_assoc.
    + apply test_start_lang. by exists d, (e +:+ s2).
  - intros (rest & Ht & (d & v & -> & Hd)%test_start_lang).
    assert (lang (Seq (Str "://") (Seq Dot (Star Dot))) ("://" +:+ d)) as Htail.
    { apply lang_seq; [by apply lang_str |].
      rewrite <- (append_nil_r d). apply lang_seq; [done | constructor]. }
    destruct Ht as [-> | ->].
    + exists ("http" +:+ "" +:+ "://" +:+ d), v. split; [by rewrite !append_assoc |].
      apply lang_seq; [by apply lang_str |].
      apply lang_seq; [apply lang_opt_iff; by right | done].
    + exists ("http" +:+ "s" +:+ "://" +:+ d), v. split; [by rewrite !append_assoc |].
      apply lang_seq; [by apply lang_str |].
      apply lang_seq; [apply lang_opt_iff; left; by apply lang_lit | done].
Qed.

Lemma filter_absent (toolId : string) (tools : list string) :
  toolId ∉ tools -> filter (fun id => id <> toolId) tools = tools.
Proof.
  induction tools as [|x tools IH]; [done |].
  intros [Hx Hrest]%not_elem_of_cons.
  rewrite filter_cons_True by done. f_equal. by apply IH.
Qed.

(** X29.  [toggleTool] flips the selection of one tool and of no other:
    the tool is selected afterwards exactly when it was not before,
    every other tool is selected exactly when it was, a list without
    repetition stays without repetition, and toggling twice a tool that
    was not selected gives the list back. *)
Theorem toggleTool_flips_one_selection (toolId : string) (tools : list string) :
  (toolId ∈ toggleTool toolId tools <-> toolId ∉ tools) /\
  (forall id, id <> toolId -> id ∈ toggleTool toolId tools <-> id ∈ tools) /\
  (NoDup tools -> NoDup (toggleTool toolId tools)) /\
  (toolId ∉ tools -> toggleTool toolId (toggleTool toolId tools) = tools).
Proof.
  unfold toggleTool. repeat split.
  - case_bool_decide as Hin; [| done]. intros [Hne _]%list_elem_of_filter. done.
  - case_bool_decide as Hin; [done |]. intros _.
    rewrite elem_of_app, list_elem_of_singleton. by right.
  - case_bool_decide as Hin; [rewrite list_elem_of_filter; tauto |].
    rewrite elem_of_app, list_elem_of_singleton. tauto.
  - case_bool_decide as Hin; [rewrite list_elem_of_filter; tauto |].
    rewrite elem_of_app. tauto.
  - intros Hnd. case_bool_decide as Hin; [by apply NoDup_filter |].
    apply NoDup_app. split; [done |]. split; [| apply NoDup_singleton].
    intros x Hx ->%list_elem_of_singleton. done.
  - intros Hnot. rewrite (bool_decide_eq_false_2 _ Hnot).
    rewrite bool_decide_eq_true_2
      by (rewrite elem_of_app, list_elem_of_singleton; by right).
    rewrite filter_app, filter_cons_False, filter_nil by (intros H; by apply H).
    rewrite app_nil_r. by apply filter_absent.
Qed.

End TaskCreateLaws.

(** ** The language model service *)

Module LLMServiceLaws.
Import LLMService.

Section Sdk.

Variables OpenAI Anthropic GoogleGenerativeAI Any : Type.
Variable new_OpenAI : string -> Z -> OpenAI + string.
Variable new_Anthropic : string -> Z -> Anthropic + string.
Variable new_GoogleGenerativeAI : string -> GoogleGenerativeAI + string.
Variable chat_completions_create : OpenAI -> ChatParams -> Completion + string.
Variable messages_create : Anthropic -> MessageParams -> AnthropicMessage + string.
Variable generateContent : GoogleGenerativeAI -> string -> string -> string + string.
Variable JSON_parse : string -> Json + string.
Variable JSON_stringify : Any -> string + string.
Variable OPENAI_API_KEY : option string.

(** Initialising another provider leaves the OpenAI client as it was,
    whether the initialisation succeeds or throws. *)
Lemma initialize_other_provider (config : LLMConfig) (svc : Service OpenAI Anthropic GoogleGenerativeAI) :
  provider config <> "openai" ->
  openai (initialize new_OpenAI new_Anthropic new_GoogleGenerativeAI config svc).1 = openai svc.
Proof.
  intros Hother. unfold initialize.
  destruct (String.eqb_spec (provider config) "openai") as [Heq | _]; [done |].
  destruct (String.eqb (provider config) "anthropic").
  { by destruct (new_Anthropic _ _). }
  destruct (String.eqb (provider config) "gemini"); [| done].
  by destruct (new_GoogleGenerativeAI _).
Qed.

Lemma initialize_each_other_provider (configs : list LLMConfig)
    (svc : Service OpenAI Anthropic GoogleGenerativeAI) :
  Forall (fun config => provider config <> "openai") configs ->
  openai (foldl (fun svc config =>
                  (initialize new_OpenAI new_Anthropic new_GoogleGenerativeAI config svc).1)
                svc configs) = openai svc.
Proof.
  intros Hall. revert svc. induction Hall as [|config configs Hother _ IH]; intros svc; [done |].
  simpl. rewrite IH. by apply initialize_other_provider.
Qed.

(** X30.  The two helpers of the service address OpenAI whatever provider
    the service was initialised with: after any run of initialisations
    for other providers, successful or not, both throw before any
    provider is called. *)
Theorem helpers_need_the_openai_client
    (configs : list LLMConfig) (scanResults context : Any) (scanText contextText : string)
    (vulnerability : Vulnerability) (uuid : string) (now : Z) :
  Forall (fun config => provider config <> "openai") configs ->
  JSON_stringify scanResults = inl scanText ->
  JSON_stringify context = inl contextText ->
  analyzePentestResults chat_completions_create messages_create generateContent
      JSON_parse JSON_stringify OPENAI_API_KEY
      (initialized new_OpenAI new_Anthropic new_GoogleGenerativeAI configs) scanResults context uuid now
    = inr "OpenAI client not initialized" /\
  generatePocCode chat_completions_create messages_create generateContent
      JSON_parse OPENAI_API_KEY
      (initialized new_OpenAI new_Anthropic new_GoogleGenerativeAI configs) vulnerability uuid now
    = inr "OpenAI client not initialized".
Proof.
  intros Hall Hscan Hcontext.
  assert (openai (initialized new_OpenAI new_Anthropic new_GoogleGenerativeAI configs) = None)
    as Hnone by (apply (initialize_each_other_provider configs fresh Hall)).
  unfold analyzePentestResults, generatePocCode, generateResponse, callOpenAI.
  rewrite Hscan, Hcontext. simpl. by rewrite Hnone.
Qed.

End Sdk.

(** X30 after the initialisations for a Claude and for a Gemini model. *)
Lemma helpers_need_the_openai_client_witness :
  analyzePentestResults (OpenAI := unit) (Anthropic := unit) (GoogleGenerativeAI := unit)
      (fun _ _ => inr "connection refused") (fun _ _ => inr "connection refused")
      (fun _ _ _ => inr "connection refused") (fun _ => inr "Unexpected token") inl None
      (initialized (fun _ _ => inl ()) (fun _ _ => inl ()) (fun _ => inl ()) other_providers)
      "[]" "{}" "id" 0
    = inr "OpenAI client not initialized" /\
  generatePocCode (OpenAI := unit) (Anthropic := unit) (GoogleGenerativeAI := unit)
      (fun _ _ => inr "connection refused") (fun _ _ => inr "connection refused")
      (fun _ _ _ => inr "connection refused") (fun _ => inr "Unexpected token") None
      (initialized (fun _ _ => inl ()) (fun _ _ => inl ()) (fun _ => inl ()) other_providers)
      sample_vulnerability "id" 0
    = inr "OpenAI client not initialized".
Proof.
  apply (helpers_need_the_openai_client unit unit unit string
           (fun _ _ => inl ()) (fun _ _ => inl ()) (fun _ => inl ())
           (fun _ _ => inr "connection refused") (fun _ _ => inr "connection refused")
           (fun _ _ _ => inr "connection refused") (fun _ => inr "Unexpected token") inl None
           other_providers "[]" "{}" "[]" "{}" sample_vulnerability "id" 0).
  - apply (bool_decide_unpack _). vm_compute. exact I.
  - reflexivity.
  - reflexivity.
Defined.

End LLMServiceLaws.
